(** * CV ingestion pipeline of the academic advisor backend

    A shallow embedding of [app/services/skill_extractor.py],
    [app/services/cv_parser.py], the upload route of [app/api/v1/cv.py] and
    the text functions of [app/services/nlp_service.py], followed by the
    properties of the skill pipeline, the section segmenter, the document
    parser and the contact and timeline extraction.

    Python [str] values are embedded as Rocq [string]s, one 8-bit character
    per code point: the embedding covers texts over Latin-1 (U+0000-U+00FF),
    a range closed under [str.lower], [str.strip] and the regular expressions
    of the source, and [bytes] values as strings of bytes.  Python [dict]s
    whose iteration order is observed are
    association lists in insertion order; dicts used as records are Rocq
    records with one optional field per key; [int] is [Z] and [float] is
    the binary64 type [PrimFloat.float]. *)

From Stdlib Require Import ZArith List String Ascii Bool Lia Floats Uint63.
From Stdlib Require Import Permutation Sorted.
Import ListNotations.

Local Open Scope string_scope.
Local Open Scope Z_scope.

(** ** Python string primitives *)

Module Py.

(** Code point of a character. *)
Definition ord (c : ascii) : N := N_of_ascii c.

Definition in_range (lo hi : N) (c : ascii) : bool :=
  (N.leb lo (ord c) && N.leb (ord c) hi)%bool.

(** [str.isspace] on one character, also the class [\s] of [re] and the
    characters removed by [str.strip()]. *)
Definition is_space (c : ascii) : bool :=
  (in_range 9 13 c || in_range 28 32 c || N.eqb (ord c) 133
   || N.eqb (ord c) 160)%bool.

(** The class [\w] of [re] on [str] patterns: alphanumeric or underscore. *)
Definition is_word (c : ascii) : bool :=
  (in_range 48 57 c || in_range 65 90 c || N.eqb (ord c) 95
   || in_range 97 122 c
   || N.eqb (ord c) 170 || in_range 178 179 c || N.eqb (ord c) 181
   || in_range 185 186 c || in_range 188 190 c
   || in_range 192 214 c || in_range 216 246 c || in_range 248 255 c)%bool.

(** [str.lower] on one character. *)
Definition lower_char (c : ascii) : ascii :=
  if (in_range 65 90 c || in_range 192 214 c || in_range 216 222 c)%bool
  then ascii_of_N (ord c + 32)
  else c.

Fixpoint lower (s : string) : string :=
  match s with
  | EmptyString => EmptyString
  | String c s' => String (lower_char c) (lower s')
  end.

Definition newline : ascii := "010"%char.

Fixpoint lstrip (s : string) : string :=
  match s with
  | String c s' => if is_space c then lstrip s' else s
  | EmptyString => EmptyString
  end.

Fixpoint all_space (s : string) : bool :=
  match s with
  | String c s' => (is_space c && all_space s')%bool
  | EmptyString => true
  end.

Fixpoint rstrip (s : string) : string :=
  match s with
  | String c s' => if all_space s then EmptyString else String c (rstrip s')
  | EmptyString => EmptyString
  end.

(** [s.strip()] *)
Definition strip (s : string) : string := rstrip (lstrip s).

(** [s.startswith(p)] *)
Fixpoint startswith (p s : string) : bool :=
  match p with
  | EmptyString => true
  | String a p' =>
      match s with
      | String c s' => (Ascii.eqb a c && startswith p' s')%bool
      | EmptyString => false
      end
  end.

Fixpoint drop (n : nat) (s : string) : string :=
  match n with
  | O => s
  | S n' => match s with String _ s' => drop n' s' | EmptyString => EmptyString end
  end.

(** [s.endswith(p)] *)
Definition endswith (p s : string) : bool :=
  (Nat.leb (String.length p) (String.length s)
   && String.eqb (drop (String.length s - String.length p) s) p)%bool.

(** [sub in s] *)
Fixpoint contains (sub s : string) : bool :=
  (startswith sub s
   || match s with
      | String _ s' => contains sub s'
      | EmptyString => false
      end)%bool.

(** [s.count(sub)]: the number of non-overlapping occurrences, scanning
    from the left; [skip] is the number of characters of the last
    occurrence still to be passed.  The empty [sub] occurs [len(s) + 1]
    times. *)
Fixpoint count_from (skip : nat) (sub s : string) : nat :=
  match s with
  | EmptyString =>
      match skip, sub with
      | O, EmptyString => 1%nat
      | _, _ => 0%nat
      end
  | String _ s' =>
      match skip with
      | S k => count_from k sub s'
      | O =>
          if startswith sub s
          then S (count_from (String.length sub - 1) sub s')
          else count_from 0 sub s'
      end
  end.

Definition count (sub s : string) : nat := count_from 0 sub s.

(** Splitting at every character of a class: [s.split('\n')] and
    [re.split(r'[...]', s)].  The result is never empty. *)
Fixpoint split_on (delim : ascii -> bool) (s : string) : list string :=
  match s with
  | EmptyString => [EmptyString]
  | String c s' =>
      if delim c then EmptyString :: split_on delim s'
      else match split_on delim s' with
           | w :: ws => String c w :: ws
           | [] => [String c EmptyString]
           end
  end.

(** [s.replace(x, '')] for a one-character [x]. *)
Fixpoint remove_char (x : ascii) (s : string) : string :=
  match s with
  | EmptyString => EmptyString
  | String c s' =>
      if Ascii.eqb c x then remove_char x s' else String c (remove_char x s')
  end.

(** [s.replace(x, y)] for one-character [x] and [y]. *)
Fixpoint replace_char (x y : ascii) (s : string) : string :=
  match s with
  | EmptyString => EmptyString
  | String c s' =>
      String (if Ascii.eqb c x then y else c) (replace_char x y s')
  end.

(** [sep.join(l)] *)
Fixpoint join (sep : string) (l : list string) : string :=
  match l with
  | [] => EmptyString
  | [x] => x
  | x :: rest => x ++ sep ++ join sep rest
  end.

(** [s[:n]] *)
Fixpoint take (n : nat) (s : string) : string :=
  match n, s with
  | S n', String c s' => String c (take n' s')
  | _, _ => EmptyString
  end.

(** [s.split()]: the maximal runs of non-space characters. *)
Fixpoint words_from (cur : string) (s : string) : list string :=
  match s with
  | EmptyString =>
      match cur with EmptyString => [] | _ => [cur] end
  | String c s' =>
      if is_space c
      then match cur with
           | EmptyString => words_from EmptyString s'
           | _ => cur :: words_from EmptyString s'
           end
      else words_from (cur ++ String c EmptyString) s'
  end.

Definition words (s : string) : list string := words_from EmptyString s.

(** A [dict] with [str] keys, in insertion order. *)
Definition dict (V : Type) : Type := list (string * V).

(** [d.get(k)] *)
Fixpoint dict_get {V : Type} (d : dict V) (k : string) : option V :=
  match d with
  | [] => None
  | (k', v) :: d' => if String.eqb k k' then Some v else dict_get d' k
  end.

(** [d[k] = v]: an existing key keeps its position, a new one goes last. *)
Fixpoint dict_set {V : Type} (k : string) (v : V) (d : dict V) : dict V :=
  match d with
  | [] => [(k, v)]
  | (k', v') :: d' =>
      if String.eqb k k' then (k', v) :: d' else (k', v') :: dict_set k v d'
  end.

(** [d.get(k, default)], given the result of the lookup. *)
Definition or_default {A : Type} (o : option A) (default : A) : A :=
  match o with Some x => x | None => default end.

(** Python numbers that occur in the pipeline: [int] or [float]. *)
Inductive num : Type :=
  | Int (z : Z)
  | Float (f : float).

(** The conversion of an int operand of a float operation: the nearest
    binary64 value, ties to even; [None] stands for the [OverflowError]
    Python raises when the int is too large for a float. *)
Definition float_of_int (z : Z) : option float :=
  match binary_normalize prec emax z 0 false with
  | S754_infinity _ => None
  | f => Some (SF2Prim f)
  end.

(** [x * f] for a float [f]: the result is a float, or the
    [OverflowError] of the conversion of [x]. *)
Definition mul_float (x : num) (f : float) : option num :=
  match x with
  | Int z => option_map (fun g => Float (PrimFloat.mul g f)) (float_of_int z)
  | Float g => Some (Float (PrimFloat.mul g f))
  end.

(** [x + z] for an int [z]: int + int stays an int, float + int converts
    the int. *)
Definition add_int (x : num) (z : Z) : option num :=
  match x with
  | Int a => Some (Int (a + z))
  | Float f => option_map (fun g => Float (PrimFloat.add f g)) (float_of_int z)
  end.

(** The order of an int and a float: Python compares the exact values
    and converts nothing; [None] when the float is NaN. *)
Definition compare_int_float (z : Z) (f : float) : option comparison :=
  match Prim2SF f with
  | S754_nan => None
  | S754_infinity negative => Some (if negative then Gt else Lt)
  | S754_zero _ => Some (z ?= 0)
  | S754_finite negative m e =>
      let v := if negative then Z.neg m else Z.pos m in
      Some (if 0 <=? e then z ?= v * 2 ^ e else z * 2 ^ (- e) ?= v)
  end.

(** [x < y] *)
Definition lt (x y : num) : bool :=
  match x, y with
  | Int a, Int b => a <? b
  | Int a, Float g =>
      match compare_int_float a g with Some Lt => true | _ => false end
  | Float f, Int b =>
      match compare_int_float b f with Some Gt => true | _ => false end
  | Float f, Float g => PrimFloat.ltb f g
  end.

(** [list.sort(key=..., reverse=True)]: a stable sort into descending key
    order; elements with equal keys keep their order.  [insert_desc x l]
    places [x], which precedes the elements of [l] in the input, in front
    of the first element whose key is not greater than the key of [x]. *)
Section Sort.
Context {A : Type} (key : A -> num).

Fixpoint insert_desc (x : A) (l : list A) : list A :=
  match l with
  | [] => [x]
  | y :: l' => if lt (key x) (key y) then y :: insert_desc x l' else x :: l
  end.

Fixpoint sort_desc (l : list A) : list A :=
  match l with
  | [] => []
  | x :: l' => insert_desc x (sort_desc l')
  end.
End Sort.

End Py.

(** ** [app/services/skill_extractor.py] *)

Module SkillExtractor.
Import Py.

(** A skill dict.  Candidates carry ['name'], ['type'] and, depending on
    the generator, ['category'], ['matched_text'], ['context'] or a model
    ['confidence']; the merge step adds ['sources'], the scorer sets
    ['confidence'] and the ranking step ['importance_score']. *)
Record skill : Type := mkSkill {
  name : string;
  category : option string;
  type : option string;
  matched_text : option string;
  context : option string;
  sources : option (list string);
  confidence : option num;
  importance_score : option num
}.

Definition set_sources (s : skill) (v : list string) : skill :=
  mkSkill (name s) (category s) (type s) (matched_text s) (context s)
          (Some v) (confidence s) (importance_score s).

Definition set_confidence (s : skill) (v : num) : skill :=
  mkSkill (name s) (category s) (type s) (matched_text s) (context s)
          (sources s) (Some v) (importance_score s).

Definition set_importance_score (s : skill) (v : num) : skill :=
  mkSkill (name s) (category s) (type s) (matched_text s) (context s)
          (sources s) (confidence s) (Some v).

(** One entry of a taxonomy table: the value stored under a canonical
    skill name. *)
Record skill_info : Type := mkInfo {
  aliases : option (list string);
  info_category : option string;
  db_importance : option Z
}.

(** A taxonomy table: canonical name to entry. *)
Definition skill_table : Type := dict skill_info.

Record skill_db : Type := mkDb {
  technical_skills : skill_table;
  soft_skills : skill_table;
  certifications : skill_table
}.

(** [load_skill_database] *)
Definition load_skill_database : skill_db :=
  mkDb
    [ ("Python", mkInfo (Some ["python3"; "py"]) (Some "programming") (Some 10));
      ("JavaScript", mkInfo (Some ["js"; "es6"]) (Some "programming") (Some 9));
      ("React", mkInfo (Some ["react.js"; "reactjs"]) (Some "web") (Some 8));
      ("Machine Learning",
        mkInfo (Some ["ml"; "machine-learning"]) (Some "ai") (Some 9));
      ("Docker", mkInfo (Some ["containerization"]) (Some "devops") (Some 7)) ]
    [ ("Leadership", mkInfo (Some ["team lead"; "management"]) None (Some 8));
      ("Communication", mkInfo (Some ["interpersonal"]) None (Some 9)) ]
    [ ("AWS Certified", mkInfo (Some ["aws certification"]) None (Some 8));
      ("PMP", mkInfo (Some ["project management professional"]) None (Some 7)) ].

Definition opt_is_word (c : option ascii) : bool :=
  match c with Some c => is_word c | None => false end.

Definition head_char (s : string) : option ascii :=
  match s with String c _ => Some c | EmptyString => None end.

(** The assertion [\b] between the character [prev] and the character
    [next]; the ends of the string count as non-word. *)
Definition word_boundary (prev next : option ascii) : bool :=
  xorb (opt_is_word prev) (opt_is_word next).

(** The rest of the pattern [lit\b] at a position whose preceding
    character is [prev]. *)
Fixpoint match_literal_b (lit : string) (prev : option ascii) (s : string)
  : bool :=
  match lit with
  | EmptyString => word_boundary prev (head_char s)
  | String a lit' =>
      match s with
      | String c s' => (Ascii.eqb a c && match_literal_b lit' (Some c) s')%bool
      | EmptyString => false
      end
  end.

(** [re.search(r'\b' + re.escape(lit) + r'\b', s)], scanning the start
    positions from the one after [prev]. *)
Fixpoint search_word (lit : string) (prev : option ascii) (s : string) : bool :=
  (word_boundary prev (head_char s) && match_literal_b lit prev s
   || match s with
      | String c s' => search_word lit (Some c) s'
      | EmptyString => false
      end)%bool.

(** [find_skill_in_text] *)
Definition find_skill_in_text (skill text : string) : bool :=
  search_word (lower skill) None text.

(** The body of the inner loop of [extract_rule_based] for one taxonomy
    entry: the canonical name first, then the aliases up to the first one
    found. *)
Definition rule_candidates (category text_lower : string)
    (entry : string * skill_info) : list skill :=
  let (skill_name, info) := entry in
  let found m :=
    mkSkill skill_name (Some (or_default (info_category info) category))
            (Some category) (Some m) None None None None in
  if find_skill_in_text skill_name text_lower then [found skill_name]
  else
    match find (fun alias => find_skill_in_text alias text_lower)
               (or_default (aliases info) []) with
    | Some alias => [found alias]
    | None => []
    end.

(** The tables the rule-based generator walks, with the label it gives
    each. *)
Definition rule_tables (db : skill_db) : list (string * skill_table) :=
  [ ("technical", technical_skills db); ("soft", soft_skills db) ].

(** [extract_rule_based] *)
Definition extract_rule_based (db : skill_db) (text : string) : list skill :=
  let text_lower := lower text in
  flat_map
    (fun ct : string * skill_table =>
       flat_map (rule_candidates (fst ct) text_lower) (snd ct))
    (rule_tables db).

(** [preprocess_text] *)
Definition keep_for_model (c : ascii) : bool :=
  (in_range 97 122 c || in_range 65 90 c || in_range 48 57 c || is_space c
   || Ascii.eqb c "+" || Ascii.eqb c "#")%bool.

Fixpoint blank_out (s : string) : string :=
  match s with
  | EmptyString => EmptyString
  | String c s' => String (if keep_for_model c then c else " "%char) (blank_out s')
  end.

Definition preprocess_text (text : string) : string :=
  join " " (words (blank_out (lower text))).

(** The trained artifacts loaded by [__init__]: the classifier's class
    labels and the composition of [vectorizer.transform] with
    [model.predict_proba], one probability per class. *)
Record classifier : Type := mkClassifier {
  classes_ : list string;
  predict_proba : string -> list float
}.

(** [extract_ml_based] with the artifacts present. *)
Definition extract_ml_based (m : classifier) (text : string) : list skill :=
  let predictions := predict_proba m (preprocess_text text) in
  flat_map
    (fun cp : string * float =>
       if PrimFloat.ltb 0.5%float (snd cp)
       then [mkSkill (fst cp) None (Some "ml_predicted") None None None
                     (Some (Float (snd cp))) None]
       else [])
    (combine (classes_ m) predictions).

(** Character class [[:\s]] *)
Definition is_label_sep (c : ascii) : bool :=
  (Ascii.eqb c ":" || is_space c)%bool.

(** [[^\n]+(?:\n[^\n]+)*] matched greedily where a non-newline character
    starts: lines up to the first empty line or the end of the text. *)
Fixpoint take_block (s : string) : string :=
  match s with
  | EmptyString => EmptyString
  | String c s' =>
      if Ascii.eqb c newline
      then match s' with
           | String d _ =>
               if Ascii.eqb d newline then EmptyString
               else String c (take_block s')
           | EmptyString => EmptyString
           end
      else String c (take_block s')
  end.

Definition block_at (s : string) : option (string * string) :=
  match s with
  | String c _ =>
      if Ascii.eqb c newline then None else Some (EmptyString, take_block s)
  | EmptyString => None
  end.

(** [[:\s]*(...)] after the label: the greedy star first takes one more
    separator and gives it back when the group cannot match behind it.
    Returns the separators consumed and group 1. *)
Fixpoint match_sep_block (s : string) : option (string * string) :=
  match s with
  | String c s' =>
      if is_label_sep c
      then match match_sep_block s' with
           | Some (sep, blk) => Some (String c sep, blk)
           | None => block_at s
           end
      else block_at s
  | EmptyString => None
  end.

(** A literal of the pattern under [re.IGNORECASE]. *)
Fixpoint startswith_ci (p s : string) : bool :=
  match p with
  | EmptyString => true
  | String a p' =>
      match s with
      | String c s' => (Ascii.eqb a (lower_char c) && startswith_ci p' s')%bool
      | EmptyString => false
      end
  end.

Definition section_labels : list string :=
  [ "skills"; "expertise"; "competencies"; "technologies" ].

(** The alternatives of the label group tried in order at one position:
    [(group(0), group(1))] of the first that lets the whole pattern
    match. *)
Fixpoint match_labels (labels : list string) (s : string)
  : option (string * string) :=
  match labels with
  | [] => None
  | l :: ls =>
      let n := String.length l in
      match (if startswith_ci l s then match_sep_block (drop n s) else None) with
      | Some (sep, blk) => Some (take n s ++ sep ++ blk, blk)
      | None => match_labels ls s
      end
  end.

(** [re.finditer(skills_section_pattern, text, re.IGNORECASE)]: the
    non-overlapping matches from left to right; [skip] counts the
    characters of the last match still to be passed. *)
Fixpoint finditer_from (skip : nat) (s : string) : list (string * string) :=
  match s with
  | EmptyString => []
  | String _ s' =>
      match skip with
      | S k => finditer_from k s'
      | O =>
          match match_labels section_labels s with
          | Some (g0, g1) => (g0, g1) :: finditer_from (String.length g0 - 1) s'
          | None => finditer_from 0 s'
          end
      end
  end.

Definition finditer (text : string) : list (string * string) :=
  finditer_from 0 text.

(** The class [[,;|•·\n]] of the split; the bullet U+2022 lies outside
    Latin-1 and so never occurs in an embedded text. *)
Definition is_delimiter (c : ascii) : bool :=
  (Ascii.eqb c "," || Ascii.eqb c ";" || Ascii.eqb c "|"
   || Ascii.eqb c "183" || Ascii.eqb c newline)%bool.

(** [2 < len(item) < 50] *)
Definition reasonable_length (item : string) : bool :=
  (Nat.ltb 2 (String.length item) && Nat.ltb (String.length item) 50)%bool.

(** The candidates of one match of the pattern. *)
Definition pattern_candidates (m : string * string) : list skill :=
  flat_map
    (fun item =>
       let item := strip item in
       if reasonable_length item
       then [mkSkill item None (Some "pattern_extracted") None
                     (Some (take 100 (fst m))) None None None]
       else [])
    (split_on is_delimiter (snd m)).

(** [extract_pattern_based] *)
Definition extract_pattern_based (text : string) : list skill :=
  flat_map pattern_candidates (finditer text).

(** The merge step.  [fuzz.ratio] belongs to the fuzzywuzzy package, whose
    matcher depends on the installation; it is a parameter of the
    embedding, an integer percentage computed from two strings. *)
Section Merge.
Variable ratio : string -> string -> Z.

(** The accumulator [combined]: lowercased name to skill dict, in
    insertion order. *)
Definition combined_dict : Type := dict skill.

(** [skill.get('type', 'unknown')] *)
Definition source_of (s : skill) : string := or_default (type s) "unknown".

(** The merge branch: [sources] is created when absent and the source
    of the candidate appended. *)
Definition add_source (existing : skill) (src : string) : skill :=
  set_sources existing (or_default (sources existing) [] ++ [src]).

(** The inner [for existing_key in combined.keys()] loop: the first key
    more than 85-similar to [skill_key] receives the source; [None] when
    the loop ends with [found] still false. *)
Fixpoint merge_into (skill_key src : string) (combined : combined_dict)
  : option combined_dict :=
  match combined with
  | [] => None
  | (existing_key, existing) :: rest =>
      if 85 <? ratio skill_key existing_key
      then Some ((existing_key, add_source existing src) :: rest)
      else option_map (cons (existing_key, existing))
                      (merge_into skill_key src rest)
  end.

(** One iteration of [for skill in skill_list]. *)
Definition combine_step (combined : combined_dict) (s : skill)
  : combined_dict :=
  let skill_key := lower (name s) in
  match merge_into skill_key (source_of s) combined with
  | Some combined' => combined'
  | None => dict_set skill_key (set_sources s [source_of s]) combined
  end.

(** [combine_skills], applied to the lists of its variadic argument. *)
Definition combine_skills (skill_lists : list (list skill)) : list skill :=
  map snd (fold_left combine_step (List.concat skill_lists) []).
End Merge.

Definition proficiency_terms : list string :=
  [ "expert"; "advanced"; "proficient"; "experienced"; "skilled" ].

(** [f"{term} {skill_lower}" in text_lower or
     f"{skill_lower} {term}" in text_lower] for some term. *)
Definition has_proficiency (skill_lower text_lower : string) : bool :=
  existsb
    (fun term =>
       (contains (term ++ " " ++ skill_lower) text_lower
        || contains (skill_lower ++ " " ++ term) text_lower)%bool)
    proficiency_terms.

(** [re.search(rf'skills.*{re.escape(lit)}', s, re.DOTALL)]: the word
    "skills" somewhere, the literal anywhere behind it. *)
Fixpoint search_after_skills (lit s : string) : bool :=
  (startswith "skills" s && contains lit (drop 6 s)
   || match s with
      | String _ s' => search_after_skills lit s'
      | EmptyString => false
      end)%bool.

(** The value assigned to [skill['confidence']]. *)
Definition confidence_of (s : skill) (text_lower : string) : Z :=
  let confidence := 60 in
  let skill_lower := lower (name s) in
  let frequency := Z.of_nat (count skill_lower text_lower) in
  let confidence := confidence + Z.min (frequency * 5) 20 in
  let confidence :=
    match sources s with
    | Some l => confidence + Z.of_nat (List.length l) * 10
    | None => confidence
    end in
  let confidence :=
    if has_proficiency skill_lower text_lower then confidence + 15
    else confidence in
  let confidence :=
    if search_after_skills skill_lower text_lower then confidence + 10
    else confidence in
  Z.min confidence 95.

(** [calculate_confidence] *)
Definition calculate_confidence (skills : list skill) (text : string)
  : list skill :=
  let text_lower := lower text in
  map (fun s => set_confidence s (Int (confidence_of s text_lower))) skills.

Definition technical_categories : list string :=
  [ "programming"; "web"; "data"; "ai" ].

(** [skill.get('category') in ['programming', 'web', 'data', 'ai']] *)
Definition is_technical (s : skill) : bool :=
  match category s with
  | Some c => existsb (String.eqb c) technical_categories
  | None => false
  end.

(** The float literal [1.2]: the binary64 value nearest to 6/5. *)
Definition technical_boost : float := 0x1.3333333333333p+0%float.

(** The value assigned to [skill['importance_score']]; [None] when the
    arithmetic raises. *)
Definition importance_of (db : skill_db) (s : skill) : option num :=
  let importance := or_default (confidence s) (Int 50) in
  match (if is_technical s then mul_float importance technical_boost
         else Some importance) with
  | Some importance =>
      match dict_get (technical_skills db) (name s) with
      | Some info => add_int importance (or_default (db_importance info) 5 * 5)
      | None => Some importance
      end
  | None => None
  end.

(** [x.get('importance_score', 0)] *)
Definition sort_key (s : skill) : num := or_default (importance_score s) (Int 0).

(** The scoring loop of [rank_skills]: every skill gets its score, and a
    score that raises ends the function. *)
Fixpoint score_skills (db : skill_db) (skills : list skill)
  : option (list skill) :=
  match skills with
  | [] => Some []
  | s :: rest =>
      match importance_of db s with
      | Some importance =>
          option_map (cons (set_importance_score s importance))
                     (score_skills db rest)
      | None => None
      end
  end.

(** [rank_skills]; [None] stands for the [OverflowError] of a score. *)
Definition rank_skills (db : skill_db) (skills : list skill)
  : option (list skill) :=
  option_map (sort_desc sort_key) (score_skills db skills).

(** [extract]: [model] is [None] when the artifacts could not be
    loaded. *)
Definition extract (ratio : string -> string -> Z) (db : skill_db)
    (model : option classifier) (text : string) : option (list skill) :=
  let rule_based_skills := extract_rule_based db text in
  let ml_skills :=
    match model with
    | Some m => extract_ml_based m text
    | None => []
    end in
  let pattern_skills := extract_pattern_based text in
  let all_skills :=
    combine_skills ratio [rule_based_skills; ml_skills; pattern_skills] in
  let skills_with_confidence := calculate_confidence all_skills text in
  rank_skills db skills_with_confidence.

End SkillExtractor.

(** ** [fuzz.ratio]

    The similarity measure of fuzzywuzzy as the package computes it over
    [difflib.SequenceMatcher], the matcher it uses unless
    python-Levenshtein is installed: 100 for equal strings, 0 when one is
    empty, else [int(round(100 * 2.0 * M / T))] with [M] the number of
    characters in the matching blocks and [T] the sum of the lengths.  The
    embedding covers second arguments of fewer than 200 characters, below
    which the matcher treats no character as popular. *)

Module Fuzz.
Import Py.

(** The length of the common prefix. *)
Fixpoint common_prefix (a b : string) : nat :=
  match a, b with
  | String x a', String y b' =>
      if Ascii.eqb x y then S (common_prefix a' b') else 0%nat
  | _, _ => 0%nat
  end.

(** [find_longest_match]: the longest block common to [a] and [b] as
    start in [a], start in [b] and size; of several longest blocks the
    one that starts first in [a], and of those the one that starts first
    in [b].  [scan_b] tries the block at the head of [a], which stands at
    offset [i], against every offset [j] of [b]. *)
Fixpoint scan_b (a : string) (i : nat) (b : string) (j : nat)
    (best : nat * nat * nat) : nat * nat * nat :=
  match b with
  | EmptyString => best
  | String _ b' =>
      let k := common_prefix a b in
      scan_b a i b' (S j) (if Nat.ltb (snd best) k then (i, j, k) else best)
  end.

Fixpoint scan_a (a : string) (i : nat) (b : string)
    (best : nat * nat * nat) : nat * nat * nat :=
  match a with
  | EmptyString => best
  | String _ a' => scan_a a' (S i) b (scan_b a i b 0 best)
  end.

Definition find_longest_match (a b : string) : nat * nat * nat :=
  scan_a a 0 b (0, 0, 0)%nat.

(** The total size of [get_matching_blocks]: the longest block, then the
    blocks to its left and to its right; [fuel] bounds the depth by the
    length of [a]. *)
Fixpoint matching_size (fuel : nat) (a b : string) : nat :=
  match fuel with
  | O => 0%nat
  | S fuel' =>
      let '(i, j, k) := find_longest_match a b in
      if Nat.eqb k 0 then 0%nat
      else (k + matching_size fuel' (take i a) (take j b)
            + matching_size fuel' (drop (i + k) a) (drop (j + k) b))%nat
  end.

Definition float_of_nat (n : nat) : float :=
  PrimFloat.of_uint63 (Uint63.of_Z (Z.of_nat n)).

(** [int(round(f))] for a finite [f]: the nearest int, ties to the even
    one. *)
Definition round (f : float) : Z :=
  match Prim2SF f with
  | S754_finite negative m e =>
      let magnitude :=
        if 0 <=? e then Z.pos m * 2 ^ e
        else
          let d := 2 ^ (- e) in
          let q := Z.pos m / d in
          let r := Z.pos m mod d in
          if 2 * r <? d then q
          else if d <? 2 * r then q + 1
          else if Z.even q then q else q + 1 in
      if negative then - magnitude else magnitude
  | _ => 0
  end.

(** [fuzz.ratio(s1, s2)] *)
Definition ratio (s1 s2 : string) : Z :=
  if String.eqb s1 s2 then 100
  else if (Nat.eqb (String.length s1) 0 || Nat.eqb (String.length s2) 0)%bool
  then 0
  else
    let matches := matching_size (String.length s1) s1 s2 in
    let length := (String.length s1 + String.length s2)%nat in
    let ratio :=
      PrimFloat.div (PrimFloat.mul 2%float (float_of_nat matches))
                    (float_of_nat length) in
    round (PrimFloat.mul (float_of_nat 100) ratio).

End Fuzz.

(** ** [app/services/cv_parser.py] *)

Module CVParser.
Import Py.

(** [self.section_headers] *)
Definition section_headers : list string :=
  [ "education"; "experience"; "skills"; "projects";
    "certifications"; "publications"; "summary"; "objective";
    "work experience"; "professional experience"; "employment";
    "academic background"; "technical skills"; "achievements" ].

(** The condition of the inner loop of [extract_sections]. *)
Definition header_matches (line_lower header : string) : bool :=
  (startswith header line_lower
   || endswith header line_lower
   || String.eqb header (strip (remove_char ":" line_lower)))%bool.

(** The header the inner loop breaks on, if any. *)
Definition find_header (line_lower : string) : option string :=
  find (header_matches line_lower) section_headers.

(** The loop state of [extract_sections]. *)
Record seg_state : Type := mkSeg {
  sections : dict string;
  current_section : string;
  section_content : list string
}.

Definition nl : string := String newline EmptyString.

(** [if section_content: sections[current_section] = ...] *)
Definition flush (st : seg_state) : dict string :=
  match section_content st with
  | [] => sections st
  | _ => dict_set (current_section st) (join nl (section_content st))
                  (sections st)
  end.

(** One iteration of [for line in lines]. *)
Definition seg_step (st : seg_state) (line : string) : seg_state :=
  let line_lower := lower (strip line) in
  match find_header line_lower with
  | Some header => mkSeg (flush st) (replace_char " " "_" header) []
  | None =>
      match strip line with
      | EmptyString => st
      | _ => mkSeg (sections st) (current_section st)
                   (section_content st ++ [line])
      end
  end.

(** [extract_sections] *)
Definition extract_sections (text : string) : dict string :=
  let lines := split_on (Ascii.eqb newline) text in
  flush (fold_left seg_step lines (mkSeg [] "header" [])).

(** Exceptions: the [ValueError] raised by [parse] with the extension it
    names, and whatever a library call raises. *)
Inductive exn : Type :=
  | UnsupportedFormat (file_extension : string)
  | LibraryError (detail : string).

Inductive outcome (A : Type) : Type :=
  | Return (a : A)
  | Raise (e : exn).
Arguments Return {A} a.
Arguments Raise {A} e.

(** What PyMuPDF exposes of one embedded image: [pix.n - pix.alpha] of
    its [fitz.Pixmap], and the result of rendering it to PNG and running
    [pytesseract.image_to_string]; [None] where the call raises. *)
Record pdf_image : Type := mkImage {
  colour_channels : option Z;
  ocr_text : option string
}.

(** One page of [fitz.open(...)]: [page.get_text()] and
    [page.get_images()]; [None] where the call raises. *)
Record mupdf_page : Type := mkPage {
  page_text : option string;
  image_list : option (list pdf_image)
}.

(** What [PdfReader] exposes: [extract_text()] of every page, [None]
    where it raises, and the document information when present. *)
Record pypdf_document : Type := mkPypdf {
  reader_pages : list (option string);
  reader_metadata : option (dict string)
}.

(** The library calls of the module; [None] stands for a raised
    exception. *)
Record libraries : Type := mkLibs {
  PdfReader : string -> option pypdf_document;
  fitz_open : string -> option (list mupdf_page);
  docx2txt_process : string -> option string;
  decode_utf8_ignore : string -> string
}.

(** A block under [try] that mutates [text]: the text when the block ran
    to its end, or the text reached when an exception left it. *)
Inductive run : Type :=
  | Finished (text : string)
  | Interrupted (text : string).

Definition text_of (r : run) : string :=
  match r with Finished t => t | Interrupted t => t end.

(** [for page in pdf.pages: text += page.extract_text() + "\n"] *)
Fixpoint read_pages (text : string) (pages : list (option string)) : run :=
  match pages with
  | [] => Finished text
  | Some t :: rest => read_pages (text ++ t ++ nl) rest
  | None :: _ => Interrupted text
  end.

(** The loop over [image_list]. *)
Fixpoint ocr_images (text : string) (images : list pdf_image) : run :=
  match images with
  | [] => Finished text
  | img :: rest =>
      match colour_channels img with
      | None => Interrupted text
      | Some n =>
          if n <? 4
          then match ocr_text img with
               | Some t => ocr_images (text ++ t ++ nl) rest
               | None => Interrupted text
               end
          else ocr_images text rest
      end
  end.

Definition is_empty (s : string) : bool :=
  match s with EmptyString => true | _ => false end.

(** The loop over the pages of the PyMuPDF document. *)
Fixpoint read_mupdf (text : string) (pages : list mupdf_page) : run :=
  match pages with
  | [] => Finished text
  | page :: rest =>
      match page_text page with
      | None => Interrupted text
      | Some t =>
          let text := text ++ t ++ nl in
          match image_list page with
          | None => Interrupted text
          | Some [] => read_mupdf text rest
          | Some images =>
              if is_empty (strip text)
              then match ocr_images text images with
                   | Finished text' => read_mupdf text' rest
                   | Interrupted text' => Interrupted text'
                   end
              else read_mupdf text rest
          end
      end
  end.

(** The dict returned by the three parsers. *)
Record parsed : Type := mkParsed {
  text : string;
  parsed_sections : dict string;
  metadata : dict string;
  pages : option Z;
  length : Z;
  word_count : Z
}.

Definition parsed_of (text : string) (metadata : dict string)
    (pages : option Z) : parsed :=
  mkParsed text (extract_sections text) metadata pages
           (Z.of_nat (String.length text))
           (Z.of_nat (List.length (words text))).

(** [metadata['title'] = pdf.metadata.get('/Title', '')] and the like. *)
Definition info_fields (info : dict string) : dict string :=
  [ ("title", or_default (dict_get info "/Title") EmptyString);
    ("author", or_default (dict_get info "/Author") EmptyString);
    ("subject", or_default (dict_get info "/Subject") EmptyString) ].

(** The first [try] block of [parse_pdf], PyPDF2: the text, the metadata
    and the page count it leaves behind, whether or not it was left by an
    exception. *)
Definition pypdf_pass (libs : libraries) (content : string)
  : string * dict string * option Z :=
  match PdfReader libs content with
  | None => (EmptyString, [], None)
  | Some pdf =>
      let pages := Some (Z.of_nat (List.length (reader_pages pdf))) in
      match read_pages EmptyString (reader_pages pdf) with
      | Interrupted t => (t, [], pages)
      | Finished t =>
          (t,
           match reader_metadata pdf with
           | Some ((_ :: _) as info) => info_fields info
           | _ => []
           end,
           pages)
      end
  end.

(** The second [try] block, PyMuPDF with the OCR fallback, started from
    the text of the first. *)
Definition mupdf_pass (libs : libraries) (content text : string) : string :=
  match fitz_open libs content with
  | None => text
  | Some pdf_document => text_of (read_mupdf text pdf_document)
  end.

(** [parse_pdf]: both [try] blocks catch every exception, so the function
    always returns. *)
Definition parse_pdf (libs : libraries) (content : string) : parsed :=
  let '(text, metadata, pages) := pypdf_pass libs content in
  parsed_of (mupdf_pass libs content text) metadata pages.

(** [parse_docx] *)
Definition parse_docx (libs : libraries) (content : string) : outcome parsed :=
  match docx2txt_process libs content with
  | Some text => Return (parsed_of text [] None)
  | None => Raise (LibraryError "docx2txt")
  end.

(** [parse_text] *)
Definition parse_text (libs : libraries) (content : string) : outcome parsed :=
  Return (parsed_of (decode_utf8_ignore libs content) [] None).

(** [filename.split('.')[-1].lower()] *)
Definition file_extension (filename : string) : string :=
  lower (last (split_on (Ascii.eqb ".") filename) EmptyString).

(** [parse] *)
Definition parse (libs : libraries) (file_content filename : string)
  : outcome parsed :=
  let file_extension := file_extension filename in
  if String.eqb file_extension "pdf" then Return (parse_pdf libs file_content)
  else if existsb (String.eqb file_extension) ["doc"; "docx"]
  then parse_docx libs file_content
  else if existsb (String.eqb file_extension) ["txt"]
  then parse_text libs file_content
  else Raise (UnsupportedFormat file_extension).

End CVParser.

(** ** [app/api/v1/cv.py]: the upload route *)

Module CvApi.
Import Py.









End CvApi.

(** ** The vocabulary of the statements

    Predicates on strings and lists in which the properties are stated,
    and the definitions that follow the words of the specification
    ([claimed_confidence], [claimed_importance], [claimed_section],
    [ocr_images_skipping]), to be compared with the embedding of the code
    above. *)

Module Claimed.
Import Py SkillExtractor CVParser.

(** [sub] occurs in [s]. *)
Definition occurs (sub s : string) : Prop :=
  exists pre post, s = pre ++ sub ++ post.

(** The last character of a string. *)
Fixpoint last_char (s : string) : option ascii :=
  match s with
  | EmptyString => None
  | String c EmptyString => Some c
  | String _ s' => last_char s'
  end.

(** The character in front of the position behind [s], [prev] being the
    one in front of [s]. *)
Definition last_or (prev : option ascii) (s : string) : option ascii :=
  match last_char s with Some c => Some c | None => prev end.

(** [lit] occurs in [s] as a whole word: a word boundary on both sides of
    the occurrence. *)
Definition occurs_as_word (lit s : string) : Prop :=
  exists pre post,
    s = pre ++ lit ++ post
    /\ word_boundary (last_char pre) (head_char (lit ++ post)) = true
    /\ word_boundary (last_char (pre ++ lit)) (head_char post) = true.

(** Some character of [s] is in the class [p]. *)
Fixpoint any_char (p : ascii -> bool) (s : string) : bool :=
  match s with
  | EmptyString => false
  | String c s' => (p c || any_char p s')%bool
  end.

(** [g0] is a skills-labeled block with body [g1]: one of the four labels
    in any case, then colons and white space only, then the body. *)
Definition labelled_block (g0 g1 : string) : Prop :=
  exists label sep,
    g0 = label ++ sep ++ g1
    /\ In (lower label) section_labels
    /\ any_char (fun c => negb (is_label_sep c)) sep = false
    /\ g1 <> EmptyString.

(** An occurrence of [a] stands in front of an occurrence of [b] in [l]. *)
Definition precedes {A : Type} (l : list A) (a b : A) : Prop :=
  exists l1 l2 l3, l = (l1 ++ a :: l2 ++ b :: l3)%list.

(** The number of contributing source strategies, each counted once. *)
Definition distinct_sources (s : skill) : Z :=
  Z.of_nat (List.length (nodup string_dec (or_default (sources s) []))).

(** The confidence of section 4.4 with the source strategies counted as a
    set. *)
Definition claimed_confidence (s : skill) (text_lower : string) : Z :=
  let skill_lower := lower (name s) in
  Z.min
    (60
     + Z.min (5 * Z.of_nat (count skill_lower text_lower)) 20
     + 10 * distinct_sources s
     + (if has_proficiency skill_lower text_lower then 15 else 0)
     + (if search_after_skills skill_lower text_lower then 10 else 0))
    95.

(** The whole taxonomy: every table of the database. *)
Definition taxonomy (db : skill_db) : skill_table :=
  (technical_skills db ++ soft_skills db ++ certifications db)%list.

(** The importance of section 4.4 with the weight of any canonical entry
    of the taxonomy. *)
Definition claimed_importance (db : skill_db) (s : skill) : option num :=
  let importance := or_default (confidence s) (Int 50) in
  match (if is_technical s then mul_float importance technical_boost
         else Some importance) with
  | Some importance =>
      match dict_get (taxonomy db) (name s) with
      | Some info => add_int importance (or_default (db_importance info) 5 * 5)
      | None => Some importance
      end
  | None => None
  end.

(** What a line is to the segmenter. *)
Inductive line_kind : Type :=
  | Header (key : string)
  | Body
  | Blank.

Definition classify (line : string) : line_kind :=
  match find_header (lower (strip line)) with
  | Some header => Header (replace_char " " "_" header)
  | None => if is_empty (strip line) then Blank else Body
  end.

(** The text cut at its header lines: the key in force and the body lines
    gathered under it, one pair per header occurrence, led by the lines
    before the first header under [cur]. *)
Fixpoint segments (cur : string) (body : list string) (lines : list string)
  : list (string * list string) :=
  match lines with
  | [] => [(cur, body)]
  | line :: rest =>
      match classify line with
      | Header key => (cur, body) :: segments key [] rest
      | Body => segments cur (body ++ [line]) rest
      | Blank => segments cur body rest
      end
  end.

Definition segments_of (text : string) : list (string * list string) :=
  segments "header" [] (split_on (Ascii.eqb newline) text).

(** All body lines under the headers of one key, across its occurrences. *)
Definition all_bodies (key : string) (segs : list (string * list string))
  : list string :=
  flat_map (fun seg => if String.eqb key (fst seg) then snd seg else []) segs.

(** The mapping of section 4.2 read with repeated headers accumulating. *)
Definition claimed_section (text key : string) : option string :=
  match all_bodies key (segments_of text) with
  | [] => None
  | body => Some (join nl body)
  end.

(** [if section_content: sections[key] = '\n'.join(section_content)] for
    one segment. *)
Definition store (d : dict string) (seg : string * list string) : dict string :=
  match snd seg with
  | [] => d
  | body => dict_set (fst seg) (join nl body) d
  end.

(** The body of the last occurrence of [key] that has body lines. *)
Definition last_body (key : string) (segs : list (string * list string))
  : option (list string) :=
  option_map snd
    (find (fun seg => (String.eqb key (fst seg)
                       && negb (Nat.eqb (List.length (snd seg)) 0))%bool)
          (rev segs)).

(** The OCR loop of section 4.1: an image whose OCR fails is skipped and
    the loop goes on. *)
Fixpoint ocr_images_skipping (text : string) (images : list pdf_image)
  : string :=
  match images with
  | [] => text
  | img :: rest =>
      match colour_channels img, ocr_text img with
      | Some n, Some t =>
          if n <? 4 then ocr_images_skipping (text ++ t ++ nl) rest
          else ocr_images_skipping text rest
      | _, _ => ocr_images_skipping text rest
      end
  end.

(** The extensions of section 4.1. *)
Definition supported_extensions : list string := ["pdf"; "doc"; "docx"; "txt"].

(** An instance of the similarity parameter for closed examples: 100 on
    equal strings, as fuzzywuzzy answers them before any matching, and 0
    otherwise. *)
Definition equality_ratio (a b : string) : Z :=
  if String.eqb a b then 100 else 0.

(** No two distinct skills of [skills] have lowercased names more than
    85-similar. *)
Definition pairwise_dissimilar (ratio : string -> string -> Z)
    (skills : list skill) : Prop :=
  forall i j si sj,
    i <> j ->
    nth_error skills i = Some si -> nth_error skills j = Some sj ->
    ratio (lower (name si)) (lower (name sj)) <= 85.

End Claimed.

(** ** Invariants *)

Module Invariant.
Import Py SkillExtractor.

(** A dict value carries a non-empty list under ['sources']. *)
Definition has_sources (s : skill) : Prop :=
  exists l, sources s = Some l /\ l <> [].

(** The accumulator of the merge step: every key is the lowercased name
    of its entry, every entry has sources, and no key is more than
    85-similar to a key inserted before it. *)
Definition well_merged (ratio : string -> string -> Z) (combined : dict skill)
  : Prop :=
  ForallOrdPairs (fun older newer => ratio newer older <= 85)
                 (map fst combined)
  /\ Forall (fun kv => fst kv = lower (name (snd kv)) /\ has_sources (snd kv))
            combined.

End Invariant.

(** ** Sample inputs *)

Module Samples.
Import Py SkillExtractor CVParser CvApi Claimed.

(** The merged skill that the pattern generator and the merge step make of
    the text "Skills: Rust, Rust": the one token, found twice. *)
Definition rust_twice : skill :=
  mkSkill "Rust" None (Some "pattern_extracted") None
          (Some "Skills: Rust, Rust")
          (Some ["pattern_extracted"; "pattern_extracted"]) None None.

(** A scanned one-page document: no text layer, a first image on which
    OCR raises and a second on which it reads "Java". *)
Definition unreadable_image : pdf_image := mkImage (Some 3) None.
Definition java_image : pdf_image := mkImage (Some 3) (Some "Java").
Definition scanned_page : mupdf_page :=
  mkPage (Some EmptyString) (Some [unreadable_image; java_image]).

(** Libraries that answer every PDF with that document, PyPDF2 finding
    one page without text. *)
Definition scanned_libs : libraries :=
  mkLibs (fun _ => Some (mkPypdf [Some EmptyString] None))
         (fun _ => Some [scanned_page])
         (fun _ => None)
         (fun bytes => bytes).

(** A text in which the header "Skills" occurs twice. *)
Definition repeated_header_text : string :=
  join nl ["Skills"; "Python"; "Education"; "MIT"; "Skills"; "Java"].

(** The example text of section 8. *)
Definition example_text : string :=
  "Experienced Python developer, expert in React, AWS Certified.".

(** The two skills the pipeline returns for it. *)
Definition python_skill : skill :=
  mkSkill "Python" (Some "programming") (Some "technical") (Some "Python")
          None (Some ["technical"]) (Some (Int 90)) (Some (Float 158)).

Definition react_skill : skill :=
  mkSkill "React" (Some "web") (Some "technical") (Some "React")
          None (Some ["technical"]) (Some (Int 75)) (Some (Float 130)).

(** A soft skill as the rule-based generator, the merge step and the
    scorer leave it. *)
Definition leadership_skill : skill :=
  mkSkill "Leadership" (Some "soft") (Some "soft") (Some "Leadership")
          None (Some ["soft"]) (Some (Int 75)) None.

Definition communication_skill : skill :=
  mkSkill "Communication" (Some "soft") (Some "soft") (Some "Communication")
          None (Some ["soft"]) (Some (Int 75)) None.

Definition docker_skill : skill :=
  mkSkill "Docker" (Some "devops") (Some "technical") (Some "Docker")
          None (Some ["technical"]) (Some (Int 75)) None.

(** A scored list with a tie between its first two skills. *)
Definition ranking_sample : list skill :=
  [leadership_skill; communication_skill; docker_skill; python_skill].

End Samples.

(** ** Further vocabulary *)

Module Terms.
Import Py SkillExtractor CVParser.

(** Every character of [s] is in the class [p]. *)
Fixpoint all_chars (p : ascii -> bool) (s : string) : bool :=
  match s with
  | EmptyString => true
  | String c s' => (p c && all_chars p s')%bool
  end.

(** The characters of a preprocessed word: [a-z], [0-9], [+] and [#]. *)
Definition is_model_char (c : ascii) : bool :=
  (in_range 97 122 c || in_range 48 57 c
   || Ascii.eqb c "+" || Ascii.eqb c "#")%bool.

(** The number of entries in the ['sources'] lists of a list of skills. *)
Definition source_count (skills : list skill) : nat :=
  list_sum (map (fun s => List.length (or_default (sources s) [])) skills).

(** The weights of the technical table, taken times five as the ranking
    step does, are ints that Python converts to floats without an
    [OverflowError]. *)
Definition weights_fit_float (db : skill_db) : Prop :=
  Forall (fun entry =>
            float_of_int (or_default (db_importance (snd entry)) 5 * 5)
            <> None)
         (technical_skills db).

(** The candidates handed to the merge step, in the order it reads
    them. *)
Definition candidates (skill_lists : list (list skill)) : list skill :=
  List.concat skill_lists.

End Terms.

Module MoreSamples.
Import Py SkillExtractor CVParser.

(** A skill proposed by the classifier alone, for a text that does not
    mention it. *)
Definition kubernetes_skill : skill :=
  mkSkill "Kubernetes" None (Some "ml_predicted") None None
          (Some ["ml_predicted"]) (Some (Float 0.75)) None.

(** Python as the rule-based generator and the merge step leave it for
    the example text, before scoring. *)
Definition python_merged : skill :=
  mkSkill "Python" (Some "programming") (Some "technical") (Some "Python")
          None (Some ["technical"]) None None.

End MoreSamples.

Module ParserTerms.
Import Py CVParser Claimed.

(** A page with its images taken away; a failing [get_images] stays a
    failure. *)
Definition without_images (page : mupdf_page) : mupdf_page :=
  mkPage (page_text page) (option_map (fun _ => []) (image_list page)).

(** A page of text without images, as PyMuPDF presents it. *)
Definition text_page (t : string) : mupdf_page := mkPage (Some t) (Some []).

(** The page texts, each followed by a newline, one after the other. *)
Fixpoint page_block (ts : list string) : string :=
  match ts with
  | [] => EmptyString
  | t :: rest => t ++ nl ++ page_block rest
  end.

(** The keys a sections dict can have. *)
Definition section_keys : list string :=
  "header" :: map (replace_char " " "_") section_headers.

(** The text of a PDF that neither library can open. *)
Definition empty_document : parsed := mkParsed EmptyString [] [] None 0 0.

(** Libraries for a two-page PDF that both PyPDF2 and PyMuPDF read, the
    first page carrying an image. *)
Definition illustrated_libs : libraries :=
  mkLibs (fun _ => Some (mkPypdf [Some "Jane Doe"; Some "Skills: Go"] None))
         (fun _ => Some [mkPage (Some "Jane  Doe")
                                (Some [Samples.java_image]);
                         text_page "Skills: Go"])
         (fun _ => None)
         (fun bytes => bytes).

(** Libraries on which every call raises. *)
Definition failing_libs : libraries :=
  mkLibs (fun _ => None) (fun _ => None) (fun _ => None) (fun bytes => bytes).

End ParserTerms.

(** ** [app/services/nlp_service.py] *)

Module NLPService.
Import Py.

(** The float literals [0.5] and [0.1] of [determine_tone]; [0.1] is the
    binary64 value nearest to 1/10, and [-0.5], [-0.1] are their
    negations. *)
Definition half : float := 0x1p-1%float.
Definition tenth : float := 0x1.999999999999ap-4%float.

(** [determine_tone] *)
Definition determine_tone (polarity : float) : string :=
  if PrimFloat.ltb half polarity then "very_positive"
  else if PrimFloat.ltb tenth polarity then "positive"
  else if PrimFloat.ltb polarity (PrimFloat.opp half) then "very_negative"
  else if PrimFloat.ltb polarity (PrimFloat.opp tenth) then "negative"
  else "neutral".

(** The dict returned by [analyze_sentiment]. *)
Record sentiment : Type := mkSentiment {
  polarity : float;
  subjectivity : float;
  tone : string
}.

(** [analyze_sentiment]; [blob] stands for [TextBlob(text).sentiment], a
    pair of polarity and subjectivity. *)
Definition analyze_sentiment (blob : string -> float * float) (text : string)
  : sentiment :=
  let '(p, s) := blob text in
  mkSentiment p s (determine_tone p).

(** [generate_summary]; [summarizer] stands for the BART pipeline followed
    by [summary[0]['summary_text']], [None] when either raises. *)
Definition generate_summary (summarizer : string -> option string)
    (text : string) : string :=
  let max_length := 1024%nat in
  let text :=
    if Nat.ltb max_length (String.length text) then take max_length text
    else text in
  match summarizer text with
  | Some summary => summary
  | None =>
      let sentences := firstn 3 (split_on (Ascii.eqb ".") text) in
      join ". " sentences
  end.

(** One entity of the NER pipeline. *)
Record entity : Type := mkEntity {
  entity_group : string;
  word : string
}.

(** One iteration of the grouping loop of [extract_entities]. *)
Definition group_entity (grouped : dict (list string)) (e : entity)
  : dict (list string) :=
  let entity_type := entity_group e in
  let grouped :=
    match dict_get grouped entity_type with
    | None => dict_set entity_type [] grouped
    | Some _ => grouped
    end in
  dict_set entity_type
           (or_default (dict_get grouped entity_type) [] ++ [word e])%list
           grouped.

(** [extract_entities]; [ner_pipeline] is the BERT NER pipeline. *)
Definition extract_entities (ner_pipeline : string -> list entity)
    (text : string) : dict (list string) :=
  fold_left group_entity (ner_pipeline text) [].

End NLPService.

(** ** The regular expressions of [nlp_service.py]

    The patterns are embedded as syntax trees and run by a backtracking
    matcher that tries alternatives from the left and repetitions greedily,
    as [re] does.  They repeat character classes only, and none of them
    matches the empty text. *)

Module Re.
Import Py SkillExtractor Claimed Terms.

Inductive regex : Type :=
  | Class (p : ascii -> bool)
  | Empty
  | Cat (r1 r2 : regex)
  | Or (r1 r2 : regex)
  | Repeat (p : ascii -> bool) (lo : nat) (hi : option nat)
  | WordBoundary.

(** [hi] still allows one more repetition after [count]. *)
Definition may_repeat (hi : option nat) (count : nat) : bool :=
  match hi with
  | Some h => Nat.ltb count h
  | None => true
  end.

Section Matcher.
Context {A : Type}.

(** The continuation receives the character in front of the position
    reached and the rest of the subject. *)
Definition cont : Type := option ascii -> string -> option A.

(** A greedy repetition of the class [p], [count] characters being taken:
    one more character while the bound and the subject allow it, else, or
    when what follows fails behind it, the rest of the pattern from here,
    provided [lo] characters are taken. *)
Fixpoint repeat_class (p : ascii -> bool) (lo : nat) (hi : option nat)
    (k : cont) (count : nat) (prev : option ascii) (s : string) : option A :=
  let stop := if Nat.leb lo count then k prev s else None in
  match s with
  | String c s' =>
      if (may_repeat hi count && p c)%bool
      then match repeat_class p lo hi k (S count) (Some c) s' with
           | Some a => Some a
           | None => stop
           end
      else stop
  | EmptyString => stop
  end.

(** [run r prev s k]: match [r] at the head of [s], the character before
    being [prev], and go on with [k]; [None] when every way fails. *)
Fixpoint run (r : regex) (prev : option ascii) (s : string) (k : cont)
  : option A :=
  match r with
  | Class p =>
      match s with
      | String c s' => if p c then k (Some c) s' else None
      | EmptyString => None
      end
  | Empty => k prev s
  | Cat r1 r2 => run r1 prev s (fun prev' s' => run r2 prev' s' k)
  | Or r1 r2 =>
      match run r1 prev s k with
      | Some a => Some a
      | None => run r2 prev s k
      end
  | Repeat p lo hi => repeat_class p lo hi k 0 prev s
  | WordBoundary =>
      if word_boundary prev (head_char s) then k prev s else None
  end.

End Matcher.

(** The text matched at the head of [s], if any. *)
Definition match_at (r : regex) (prev : option ascii) (s : string)
  : option string :=
  option_map (fun rest => take (String.length s - String.length rest) s)
             (run r prev s (fun _ rest => Some rest)).

(** [re.finditer(r, s)] as pairs of [match.start()] and [match.group()]:
    the matches from left to right, each search starting where the last
    match ended; [pos] is the offset of [s] in the subject and [skip] the
    number of characters of the last match still to be passed. *)
Fixpoint finditer_from (r : regex) (pos skip : nat) (prev : option ascii)
    (s : string) : list (nat * string) :=
  let next skip' :=
    match s with
    | String c s' => finditer_from r (S pos) skip' (Some c) s'
    | EmptyString => []
    end in
  match skip with
  | S k => next k
  | O =>
      match match_at r prev s with
      | Some w => (pos, w) :: next (String.length w - 1)%nat
      | None => next 0%nat
      end
  end.

Definition finditer (r : regex) (s : string) : list (nat * string) :=
  finditer_from r 0 0 None s.

(** [re.findall(r, s)] for a pattern without groups. *)
Definition findall (r : regex) (s : string) : list string :=
  map snd (finditer r s).

(** Pattern syntax. *)
Definition chr (c : ascii) : regex := Class (Ascii.eqb c).

Fixpoint lit (s : string) : regex :=
  match s with
  | EmptyString => Empty
  | String c EmptyString => chr c
  | String c s' => Cat (chr c) (lit s')
  end.

Fixpoint seq (rs : list regex) : regex :=
  match rs with
  | [] => Empty
  | [r] => r
  | r :: rs' => Cat r (seq rs')
  end.

Fixpoint alt (rs : list regex) : regex :=
  match rs with
  | [] => Class (fun _ => false)
  | [r] => r
  | r :: rs' => Or r (alt rs')
  end.

Definition plus (p : ascii -> bool) : regex := Repeat p 1 None.
Definition star (p : ascii -> bool) : regex := Repeat p 0 None.
Definition opt (p : ascii -> bool) : regex := Repeat p 0 (Some 1%nat).
Definition between (lo hi : nat) (p : ascii -> bool) : regex :=
  Repeat p lo (Some hi).
Definition at_least (lo : nat) (p : ascii -> bool) : regex :=
  Repeat p lo None.

(** Character classes: [\d] (in Latin-1 the ASCII digits), [a-z], [A-Z]
    and membership in a string of characters. *)
Definition is_digit (c : ascii) : bool := in_range 48 57 c.
Definition is_lower (c : ascii) : bool := in_range 97 122 c.
Definition is_upper (c : ascii) : bool := in_range 65 90 c.
Definition one_of (chars : string) (c : ascii) : bool :=
  any_char (Ascii.eqb c) chars.

(** What it means for [r] to match the text [w] with [prev] in front and
    [rest] behind. *)
Fixpoint matches (r : regex) (prev : option ascii) (w rest : string) : Prop :=
  match r with
  | Class p => exists c, w = String c EmptyString /\ p c = true
  | Empty => w = EmptyString
  | Cat r1 r2 =>
      exists w1 w2,
        w = w1 ++ w2 /\ matches r1 prev w1 (w2 ++ rest)
        /\ matches r2 (last_or prev w1) w2 rest
  | Or r1 r2 => matches r1 prev w rest \/ matches r2 prev w rest
  | Repeat p lo hi =>
      all_chars p w = true /\ (lo <= String.length w)%nat
      /\ match hi with
         | Some h => (String.length w <= h)%nat
         | None => True
         end
  | WordBoundary =>
      w = EmptyString /\ word_boundary prev (head_char rest) = true
  end.

End Re.

(** ** [app/services/nlp_service.py]: contact details and dates *)

Module NLPRegex.
Import Py SkillExtractor Terms Re.

Definition is_alnum (c : ascii) : bool :=
  (is_upper c || is_lower c || is_digit c)%bool.

(** The classes [[A-Za-z0-9._%+-]], [[A-Za-z0-9.-]] and [[A-Z|a-z]] of the
    e-mail pattern; the bar inside the brackets is a member of the class. *)
Definition email_local (c : ascii) : bool :=
  (is_alnum c || one_of "._%+-" c)%bool.

Definition email_domain (c : ascii) : bool :=
  (is_alnum c || one_of ".-" c)%bool.

Definition email_suffix (c : ascii) : bool :=
  (is_upper c || Ascii.eqb c "|" || is_lower c)%bool.

(** [\b[A-Za-z0-9._%+-]+@[A-Za-z0-9.-]+\.[A-Z|a-z]{2,}\b] *)
Definition email_pattern : regex :=
  seq [ WordBoundary; plus email_local; chr "@";
        plus email_domain; chr "."; at_least 2 email_suffix;
        WordBoundary ].

(** The class [[-\s\.]] of the phone pattern. *)
Definition phone_separator (c : ascii) : bool :=
  (Ascii.eqb c "-" || is_space c || Ascii.eqb c ".")%bool.

(** [[\+]?[(]?[0-9]{1,3}[)]?[-\s\.]?[(]?[0-9]{1,4}[)]?[-\s\.]?[0-9]{1,4}[-\s\.]?[0-9]{1,9}] *)
Definition phone_pattern : regex :=
  seq [ opt (Ascii.eqb "+"); opt (Ascii.eqb "("); between 1 3 is_digit;
        opt (Ascii.eqb ")"); opt phone_separator; opt (Ascii.eqb "(");
        between 1 4 is_digit; opt (Ascii.eqb ")");
        opt phone_separator; between 1 4 is_digit;
        opt phone_separator; between 1 9 is_digit ].

(** The class [[\w-]]. *)
Definition handle_char (c : ascii) : bool :=
  (is_word c || Ascii.eqb c "-")%bool.

(** [linkedin\.com/in/[\w-]+] *)
Definition linkedin_pattern : regex :=
  Cat (lit "linkedin.com/in/") (plus handle_char).

(** [github\.com/[\w-]+] *)
Definition github_pattern : regex :=
  Cat (lit "github.com/") (plus handle_char).

(** [if found: contact[key] = f(found[0])] *)
Definition set_first (key : string) (f : string -> string)
    (found : list string) (contact : dict string) : dict string :=
  match found with
  | first :: _ => dict_set key (f first) contact
  | [] => contact
  end.

Definition https (s : string) : string := "https://" ++ s.

(** [extract_contact_info] *)
Definition extract_contact_info (text : string) : dict string :=
  let contact := [] in
  let contact :=
    set_first "email" (fun s => s) (findall email_pattern text) contact in
  let contact :=
    set_first "phone" (fun s => s) (findall phone_pattern text) contact in
  let contact :=
    set_first "linkedin" https (findall linkedin_pattern text) contact in
  let contact :=
    set_first "github" https (findall github_pattern text) contact in
  contact.

Definition months : list string :=
  [ "Jan"; "Feb"; "Mar"; "Apr"; "May"; "Jun";
    "Jul"; "Aug"; "Sep"; "Oct"; "Nov"; "Dec" ].

(** [\b(19|20)\d{2}\b] *)
Definition year_pattern : regex :=
  seq [ WordBoundary; Or (lit "19") (lit "20"); between 2 2 is_digit;
        WordBoundary ].

(** [\b(Jan|Feb|Mar|Apr|May|Jun|Jul|Aug|Sep|Oct|Nov|Dec)[a-z]* \d{4}\b] *)
Definition month_year_pattern : regex :=
  seq [ WordBoundary; alt (map lit months); star is_lower; chr " ";
        between 4 4 is_digit; WordBoundary ].

(** [\b\d{1,2}/\d{1,2}/\d{2,4}\b] *)
Definition numeric_date_pattern : regex :=
  seq [ WordBoundary; between 1 2 is_digit; chr "/";
        between 1 2 is_digit; chr "/"; between 2 4 is_digit;
        WordBoundary ].

Definition date_patterns : list regex :=
  [ year_pattern; month_year_pattern; numeric_date_pattern ].

(** A bound of a slice brought into [0 .. len]: a negative one counts from
    the end. *)
Definition slice_bound (len i : Z) : Z :=
  if i <? 0 then Z.max 0 (i + len) else Z.min i len.

(** [s[a:b]] *)
Definition slice (a b : Z) (s : string) : string :=
  let len := Z.of_nat (String.length s) in
  let a := slice_bound len a in
  let b := slice_bound len b in
  take (Z.to_nat (b - a)) (drop (Z.to_nat a) s).

(** One entry of the timeline. *)
Record event : Type := mkEvent {
  date : string;
  position : Z;
  context : string
}.

(** The entry appended for one match, given [match.start()] and
    [match.group()]. *)
Definition event_of (text : string) (m : nat * string) : event :=
  let start := Z.of_nat (fst m) in
  let stop := start + Z.of_nat (String.length (snd m)) in
  mkEvent (snd m) start
          (slice (Z.max 0 (start - 50))
                 (Z.min (Z.of_nat (String.length text)) (stop + 50)) text).

(** [list.sort(key=...)]: a stable sort into ascending key order. *)
Section SortAscending.
Context {A : Type} (key : A -> Z).

Fixpoint insert_asc (x : A) (l : list A) : list A :=
  match l with
  | [] => [x]
  | y :: l' => if key y <? key x then y :: insert_asc x l' else x :: l
  end.

Fixpoint sort_asc (l : list A) : list A :=
  match l with
  | [] => []
  | x :: l' => insert_asc x (sort_asc l')
  end.
End SortAscending.

(** [extract_timeline], on [doc.text]. *)
Definition extract_timeline (text : string) : list event :=
  let timeline :=
    flat_map (fun pattern => map (event_of text) (finditer pattern text))
             date_patterns in
  sort_asc position timeline.

End NLPRegex.

(** ** Terms for the properties of the contact and timeline extraction *)

Module NLPTerms.
Import Py SkillExtractor Claimed Terms Re NLPRegex.

(** The number of characters of [s] in the class [p]. *)
Fixpoint count_if (p : ascii -> bool) (s : string) : nat :=
  match s with
  | EmptyString => 0%nat
  | String c s' => ((if p c then 1 else 0) + count_if p s')%nat
  end.

(** [w] stands at offset [p] of [text]. *)
Definition stands_at (p : nat) (w text : string) : Prop :=
  exists pre post, text = pre ++ w ++ post /\ String.length pre = p.

(** [w] stands at offset [p] of [text] between two word boundaries. *)
Definition word_at (p : nat) (w text : string) : Prop :=
  exists pre post,
    text = pre ++ w ++ post /\ String.length pre = p
    /\ word_boundary (last_char pre) (head_char (w ++ post)) = true
    /\ word_boundary (last_char (pre ++ w)) (head_char post) = true.

(** A run of [lo] to [hi] digits. *)
Definition digits (lo hi : nat) (s : string) : Prop :=
  all_chars is_digit s = true /\ (lo <= String.length s <= hi)%nat.

(** The shape of an e-mail match: local part, at sign, domain, dot and a
    suffix of two or more letters or bars. *)
Definition email_shaped (e : string) : Prop :=
  exists local domain suffix,
    e = local ++ "@" ++ domain ++ "." ++ suffix
    /\ local <> EmptyString /\ all_chars email_local local = true
    /\ domain <> EmptyString /\ all_chars email_domain domain = true
    /\ (2 <= String.length suffix)%nat
    /\ all_chars email_suffix suffix = true.

(** The characters a phone match is made of. *)
Definition phone_char (c : ascii) : bool :=
  (is_digit c || one_of "+()" c || phone_separator c)%bool.

(** The shapes of the three kinds of date. *)
Definition year_shaped (d : string) : Prop :=
  exists century rest,
    d = century ++ rest /\ (century = "19" \/ century = "20")
    /\ digits 2 2 rest.

Definition month_year_shaped (d : string) : Prop :=
  exists month tail year,
    d = month ++ tail ++ " " ++ year /\ In month months
    /\ all_chars is_lower tail = true /\ digits 4 4 year.

Definition numeric_date_shaped (d : string) : Prop :=
  exists a b c,
    d = a ++ "/" ++ b ++ "/" ++ c
    /\ digits 1 2 a /\ digits 1 2 b /\ digits 2 4 c.

(** [url] is the link to the first profile address of [text] on [site]:
    the first place where [site] is followed by a character of a handle,
    with the longest run of such characters behind it. *)
Definition profile_link (site url text : string) : Prop :=
  exists pre handle post,
    text = pre ++ site ++ handle ++ post
    /\ url = "https://" ++ site ++ handle
    /\ handle <> EmptyString /\ all_chars handle_char handle = true
    /\ match post with
       | String c _ => handle_char c = false
       | EmptyString => True
       end
    /\ forall pre' c post',
         handle_char c = true ->
         text = pre' ++ site ++ String c post' ->
         (String.length pre <= String.length pre')%nat.

(** [r] followed by a word boundary, and [r] between two of them; the
    patterns that start and end with [\b] have this form. *)
Fixpoint then_boundary (r : regex) : regex :=
  match r with
  | Cat r1 r2 => Cat r1 (then_boundary r2)
  | _ => Cat r WordBoundary
  end.

Definition whole_word (r : regex) : regex :=
  Cat WordBoundary (then_boundary r).

(** What one piece of a phone match contributes: characters of a phone,
    [lo] to [hi] of them digits. *)
Definition phone_piece (lo hi : nat) (w : string) : Prop :=
  all_chars phone_char w = true
  /\ (lo <= count_if is_digit w <= hi)%nat.

End NLPTerms.

(** * Properties *)

Import Py SkillExtractor CVParser CvApi Claimed Invariant Samples.

(** ** Strings *)

Lemma startswith_occurs p s :
  startswith p s = true <-> exists post, s = p ++ post.
Proof.
  revert s; induction p as [|a p IH]; intros s; simpl.
  - split; [intros _; now exists s | reflexivity].
  - destruct s as [|c s]; simpl.
    + split; [discriminate | intros [post H]; discriminate].
    + rewrite andb_true_iff, Ascii.eqb_eq, IH. split.
      * intros [-> [post ->]]. now exists post.
      * intros [post H]. injection H as -> ->. split; [reflexivity | now exists post].
Qed.

Lemma contains_occurs sub s : contains sub s = true <-> occurs sub s.
Proof.
  unfold occurs. induction s as [|c s IH].
  - simpl. rewrite orb_false_r, startswith_occurs. split.
    + intros [post H]. now exists EmptyString, post.
    + intros [[|a pre] [post H]]; [now exists post | discriminate].
  - cbn [contains]. rewrite orb_true_iff, startswith_occurs, IH. split.
    + intros [[post H] | [pre [post H]]].
      * now exists EmptyString, post.
      * exists (String c pre), post. simpl. now rewrite H.
    + intros [[|a pre] [post H]].
      * left. now exists post.
      * right. simpl in H. injection H as _ ->. now exists pre, post.
Qed.

Lemma append_assoc (a b c : string) : (a ++ b) ++ c = a ++ b ++ c.
Proof. induction a as [|x a IH]; simpl; [reflexivity | now rewrite IH]. Qed.

Lemma search_after_skills_occurs lit s :
  search_after_skills lit s = true
  <-> exists pre mid post, s = pre ++ "skills" ++ mid ++ lit ++ post.
Proof.
  induction s as [|c s IH].
  - simpl. split; [discriminate|].
    intros [[|? ?] (mid & post & H)]; discriminate.
  - cbn [search_after_skills].
    rewrite orb_true_iff, andb_true_iff, startswith_occurs, contains_occurs, IH.
    split.
    + intros [[[rest H] [mid [post H']]] | (pre & mid & post & H)].
      * exists EmptyString, mid, post. rewrite H in H' |- *.
        simpl in H'. simpl. now rewrite H'.
      * exists (String c pre), mid, post. simpl. now rewrite H.
    + intros [[|a pre] (mid & post & H)].
      * left. rewrite H. split.
        -- now exists (mid ++ lit ++ post).
        -- now exists mid, post.
      * right. simpl in H. injection H as _ ->. now exists pre, mid, post.
Qed.

(** ** The confidence scorer *)

Lemma has_proficiency_occurs n t :
  has_proficiency n t = true
  <-> exists term, In term proficiency_terms
                   /\ (occurs (term ++ " " ++ n) t \/ occurs (n ++ " " ++ term) t).
Proof.
  unfold has_proficiency. rewrite existsb_exists.
  split; intros [term [Hin H]]; exists term; split; trivial.
  - apply orb_true_iff in H. now rewrite <- !contains_occurs.
  - apply orb_true_iff. now rewrite !contains_occurs.
Qed.

Lemma confidence_of_bounds s t : 60 <= confidence_of s t <= 95.
Proof.
  unfold confidence_of.
  destruct (sources s), (has_proficiency _ _), (search_after_skills _ _); lia.
Qed.

Lemma rust_twice_merged ratio :
  85 < ratio "rust" "rust" ->
  combine_skills ratio
    [ extract_rule_based load_skill_database "Skills: Rust, Rust"; [];
      extract_pattern_based "Skills: Rust, Rust" ] = [rust_twice].
Proof.
  intros H. apply Z.ltb_lt in H.
  cbv -[Z.ltb]. cbv -[Z.ltb] in H. rewrite H. reflexivity.
Qed.

(** C2, as stated, fails: a strategy that contributed twice is counted
    twice by the scorer, once by the stated formula. *)
Lemma confidence_counts_repeated_sources :
  combine_skills equality_ratio
    [ extract_rule_based load_skill_database "Skills: Rust, Rust"; [];
      extract_pattern_based "Skills: Rust, Rust" ] = [rust_twice]
  /\ confidence_of rust_twice (lower "Skills: Rust, Rust") = 95
  /\ claimed_confidence rust_twice (lower "Skills: Rust, Rust") = 90.
Proof. repeat split; vm_compute; reflexivity. Qed.

(** C2, amended: the scorer's confidence is the sum, capped at 95, of the
    base 60, five points per occurrence of the lowercased name in the
    lowercased text up to 20, ten points per entry of the sources list
    (one entry per contributing candidate, a strategy that contributed
    twice counting twice), 15 if a proficiency term stands next to the
    name, separated by one space, in either order, and 10 if the name
    occurs somewhere behind the word "skills"; every scored skill has an
    integer confidence in [0, 95]. *)
Theorem confidence_formula (s : skill) (text : string) :
  let t := lower text in
  let n := lower (name s) in
  (exists prof sect : Z,
     confidence_of s t
     = Z.min (60 + Z.min (5 * Z.of_nat (count n t)) 20
              + 10 * Z.of_nat (List.length (or_default (sources s) []))
              + prof + sect) 95
     /\ (prof = 15
         /\ (exists term, In term proficiency_terms
                          /\ (occurs (term ++ " " ++ n) t
                              \/ occurs (n ++ " " ++ term) t))
         \/ prof = 0
         /\ ~ (exists term, In term proficiency_terms
                            /\ (occurs (term ++ " " ++ n) t
                                \/ occurs (n ++ " " ++ term) t)))
     /\ (sect = 10
         /\ (exists pre mid post, t = pre ++ "skills" ++ mid ++ n ++ post)
         \/ sect = 0
         /\ ~ (exists pre mid post, t = pre ++ "skills" ++ mid ++ n ++ post)))
  /\ (forall skills,
        Forall (fun s' => exists c, confidence s' = Some (Int c) /\ 0 <= c <= 95)
               (calculate_confidence skills text)).
Proof.
  intros t n. split.
  - exists (if has_proficiency n t then 15 else 0),
           (if search_after_skills n t then 10 else 0).
    split; [|split].
    + unfold confidence_of. fold n.
      destruct (sources s) as [l|]; cbn [or_default List.length];
        destruct (has_proficiency n t), (search_after_skills n t); f_equal; lia.
    + destruct (has_proficiency n t) eqn:E.
      * left. split; trivial. now apply has_proficiency_occurs.
      * right. split; trivial. rewrite <- has_proficiency_occurs. congruence.
    + destruct (search_after_skills n t) eqn:E.
      * left. split; trivial. now apply search_after_skills_occurs.
      * right. split; trivial. rewrite <- search_after_skills_occurs. congruence.
  - intros skills. unfold calculate_confidence. apply Forall_forall.
    intros s' Hin. apply in_map_iff in Hin as [s0 [<- _]].
    exists (confidence_of s0 (lower text)). split; [reflexivity|].
    pose proof (confidence_of_bounds s0 (lower text)). lia.
Qed.

(** ** The merge step *)

Section MergeFacts.
Variable ratio : string -> string -> Z.

Lemma merge_into_None key src combined :
  merge_into ratio key src combined = None
  <-> Forall (fun kv => ratio key (fst kv) <= 85) combined.
Proof.
  induction combined as [|[k v] rest IH]; simpl.
  - split; [constructor | reflexivity].
  - destruct (85 <? ratio key k) eqn:E.
    + split; [discriminate|]. intros H. inversion H; subst. simpl in *.
      apply Z.ltb_lt in E. lia.
    + apply Z.ltb_ge in E.
      destruct (merge_into ratio key src rest); simpl.
      * split; [discriminate|]. intros H. inversion H; subst.
        now apply IH in H3.
      * split; [|reflexivity]. intros _. constructor; [exact E|].
        now apply IH.
Qed.

Lemma merge_into_Some key src combined combined' :
  merge_into ratio key src combined = Some combined' ->
  exists pre k v post,
    combined = (pre ++ (k, v) :: post)%list
    /\ Forall (fun kv => ratio key (fst kv) <= 85) pre
    /\ 85 < ratio key k
    /\ combined' = (pre ++ (k, add_source v src) :: post)%list.
Proof.
  revert combined'. induction combined as [|[k v] rest IH]; simpl; intros c' H.
  - discriminate.
  - destruct (85 <? ratio key k) eqn:E.
    + injection H as <-. exists [], k, v, rest. apply Z.ltb_lt in E.
      repeat split; trivial.
    + destruct (merge_into ratio key src rest) as [r'|]; [|discriminate].
      injection H as <-.
      destruct (IH r' eq_refl) as (pre & k1 & v1 & post & -> & Hpre & Hk & ->).
      exists ((k, v) :: pre), k1, v1, post. apply Z.ltb_ge in E.
      repeat split; trivial. now constructor.
Qed.

Lemma dict_set_keys {V : Type} k (v : V) d :
  map fst (dict_set k v d) = map fst d
  \/ map fst (dict_set k v d) = (map fst d ++ [k])%list.
Proof.
  induction d as [|[k' v'] d IH]; simpl.
  - now right.
  - destruct (String.eqb k k'); simpl; [now left|].
    destruct IH as [-> | ->]; [now left | now right].
Qed.

Lemma dict_set_values {V : Type} (P : string * V -> Prop) k (v : V) d :
  P (k, v) -> (forall k', String.eqb k k' = true -> P (k', v)) ->
  Forall P d -> Forall P (dict_set k v d).
Proof.
  intros Hk Hk' H. induction H as [|[k' v'] d Hx Hd IH]; simpl.
  - now constructor.
  - destruct (String.eqb k k') eqn:E; constructor; auto.
Qed.

Lemma ForallOrdPairs_snoc {A : Type} (R : A -> A -> Prop) l x :
  ForallOrdPairs R l -> Forall (fun a => R a x) l ->
  ForallOrdPairs R (l ++ [x])%list.
Proof.
  induction 1 as [|a l Ha Hl IH]; simpl; intros Hx.
  - repeat constructor.
  - inversion Hx; subst. constructor; [|now apply IH].
    apply Forall_app. split; [exact Ha | now constructor].
Qed.

Lemma ForallOrdPairs_nth {A : Type} (R : A -> A -> Prop) l :
  ForallOrdPairs R l ->
  forall i j x y, (i < j)%nat ->
    nth_error l i = Some x -> nth_error l j = Some y -> R x y.
Proof.
  induction 1 as [|a l Ha Hl IH]; intros i j x y Hij Hi Hj.
  - destruct i; discriminate.
  - destruct j as [|j]; [lia|]. simpl in Hj. destruct i as [|i]; simpl in Hi.
    + injection Hi as <-. rewrite Forall_forall in Ha.
      apply Ha. eapply nth_error_In; eassumption.
    + apply (IH i j); trivial. lia.
Qed.

Lemma has_sources_add v src : has_sources v -> has_sources (add_source v src).
Proof.
  intros _. unfold has_sources, add_source. simpl.
  eexists. split; [reflexivity|]. now destruct (or_default (sources v) []).
Qed.

Lemma well_merged_step combined s :
  well_merged ratio combined -> well_merged ratio (combine_step ratio combined s).
Proof.
  intros [Hord Hval]. unfold combine_step.
  destruct (merge_into ratio (lower (name s)) (source_of s) combined)
    as [c'|] eqn:E.
  - apply merge_into_Some in E
      as (pre & k & v & post & -> & _ & _ & ->).
    split.
    + rewrite map_app in *. exact Hord.
    + apply Forall_app in Hval as [Hpre Hpost].
      inversion Hpost as [|? ? [Hk Hs] Hpost']; subst.
      apply Forall_app. split; [exact Hpre|]. constructor; [|exact Hpost'].
      split; [exact Hk | now apply has_sources_add].
  - apply merge_into_None in E. split.
    + destruct (dict_set_keys (lower (name s))
                  (set_sources s [source_of s]) combined) as [-> | ->].
      * exact Hord.
      * apply ForallOrdPairs_snoc; [exact Hord|].
        apply Forall_map. exact E.
    + apply dict_set_values; trivial.
      * split; [reflexivity|]. eexists. split; [reflexivity | discriminate].
      * intros k' Hk. apply String.eqb_eq in Hk as <-.
        split; [reflexivity|]. eexists. split; [reflexivity | discriminate].
Qed.

Lemma well_merged_fold cands combined :
  well_merged ratio combined ->
  well_merged ratio (fold_left (combine_step ratio) cands combined).
Proof.
  revert combined. induction cands as [|s cands IH]; simpl; intros c H.
  - exact H.
  - apply IH. now apply well_merged_step.
Qed.

Lemma well_merged_combine skill_lists :
  well_merged ratio
    (fold_left (combine_step ratio) (List.concat skill_lists) []).
Proof.
  apply well_merged_fold. split; constructor.
Qed.
End MergeFacts.

(** C3, as stated, fails: with the similarity of fuzzywuzzy over difflib,
    "advanced sass" asked against "advanced aws" is 80-similar, so the
    merge step accepts both candidates of the text
    "Skills: Advanced AWS, Advanced Sass" and the pipeline returns both,
    yet "advanced aws" against "advanced sass" is 88-similar: two distinct
    accepted skills with names more than 85-similar. *)
Lemma asymmetric_ratio_keeps_both :
  Fuzz.ratio "advanced sass" "advanced aws" = 80
  /\ Fuzz.ratio "advanced aws" "advanced sass" = 88
  /\ map name
       (combine_skills Fuzz.ratio
          [extract_pattern_based "Skills: Advanced AWS, Advanced Sass"])
     = ["Advanced AWS"; "Advanced Sass"]
  /\ option_map (map name)
       (extract Fuzz.ratio load_skill_database None
                "Skills: Advanced AWS, Advanced Sass")
     = Some ["Advanced AWS"; "Advanced Sass"]
  /\ ~ pairwise_dissimilar Fuzz.ratio
         (combine_skills Fuzz.ratio
            [extract_pattern_based "Skills: Advanced AWS, Advanced Sass"]).
Proof.
  split; [vm_compute; reflexivity|]. split; [vm_compute; reflexivity|].
  split; [vm_compute; reflexivity|]. split; [vm_compute; reflexivity|].
  intros H.
  specialize (H 0%nat 1%nat
                (mkSkill "Advanced AWS" None (Some "pattern_extracted") None
                         (Some "Skills: Advanced AWS, Advanced Sass")
                         (Some ["pattern_extracted"]) None None)
                (mkSkill "Advanced Sass" None (Some "pattern_extracted") None
                         (Some "Skills: Advanced AWS, Advanced Sass")
                         (Some ["pattern_extracted"]) None None)).
  assert (E : Fuzz.ratio "advanced aws" "advanced sass" = 88)
    by (vm_compute; reflexivity).
  assert (H' : Fuzz.ratio "advanced aws" "advanced sass" <= 85).
  { apply H; [discriminate | vm_compute; reflexivity | vm_compute; reflexivity]. }
  rewrite E in H'. lia.
Qed.

(** C3, amended: for any similarity measure, no skill of the merge output
    has a lowercased name more than 85-similar to the lowercased name of a
    skill that stands in front of it, the measure being asked as the code
    asks it, the later name first; and a candidate more than 85-similar,
    in that order, to the key of an entry already accepted is merged into
    the first such entry, which keeps its position, its name and every
    other field and gains the candidate's type, or "unknown" when the
    candidate has none, at the end of its sources list, no entry being
    added. *)
Theorem combine_skills_dedup (ratio : string -> string -> Z)
    (skill_lists : list (list skill)) :
  (forall i j si sj,
      (i < j)%nat ->
      nth_error (combine_skills ratio skill_lists) i = Some si ->
      nth_error (combine_skills ratio skill_lists) j = Some sj ->
      ratio (lower (name sj)) (lower (name si)) <= 85)
  /\ (forall combined s k v,
        In (k, v) combined -> 85 < ratio (lower (name s)) k ->
        exists pre k1 v1 post,
          combined = (pre ++ (k1, v1) :: post)%list
          /\ Forall (fun kv => ratio (lower (name s)) (fst kv) <= 85) pre
          /\ 85 < ratio (lower (name s)) k1
          /\ combine_step ratio combined s
             = (pre
                ++ (k1,
                    mkSkill (name v1) (category v1) (type v1)
                            (matched_text v1) (context v1)
                            (Some (or_default (sources v1) []
                                   ++ [or_default (type s) "unknown"]))
                            (confidence v1) (importance_score v1))
                   :: post)%list).
Proof.
  split.
  - destruct (well_merged_combine ratio skill_lists) as [Hord Hval].
    unfold combine_skills.
    set (acc := fold_left (combine_step ratio) (List.concat skill_lists) []) in *.
    assert (Hkey : forall i s, nth_error (map snd acc) i = Some s ->
                   nth_error (map fst acc) i = Some (lower (name s))).
    { intros i s H. rewrite nth_error_map in *.
      destruct (nth_error acc i) as [[k v]|] eqn:E; [|discriminate].
      simpl in *. injection H as ->. apply nth_error_In in E.
      rewrite Forall_forall in Hval. destruct (Hval _ E) as [Hk _].
      simpl in Hk. now rewrite Hk. }
    intros i j si sj Hij Hi Hj.
    apply (ForallOrdPairs_nth _ _ Hord i j); auto.
  - intros combined s k v Hin Hk. unfold combine_step.
    destruct (merge_into ratio (lower (name s)) (source_of s) combined)
      as [c'|] eqn:E.
    + apply merge_into_Some in E
        as (pre & k1 & v1 & post & -> & Hpre & Hk1 & ->).
      exists pre, k1, v1, post. repeat split; trivial.
    + apply merge_into_None in E. rewrite Forall_forall in E.
      specialize (E _ Hin). simpl in E. lia.
Qed.

(** C10: every skill that leaves the merge and scoring stages carries a
    non-empty sources list and a confidence between 70 and 95. *)
Theorem merged_confidence_range (ratio : string -> string -> Z)
    (skill_lists : list (list skill)) (text : string) :
  Forall (fun s => exists l c,
              sources s = Some l /\ l <> []
              /\ confidence s = Some (Int c) /\ 70 <= c <= 95)
         (calculate_confidence (combine_skills ratio skill_lists) text).
Proof.
  destruct (well_merged_combine ratio skill_lists) as [_ Hval].
  unfold calculate_confidence, combine_skills.
  rewrite Forall_forall in *. intros s Hin.
  apply in_map_iff in Hin as [s0 [<- Hin]].
  apply in_map_iff in Hin as [[k v] [<- Hin]].
  destruct (Hval _ Hin) as [_ [l [Hl Hne]]]. simpl in *.
  exists l, (confidence_of v (lower text)). repeat split; trivial.
  - unfold confidence_of. rewrite Hl.
    assert (1 <= Z.of_nat (List.length l)) by (destruct l; [congruence | simpl; lia]).
    destruct (has_proficiency _ _), (search_after_skills _ _); lia.
  - apply confidence_of_bounds.
Qed.

(** ** The document parser *)

Lemma split_on_cons delim s : exists w ws, split_on delim s = w :: ws.
Proof.
  destruct s as [|c s]; simpl; [now eexists _, _|].
  destruct (delim c); [now eexists _, _|].
  destruct (split_on delim s); now eexists _, _.
Qed.

Lemma split_on_app delim a x b :
  delim x = true ->
  split_on delim (a ++ String x b)
  = (split_on delim a ++ split_on delim b)%list.
Proof.
  intros Hx. induction a as [|c a IH]; simpl.
  - now rewrite Hx.
  - rewrite IH. destruct (delim c); [reflexivity|].
    destruct (split_on_cons delim a) as (w & ws & ->). reflexivity.
Qed.

Lemma last_app_cons {A : Type} (l1 l2 : list A) x d :
  last (l1 ++ x :: l2) d = last (x :: l2) d.
Proof.
  induction l1 as [|a l1 IH]; [reflexivity|].
  change ((a :: l1) ++ x :: l2)%list with (a :: (l1 ++ x :: l2))%list.
  cbn [last]. destruct (l1 ++ x :: l2)%list eqn:E; [|exact IH].
  now destruct l1.
Qed.



(** C6, as stated, fails: when OCR raises on the first image of a scanned
    page, the word read from the second image is missing from the parsed
    text, although the skip-and-continue loop of the statement would have
    appended it. *)
Lemma ocr_failure_drops_later_images :
  text (parse_pdf scanned_libs "scan") = nl ++ nl
  /\ contains "Java" (text (parse_pdf scanned_libs "scan")) = false
  /\ contains "Java"
       (ocr_images_skipping (nl ++ nl) [unreadable_image; java_image]) = true.
Proof. repeat split. Qed.

Lemma read_mupdf_app text before later :
  read_mupdf text (before ++ later)
  = match read_mupdf text before with
    | Finished t => read_mupdf t later
    | Interrupted t => Interrupted t
    end.
Proof.
  revert text. induction before as [|p before IH]; intros text; simpl.
  - reflexivity.
  - destruct (page_text p) as [t|]; [|reflexivity].
    destruct (image_list p) as [[|i imgs]|]; [apply IH | | reflexivity].
    destruct (is_empty _); [|apply IH].
    destruct (ocr_images _ _); [apply IH | reflexivity].
Qed.

Lemma ocr_images_app text pre rest :
  ocr_images text (pre ++ rest)
  = match ocr_images text pre with
    | Finished t => ocr_images t rest
    | Interrupted t => Interrupted t
    end.
Proof.
  revert text. induction pre as [|i pre IH]; intros text; simpl.
  - reflexivity.
  - destruct (colour_channels i) as [n|]; [|reflexivity].
    destruct (n <? 4); [|apply IH].
    destruct (ocr_text i); [apply IH | reflexivity].
Qed.

(** C6, amended: when OCR raises on an embedded image, the exception does
    not leave [parse_pdf]; the parsed text is the text gathered up to that
    image (the PyPDF2 text, the pages before and the images before), and
    the images and pages behind it contribute nothing. *)
Theorem ocr_failure_interrupts (libs : libraries) (content : string)
    (text0 : string) (meta : dict string) (npages : option Z)
    (before later : list mupdf_page) (page : mupdf_page) (pt : string)
    (pre rest : list pdf_image) (img : pdf_image) (n : Z) (t0 t : string) :
  pypdf_pass libs content = (text0, meta, npages) ->
  fitz_open libs content = Some (before ++ page :: later)%list ->
  read_mupdf text0 before = Finished t0 ->
  page_text page = Some pt ->
  image_list page = Some (pre ++ img :: rest)%list ->
  is_empty (strip (t0 ++ pt ++ nl)) = true ->
  ocr_images (t0 ++ pt ++ nl) pre = Finished t ->
  colour_channels img = Some n ->
  n < 4 ->
  ocr_text img = None ->
  text (parse_pdf libs content) = t.
Proof.
  intros Hpy Hopen Hbefore Hpt Himgs Hblank Hpre Hpix Hch Hocr.
  unfold parse_pdf, mupdf_pass. rewrite Hpy, Hopen. cbn [text parsed_of].
  rewrite read_mupdf_app, Hbefore. cbn [read_mupdf]. rewrite Hpt, Himgs, Hblank.
  rewrite ocr_images_app, Hpre. cbn [ocr_images].
  apply Z.ltb_lt in Hch. rewrite Hpix, Hch, Hocr.
  destruct (pre ++ img :: rest)%list eqn:E; [now destruct pre | reflexivity].
Qed.

Lemma ocr_failure_interrupts_witness :
  text (parse_pdf scanned_libs "scan") = nl ++ nl.
Proof.
  apply (ocr_failure_interrupts scanned_libs "scan" nl [] (Some 1)
           [] [] scanned_page EmptyString [] [java_image] unreadable_image
           3 nl (nl ++ nl));
    reflexivity.
Defined.

(** ** The rule-based generator *)

Lemma last_char_cons c s : exists d, last_char (String c s) = Some d.
Proof.
  revert c. induction s as [|e s IH]; intros c; [now exists c|].
  destruct (IH e) as [d H]. exists d. exact H.
Qed.

Lemma last_or_cons prev c s : last_or prev (String c s) = last_or (Some c) s.
Proof.
  unfold last_or. destruct s as [|d s]; [reflexivity|].
  change (last_char (String c (String d s))) with (last_char (String d s)).
  destruct (last_char_cons d s) as [e ->]. reflexivity.
Qed.

Lemma match_literal_b_spec lit prev s :
  match_literal_b lit prev s = true
  <-> exists post,
        s = lit ++ post
        /\ word_boundary (last_or prev lit) (head_char post) = true.
Proof.
  revert prev s. induction lit as [|a lit IH]; intros prev s.
  - simpl. unfold last_or. simpl. split.
    + intros H. now exists s.
    + now intros [post [-> H]].
  - destruct s as [|c s]; simpl.
    + split; [discriminate | intros [post [H _]]; discriminate].
    + rewrite andb_true_iff, Ascii.eqb_eq, IH, last_or_cons. split.
      * intros [-> [post [-> H]]]. now exists post.
      * intros [post [H1 H2]]. injection H1 as -> ->. split; trivial.
        now exists post.
Qed.

Lemma search_word_spec lit prev s :
  search_word lit prev s = true
  <-> exists pre post,
        s = pre ++ lit ++ post
        /\ word_boundary (last_or prev pre) (head_char (lit ++ post)) = true
        /\ word_boundary (last_or prev (pre ++ lit)) (head_char post) = true.
Proof.
  revert prev. induction s as [|c s IH]; intros prev.
  - cbn [search_word]. rewrite orb_false_r, andb_true_iff, match_literal_b_spec.
    split.
    + intros [Hb [post [H1 H2]]]. exists EmptyString, post.
      simpl. rewrite <- H1. auto.
    + intros [[|? ?] [post (H1 & H2 & H3)]]; [|discriminate].
      simpl in *. rewrite <- H1 in H2. split; trivial. now exists post.
  - cbn [search_word].
    rewrite orb_true_iff, andb_true_iff, match_literal_b_spec, IH. split.
    + intros [[Hb [post [H1 H2]]] | (pre & post & H1 & H2 & H3)].
      * exists EmptyString, post. simpl. rewrite <- H1. auto.
      * exists (String c pre), post. simpl. rewrite !last_or_cons, H1. auto.
    + intros [[|a pre] [post (H1 & H2 & H3)]].
      * left. simpl in *. rewrite <- H1 in H2. split; trivial. now exists post.
      * right. simpl in H1. injection H1 as <- ->.
        simpl in H3. rewrite !last_or_cons in *. now exists pre, post.
Qed.

Lemma find_skill_in_text_spec m t :
  find_skill_in_text m t = true <-> occurs_as_word (lower m) t.
Proof.
  unfold find_skill_in_text, occurs_as_word. rewrite search_word_spec.
  unfold last_or.
  split; intros (pre & post & H1 & H2 & H3); exists pre, post.
  - destruct (last_char pre), (last_char (pre ++ lower m)); auto.
  - destruct (last_char pre), (last_char (pre ++ lower m)); auto.
Qed.

Lemma find_first {A : Type} (f : A -> bool) l :
  match find f l with
  | Some m => exists before after,
                l = (before ++ m :: after)%list
                /\ Forall (fun x => f x = false) before /\ f m = true
  | None => Forall (fun x => f x = false) l
  end.
Proof.
  induction l as [|x l IH]; simpl; [constructor|].
  destruct (f x) eqn:E.
  - exists [], l. auto.
  - destruct (find f l) as [m|].
    + destruct IH as (before & after & -> & Hb & Hm).
      exists (x :: before), after. auto.
    + now constructor.
Qed.

(** C8, as stated, fails: "AWS Certified" is a canonical name of the
    certifications table and stands as a whole word in the text, yet the
    rule-based generator, which walks the technical and the soft table
    only, emits nothing for it. *)
Lemma certifications_are_not_scanned :
  In "AWS Certified" (map fst (taxonomy load_skill_database))
  /\ find_skill_in_text "AWS Certified" (lower "Holder of AWS Certified status")
     = true
  /\ extract_rule_based load_skill_database "Holder of AWS Certified status"
     = [].
Proof. split; [simpl; tauto | split; vm_compute; reflexivity]. Qed.

(** C8, amended: the rule-based generator walks the entries of the
    technical and of the soft table, in that order (the certifications
    table is not consulted); for each entry it tries the canonical name and
    then the aliases, lowercased, as whole words of the lowercased text,
    and emits one candidate for the first that occurs, recording that
    string under ['matched_text'], and no candidate when none occurs. *)
Theorem rule_based_first_match (db : skill_db) (text : string) :
  extract_rule_based db text
  = (flat_map (rule_candidates "technical" (lower text)) (technical_skills db)
     ++ flat_map (rule_candidates "soft" (lower text)) (soft_skills db))%list
  /\ (forall label skill_name info,
        rule_candidates label (lower text) (skill_name, info) = []
        /\ Forall (fun m => ~ occurs_as_word (lower m) (lower text))
                  (skill_name :: or_default (aliases info) [])
        \/ exists before m after,
             skill_name :: or_default (aliases info) []
             = (before ++ m :: after)%list
             /\ Forall (fun m' => ~ occurs_as_word (lower m') (lower text)) before
             /\ occurs_as_word (lower m) (lower text)
             /\ rule_candidates label (lower text) (skill_name, info)
                = [mkSkill skill_name
                           (Some (or_default (info_category info) label))
                           (Some label) (Some m) None None None None]).
Proof.
  assert (Hno : forall l,
             Forall (fun x => find_skill_in_text x (lower text) = false) l ->
             Forall (fun m => ~ occurs_as_word (lower m) (lower text)) l).
  { intros l. apply Forall_impl. intros m H.
    rewrite <- find_skill_in_text_spec. congruence. }
  split.
  - unfold extract_rule_based, rule_tables. simpl. now rewrite app_nil_r.
  - intros label skill_name info. unfold rule_candidates.
    destruct (find_skill_in_text skill_name (lower text)) eqn:E.
    + right. exists [], skill_name, (or_default (aliases info) []).
      repeat split; [constructor | now apply find_skill_in_text_spec].
    + pose proof (find_first (fun alias => find_skill_in_text alias (lower text))
                             (or_default (aliases info) [])) as H.
      destruct (find _ _) as [alias|].
      * right. destruct H as (before & after & -> & Hb & Hm).
        exists (skill_name :: before), alias, after.
        repeat split.
        -- apply Hno. now constructor.
        -- now apply find_skill_in_text_spec.
      * left. split; [reflexivity|]. apply Hno. now constructor.
Qed.

(** ** The pattern-based generator *)

Lemma all_space_rstrip s : all_space s = false -> all_space (rstrip s) = false.
Proof.
  induction s as [|c s IH]; [discriminate|]. intros H.
  cbn [rstrip]. rewrite H. cbn [all_space] in *.
  apply andb_false_iff in H as [H | H].
  - now rewrite H.
  - rewrite (IH H). apply andb_false_r.
Qed.

Lemma rstrip_idempotent s : rstrip (rstrip s) = rstrip s.
Proof.
  induction s as [|c s IH]; [reflexivity|].
  cbn [rstrip]. destruct (all_space (String c s)) eqn:E; [reflexivity|].
  cbn [rstrip]. rewrite IH.
  assert (H : all_space (String c (rstrip s)) = false).
  { cbn [all_space] in *. apply andb_false_iff in E as [E | E].
    - now rewrite E.
    - rewrite (all_space_rstrip _ E). apply andb_false_r. }
  now rewrite H.
Qed.

Lemma lstrip_head s :
  lstrip s = EmptyString
  \/ exists c r, lstrip s = String c r /\ is_space c = false.
Proof.
  induction s as [|c s IH]; [now left|].
  simpl. destruct (is_space c) eqn:E; [exact IH|].
  right. now exists c, s.
Qed.

Lemma strip_idempotent s : strip (strip s) = strip s.
Proof.
  unfold strip. destruct (lstrip_head s) as [-> | (c & r & -> & Hc)].
  - reflexivity.
  - cbn [rstrip all_space]. rewrite Hc. cbn [andb lstrip]. rewrite Hc.
    cbn [rstrip all_space]. rewrite Hc. cbn [andb]. now rewrite rstrip_idempotent.
Qed.

Lemma any_char_lstrip p s : any_char p s = false -> any_char p (lstrip s) = false.
Proof.
  induction s as [|c s IH]; [reflexivity|]. intros H. simpl.
  destruct (is_space c); [|exact H].
  simpl in H. apply orb_false_iff in H as [_ H]. now apply IH.
Qed.

Lemma any_char_rstrip p s : any_char p s = false -> any_char p (rstrip s) = false.
Proof.
  induction s as [|c s IH]; [reflexivity|]. intros H. cbn [rstrip].
  destruct (all_space (String c s)); [reflexivity|].
  simpl in *. apply orb_false_iff in H as [H1 H2]. now rewrite H1, IH.
Qed.

Lemma split_on_items delim s :
  Forall (fun w => any_char delim w = false) (split_on delim s).
Proof.
  induction s as [|c s IH]; simpl.
  - now repeat constructor.
  - destruct (delim c) eqn:E.
    + now constructor.
    + destruct (split_on delim s) as [|w ws].
      * repeat constructor. simpl. now rewrite E.
      * inversion IH; subst. constructor; [|assumption]. simpl. now rewrite E.
Qed.

Lemma take_block_prefix s : exists post, s = take_block s ++ post.
Proof.
  induction s as [|c s IH]; [now exists EmptyString|].
  destruct IH as [post IH]. cbn [take_block].
  destruct (Ascii.eqb c newline).
  - destruct s as [|d s]; [now eexists|].
    destruct (Ascii.eqb d newline); [now eexists|].
    exists post. cbn [append]. now rewrite <- IH.
  - exists post. cbn [append]. now rewrite <- IH.
Qed.

Lemma block_at_spec s sep blk :
  block_at s = Some (sep, blk) ->
  sep = EmptyString /\ blk <> EmptyString /\ exists post, s = blk ++ post.
Proof.
  destruct s as [|c s]; [discriminate|]. unfold block_at.
  destruct (Ascii.eqb c newline) eqn:E; [discriminate|].
  intros H. injection H as <- <-. repeat split.
  - cbn [take_block]. now rewrite E.
  - apply take_block_prefix.
Qed.

Lemma match_sep_block_spec s sep blk :
  match_sep_block s = Some (sep, blk) ->
  any_char (fun c => negb (is_label_sep c)) sep = false
  /\ blk <> EmptyString
  /\ exists post, s = sep ++ blk ++ post.
Proof.
  revert sep blk. induction s as [|c s IH]; intros sep blk; [discriminate|].
  cbn [match_sep_block].
  destruct (is_label_sep c) eqn:E.
  - destruct (match_sep_block s) as [[sep' blk']|].
    + intros H. injection H as <- <-.
      destruct (IH sep' blk' eq_refl) as (H1 & H2 & post & H3).
      repeat split; trivial.
      * simpl. now rewrite E, H1.
      * exists post. simpl. now rewrite <- H3.
    + intros H. apply block_at_spec in H as (-> & H2 & H3). auto.
  - intros H. apply block_at_spec in H as (-> & H2 & H3). auto.
Qed.

Lemma take_drop n s : s = take n s ++ drop n s.
Proof.
  revert s. induction n as [|n IH]; intros [|c s]; simpl; trivial.
  now rewrite <- IH.
Qed.

Lemma startswith_ci_lower l s :
  startswith_ci l s = true -> lower (take (String.length l) s) = l.
Proof.
  revert s. induction l as [|a l IH]; intros s H; [reflexivity|].
  destruct s as [|c s]; [discriminate|]. simpl in *.
  apply andb_true_iff in H as [H1 H2]. apply Ascii.eqb_eq in H1.
  now rewrite <- H1, IH.
Qed.

Lemma match_labels_spec labels s g0 g1 :
  (forall l, In l labels -> In l section_labels) ->
  match_labels labels s = Some (g0, g1) ->
  labelled_block g0 g1 /\ exists post, s = g0 ++ post.
Proof.
  induction labels as [|l ls IH]; intros Hl; [discriminate|].
  cbn [match_labels].
  destruct (if startswith_ci l s then match_sep_block (drop (String.length l) s)
            else None) as [[sep blk]|] eqn:E.
  - intros H. injection H as <- <-.
    destruct (startswith_ci l s) eqn:El; [|discriminate].
    apply match_sep_block_spec in E as (H1 & H2 & post & H3).
    split.
    + exists (take (String.length l) s), sep. repeat split; trivial.
      rewrite (startswith_ci_lower _ _ El). apply Hl. now left.
    + exists post. rewrite !append_assoc, <- H3. apply take_drop.
  - apply IH. intros l' H. apply Hl. now right.
Qed.

Lemma finditer_from_spec skip s g0 g1 :
  In (g0, g1) (finditer_from skip s) -> labelled_block g0 g1 /\ occurs g0 s.
Proof.
  revert skip. induction s as [|c s IH]; intros skip; [intros []|].
  assert (Hs : forall k, In (g0, g1) (finditer_from k s) ->
                         labelled_block g0 g1 /\ occurs g0 (String c s)).
  { intros k H. destruct (IH k H) as [H1 (pre & post & ->)].
    split; trivial. now exists (String c pre), post. }
  cbn [finditer_from]. destruct skip as [|k]; [|apply Hs].
  destruct (match_labels section_labels (String c s)) as [[h0 h1]|] eqn:E;
    [|apply Hs].
  intros [H | H]; [|now apply Hs in H].
  injection H as -> ->.
  apply match_labels_spec in E as [H1 [post H2]]; [|auto].
  split; trivial. exists EmptyString, post. exact H2.
Qed.

(** C9: every candidate of the pattern-based generator is named by a
    stripped token of 3 to 49 characters, free of the delimiters, cut at
    them from the body of a skills-labeled block of the text; and the text
    "SKILLS: Python, Docker; Leadership" yields exactly the candidates
    Python, Docker and Leadership. *)
Theorem pattern_candidates_are_tokens (text : string) :
  Forall (fun s =>
            (3 <= String.length (name s) <= 49)%nat
            /\ strip (name s) = name s
            /\ any_char is_delimiter (name s) = false
            /\ exists g0 g1 item,
                 occurs g0 text /\ labelled_block g0 g1
                 /\ In item (split_on is_delimiter g1)
                 /\ name s = strip item)
         (extract_pattern_based text)
  /\ map name (extract_pattern_based "SKILLS: Python, Docker; Leadership")
     = ["Python"; "Docker"; "Leadership"].
Proof.
  split; [|vm_compute; reflexivity].
  apply Forall_forall. intros s Hs.
  unfold extract_pattern_based in Hs. apply in_flat_map in Hs as [[g0 g1] [Hm Hs]].
  unfold pattern_candidates in Hs. apply in_flat_map in Hs as [item [Hi Hs]].
  cbn [snd fst] in *.
  destruct (reasonable_length (strip item)) eqn:E; [|destruct Hs].
  destruct Hs as [<- | []]. cbn [name].
  unfold reasonable_length in E. apply andb_true_iff in E as [E1 E2].
  apply Nat.ltb_lt in E1, E2.
  apply finditer_from_spec in Hm as [Hb Ho].
  repeat split; try lia.
  - apply strip_idempotent.
  - pose proof (split_on_items is_delimiter g1) as H.
    rewrite Forall_forall in H. unfold strip.
    apply any_char_rstrip, any_char_lstrip. now apply H.
  - now exists g0, g1, item.
Qed.

(** ** The example of section 8 *)

Lemma example_text_candidates :
  extract_rule_based load_skill_database example_text
  = [ mkSkill "Python" (Some "programming") (Some "technical") (Some "Python")
              None None None None;
      mkSkill "React" (Some "web") (Some "technical") (Some "React")
              None None None None ]
  /\ extract_pattern_based example_text = [].
Proof. split; vm_compute; reflexivity. Qed.

Lemma example_text_merge ratio :
  combine_skills ratio
    [ extract_rule_based load_skill_database example_text; [];
      extract_pattern_based example_text ]
  = if 85 <? ratio "react" "python"
    then [ mkSkill "Python" (Some "programming") (Some "technical")
                   (Some "Python") None (Some ["technical"; "technical"])
                   None None ]
    else [ mkSkill "Python" (Some "programming") (Some "technical")
                   (Some "Python") None (Some ["technical"]) None None;
           mkSkill "React" (Some "web") (Some "technical") (Some "React")
                   None (Some ["technical"]) None None ].
Proof.
  destruct example_text_candidates as [-> ->].
  unfold combine_skills. cbv -[Z.ltb].
  destruct (85 <? _); reflexivity.
Qed.

(** C1, as stated, fails: whatever the similarity measure, the pipeline
    does not return three skills for the example text. *)
Lemma example_text_never_three_skills :
  ~ exists ratio skills,
      extract ratio load_skill_database None example_text = Some skills
      /\ List.length skills = 3%nat.
Proof.
  intros (ratio & skills & H & Hl). unfold extract in H.
  rewrite example_text_merge in H.
  destruct (85 <? ratio "react" "python"); vm_compute in H;
    injection H as <-; discriminate.
Qed.

(** C1, amended: with no trained model loaded and "react" and "python" no
    more than 85-similar, the pipeline turns the example text into exactly
    two skills, Python of category programming with confidence 90 ahead of
    React of category web with confidence 75; AWS Certified, an entry of
    the certifications table, is not among them; every confidence is at
    least 75 and no non-technical skill precedes a technical one of the
    same confidence. *)
Theorem example_text_pipeline (ratio : string -> string -> Z) :
  ratio "react" "python" <= 85 ->
  exists skills,
    extract ratio load_skill_database None example_text = Some skills
    /\ skills = [python_skill; react_skill]
    /\ Forall (fun s => exists c, confidence s = Some (Int c) /\ 75 <= c)
              skills
    /\ ~ In "AWS Certified" (map name skills)
    /\ (forall i j si sj,
          nth_error skills i = Some si ->
          nth_error skills j = Some sj ->
          is_technical si = true -> is_technical sj = false ->
          confidence si = confidence sj -> (i < j)%nat).
Proof.
  intros H. apply Z.ltb_ge in H.
  exists [python_skill; react_skill]. split.
  { unfold extract. rewrite example_text_merge, H. vm_compute. reflexivity. }
  split; [reflexivity|]. split; [|split].
  - repeat constructor; eexists; (split; [reflexivity | lia]).
  - simpl. intros [H1 | [H1 | []]]; discriminate.
  - intros i j si sj Hi Hj Hti Htj _.
    destruct j as [|[|j]]; simpl in Hj.
    + injection Hj as <-. discriminate.
    + injection Hj as <-. discriminate.
    + destruct j; discriminate.
Qed.

Lemma example_text_pipeline_witness :
  extract equality_ratio load_skill_database None example_text
  = Some [python_skill; react_skill].
Proof.
  destruct (example_text_pipeline equality_ratio) as (skills & E & -> & _).
  - vm_compute. discriminate.
  - exact E.
Defined.

(** ** The ranking step *)

Lemma SFcompare_Lt_Gt f g : SFcompare f g = Some Lt -> SFcompare g f = Some Gt.
Proof.
  destruct f as [s|s| |s m e], g as [s'|s'| |s' m' e']; simpl;
    try discriminate; try (destruct s; try destruct s'; simpl; congruence).
  destruct s, s'; simpl; try congruence.
  all: rewrite (Z.compare_antisym e e'); destruct (e ?= e'); simpl;
    try congruence.
  all: fold (Pos.compare m m'); fold (Pos.compare m' m);
    rewrite (Pos.compare_antisym m m');
    destruct (Pos.compare m m'); simpl; congruence.
Qed.

Lemma float_ltb_asym x y : PrimFloat.ltb x y = true -> PrimFloat.ltb y x = false.
Proof.
  rewrite !FloatAxioms.ltb_spec. unfold SFltb.
  destruct (SFcompare (Prim2SF x) (Prim2SF y)) as [[]|] eqn:E; try discriminate.
  intros _. now rewrite (SFcompare_Lt_Gt _ _ E).
Qed.

Lemma lt_asym x y : lt x y = true -> lt y x = false.
Proof.
  destruct x as [a|f], y as [b|g]; cbn [lt].
  - intros H. apply Z.ltb_lt in H. apply Z.ltb_ge. lia.
  - now destruct (compare_int_float a g) as [[]|].
  - now destruct (compare_int_float b f) as [[]|].
  - apply float_ltb_asym.
Qed.

Section SortFacts.
Context {A : Type} (key : A -> num).

Lemma insert_desc_split x l :
  exists l1 l2,
    l = (l1 ++ l2)%list
    /\ insert_desc key x l = (l1 ++ x :: l2)%list
    /\ Forall (fun y => lt (key x) (key y) = true) l1.
Proof.
  induction l as [|y l IH]; simpl.
  - exists [], []. auto.
  - destruct (lt (key x) (key y)) eqn:E.
    + destruct IH as (l1 & l2 & -> & -> & H).
      exists (y :: l1), l2. auto.
    + exists [], (y :: l). auto.
Qed.

Lemma insert_desc_perm x l : Permutation (x :: l) (insert_desc key x l).
Proof.
  destruct (insert_desc_split x l) as (l1 & l2 & -> & -> & _).
  apply Permutation_middle.
Qed.

Lemma sort_desc_perm l : Permutation l (sort_desc key l).
Proof.
  induction l as [|x l IH]; simpl; [constructor|].
  etransitivity; [apply perm_skip, IH | apply insert_desc_perm].
Qed.

Lemma insert_desc_sorted x l :
  LocallySorted (fun a b => lt (key a) (key b) = false) l ->
  LocallySorted (fun a b => lt (key a) (key b) = false) (insert_desc key x l).
Proof.
  induction 1 as [|y|y z l Hl IH Hyz]; simpl.
  - constructor.
  - destruct (lt (key x) (key y)) eqn:E; repeat constructor; trivial.
    now apply lt_asym.
  - destruct (lt (key x) (key y)) eqn:E.
    + simpl in IH. destruct (lt (key x) (key z)) eqn:E'.
      * constructor; trivial.
      * constructor; trivial. now apply lt_asym.
    + repeat constructor; trivial.
Qed.

Lemma sort_desc_sorted l :
  LocallySorted (fun a b => lt (key a) (key b) = false) (sort_desc key l).
Proof.
  induction l as [|x l IH]; simpl; [constructor|].
  now apply insert_desc_sorted.
Qed.

Lemma precedes_cons (y : A) l a b :
  precedes (y :: l) a b <-> y = a /\ In b l \/ precedes l a b.
Proof.
  split.
  - intros ([|c m1] & m2 & m3 & H); simpl in H; injection H as -> ->.
    + left. split; trivial. apply in_elt.
    + right. now exists m1, m2, m3.
  - intros [[-> H] | (m1 & m2 & m3 & ->)].
    + apply in_split in H as (m2 & m3 & ->). now exists [], m2, m3.
    + now exists (y :: m1), m2, m3.
Qed.

Lemma precedes_middle (x : A) l1 l2 a b :
  precedes (l1 ++ l2)%list a b -> precedes (l1 ++ x :: l2)%list a b.
Proof.
  induction l1 as [|y l1 IH]; simpl.
  - intros H. apply precedes_cons. now right.
  - rewrite !precedes_cons. intros [[-> H] | H].
    + left. split; trivial. apply in_app_iff in H as [H | H];
        apply in_app_iff; [now left | right; now right].
    + right. now apply IH.
Qed.

Lemma insert_desc_keeps x l a b :
  precedes l a b -> precedes (insert_desc key x l) a b.
Proof.
  destruct (insert_desc_split x l) as (l1 & l2 & -> & -> & _).
  apply precedes_middle.
Qed.

Lemma insert_desc_first x l b :
  In b l -> lt (key x) (key b) = false ->
  precedes (insert_desc key x l) x b.
Proof.
  intros Hin Hb.
  destruct (insert_desc_split x l) as (l1 & l2 & -> & -> & H).
  apply in_app_iff in Hin as [Hin | Hin].
  - rewrite Forall_forall in H. rewrite (H _ Hin) in Hb. discriminate.
  - apply in_split in Hin as (p & q & ->). now exists l1, p, q.
Qed.

Lemma sort_desc_stable l a b :
  precedes l a b -> lt (key a) (key b) = false ->
  precedes (sort_desc key l) a b.
Proof.
  induction l as [|y l IH]; intros H Hab.
  - destruct H as ([|? ?] & ? & ? & H); discriminate.
  - simpl. apply precedes_cons in H as [[-> H] | H].
    + apply insert_desc_first; trivial.
      eapply Permutation_in; [apply sort_desc_perm | exact H].
    + apply insert_desc_keeps. now apply IH.
Qed.
End SortFacts.

Lemma is_technical_spec s :
  is_technical s = true
  <-> exists c, category s = Some c /\ In c technical_categories.
Proof.
  unfold is_technical. destruct (category s) as [c|].
  - rewrite existsb_exists. split.
    + intros [x [Hin Hx]]. apply String.eqb_eq in Hx as ->. now exists x.
    + intros [x [Hx Hin]]. injection Hx as ->. exists x.
      split; trivial. apply String.eqb_refl.
  - split; [discriminate | intros [c [H _]]; discriminate].
Qed.

(** C7: the code departs from the claim at a soft skill.  Leadership is
    a canonical entry of the taxonomy, in the table of soft skills, with
    the declared weight 8; for the text "Leadership" the pipeline hands it
    to the ranking step with confidence 75, and the ranking step gives it
    the importance score 75 where the claim gives 75 + 5 * 8 = 115: the
    lookup under the comment "Boost if in skill database" names the
    technical table only. *)
Lemma soft_skill_weight_not_added :
  option_map db_importance
    (dict_get (taxonomy load_skill_database) (name leadership_skill))
  = Some (Some 8)
  /\ dict_get (technical_skills load_skill_database) (name leadership_skill)
     = None
  /\ extract equality_ratio load_skill_database None "Leadership"
     = Some [set_importance_score leadership_skill (Int 75)]
  /\ rank_skills load_skill_database [leadership_skill]
     = Some [set_importance_score leadership_skill (Int 75)]
  /\ claimed_importance load_skill_database leadership_skill
     = Some (Int 115).
Proof. repeat split; vm_compute; reflexivity. Qed.

Lemma score_skills_spec db skills scored :
  score_skills db skills = Some scored ->
  Forall2 (fun s s' =>
             exists v, importance_of db s = Some v
                       /\ s' = set_importance_score s v)
          skills scored.
Proof.
  revert scored. induction skills as [|s skills IH]; intros scored H.
  - injection H as <-. constructor.
  - cbn [score_skills] in H.
    destruct (importance_of db s) as [v|] eqn:E; [|discriminate].
    destruct (score_skills db skills) as [rest|]; [|discriminate].
    injection H as <-. constructor; [now exists v | now apply IH].
Qed.

(** The ranking step sorts: when no score raises, every skill gets its
    score, and the output is the scored list rearranged so that no skill
    has a smaller score than its successor, a skill that precedes another
    one of no greater score in the input preceding it in the output. *)
Lemma rank_skills_stable_sort (db : skill_db) (skills ranked : list skill) :
  rank_skills db skills = Some ranked ->
  exists scored,
    Forall2 (fun s s' =>
               exists v, importance_of db s = Some v
                         /\ s' = set_importance_score s v)
            skills scored
    /\ Permutation scored ranked
    /\ LocallySorted (fun a b => lt (sort_key a) (sort_key b) = false) ranked
    /\ (forall a b,
          precedes scored a b -> lt (sort_key a) (sort_key b) = false ->
          precedes ranked a b).
Proof.
  unfold rank_skills. intros H.
  destruct (score_skills db skills) as [scored|] eqn:E; [|discriminate].
  injection H as <-. exists scored.
  split; [now apply score_skills_spec|].
  split; [apply sort_desc_perm|]. split; [apply sort_desc_sorted|].
  intros a b. apply sort_desc_stable.
Qed.

Lemma ranking_sample_order :
  option_map (map name) (rank_skills load_skill_database ranking_sample)
  = Some ["Python"; "Docker"; "Leadership"; "Communication"].
Proof. vm_compute. reflexivity. Qed.

(** ** The section segmenter *)

Lemma dict_get_set {V : Type} k (v : V) d k' :
  dict_get (dict_set k v d) k'
  = if String.eqb k' k then Some v else dict_get d k'.
Proof.
  induction d as [|[k0 v0] d IH]; simpl.
  - reflexivity.
  - destruct (String.eqb_spec k k0) as [<- | Hk]; simpl.
    + now destruct (String.eqb k' k).
    + rewrite IH. destruct (String.eqb_spec k' k0) as [-> | Hk0]; trivial.
      destruct (String.eqb_spec k0 k); congruence.
Qed.

Lemma flush_store st :
  flush st = store (sections st) (current_section st, section_content st).
Proof. unfold flush, store. simpl. now destruct (section_content st). Qed.

Lemma fold_seg_step lines st :
  flush (fold_left seg_step lines st)
  = fold_left store
      (segments (current_section st) (section_content st) lines)
      (sections st).
Proof.
  revert st. induction lines as [|line lines IH]; intros st.
  - simpl. apply flush_store.
  - cbn [fold_left segments]. rewrite IH. unfold seg_step, classify.
    destruct (find_header (lower (strip line))) as [h|].
    + cbn [fold_left current_section section_content sections].
      now rewrite flush_store.
    + destruct (strip line); reflexivity.
Qed.

Lemma find_snoc {A : Type} (f : A -> bool) l x :
  find f (l ++ [x])
  = match find f l with
    | Some y => Some y
    | None => if f x then Some x else None
    end.
Proof.
  induction l as [|y l IH]; simpl; [reflexivity|].
  now destruct (f y).
Qed.

Lemma last_body_cons key seg segs :
  last_body key (seg :: segs)
  = match last_body key segs with
    | Some b => Some b
    | None =>
        if (String.eqb key (fst seg)
            && negb (Nat.eqb (List.length (snd seg)) 0))%bool
        then Some (snd seg) else None
    end.
Proof.
  unfold last_body. simpl rev. rewrite find_snoc.
  destruct (find _ (rev segs)); [reflexivity|].
  now destruct (_ && _)%bool.
Qed.

Lemma dict_get_fold_store segs d key :
  dict_get (fold_left store segs d) key
  = match last_body key segs with
    | Some b => Some (join nl b)
    | None => dict_get d key
    end.
Proof.
  revert d. induction segs as [|[k b] segs IH]; intros d.
  - reflexivity.
  - cbn [fold_left]. rewrite IH, last_body_cons.
    destruct (last_body key segs); [reflexivity|].
    unfold store. cbn [fst snd]. destruct b as [|l b].
    + simpl. now rewrite andb_false_r.
    + rewrite dict_get_set. simpl. rewrite andb_true_r.
      now destruct (String.eqb key k).
Qed.

Lemma segments_head cur body lines :
  exists body' rest, segments cur body lines = (cur, body') :: rest.
Proof.
  revert body. induction lines as [|line lines IH]; intros body; simpl.
  - now eexists _, _.
  - destruct (classify line); [now eexists _, _ | apply IH | apply IH].
Qed.

Lemma segments_no_blank cur body lines :
  Forall (fun line => strip line <> EmptyString) body ->
  Forall (fun seg => Forall (fun line => strip line <> EmptyString) (snd seg))
         (segments cur body lines).
Proof.
  revert cur body. induction lines as [|line lines IH]; intros cur body H; simpl.
  - now repeat constructor.
  - destruct (classify line) eqn:E.
    + constructor; [exact H|]. apply IH. constructor.
    + apply IH. apply Forall_app. split; [exact H|]. repeat constructor.
      unfold classify in E. destruct (find_header _); [discriminate|].
      destruct (strip line); [discriminate | discriminate].
    + now apply IH.
Qed.

(** C4, as stated, fails: in a text where the header "Skills" occurs
    twice, the key is bound to the body of the second occurrence alone,
    not to the lines of both. *)
Lemma repeated_header_keeps_last_body :
  dict_get (extract_sections repeated_header_text) "skills" = Some "Java"
  /\ claimed_section repeated_header_text "skills"
     = Some (join nl ["Python"; "Java"]).
Proof. split; vm_compute; reflexivity. Qed.

(** C4, amended: the segmenter cuts the text at its header lines, the
    lines in front of the first header falling under the key 'header',
    blank lines left out, and binds each key to the newline-joined body
    lines of the last occurrence of that key that has any (a later
    occurrence replaces what an earlier one stored; a key without body
    lines is absent); the buffer open at the end of the input is stored
    like the others, and a line that satisfies several labels counts as
    the first of them in the order of the vocabulary. *)
Theorem extract_sections_last_body (text : string) :
  (forall key,
      dict_get (extract_sections text) key
      = option_map (join nl) (last_body key (segments_of text)))
  /\ (exists body rest, segments_of text = ("header", body) :: rest)
  /\ Forall (fun seg => Forall (fun line => strip line <> EmptyString) (snd seg))
            (segments_of text)
  /\ (forall line_lower header,
        find_header line_lower = Some header ->
        exists before after,
          section_headers = (before ++ header :: after)%list
          /\ Forall (fun h => header_matches line_lower h = false) before
          /\ header_matches line_lower header = true).
Proof.
  split; [|split; [|split]].
  - intros key. unfold extract_sections, segments_of.
    rewrite fold_seg_step, dict_get_fold_store. cbn [sections dict_get].
    now destruct (last_body _ _).
  - apply segments_head.
  - apply segments_no_blank. constructor.
  - intros line_lower header H. unfold find_header in H.
    pose proof (find_first (header_matches line_lower) section_headers) as F.
    rewrite H in F. exact F.
Qed.

(** * Further properties of the pipeline *)

Import Terms MoreSamples.

(** ** Whole-word search *)

Lemma lower_char_idempotent c : lower_char (lower_char c) = lower_char c.
Proof.
  destruct c as [[] [] [] [] [] [] [] []]; vm_compute; reflexivity.
Qed.

Lemma lower_idempotent s : lower (lower s) = lower s.
Proof.
  induction s as [|c s IH]; simpl; [reflexivity|].
  now rewrite lower_char_idempotent, IH.
Qed.

Lemma last_char_app pre lit :
  lit <> EmptyString -> last_char (pre ++ lit) = last_char lit.
Proof.
  intros H. induction pre as [|c pre IH]; [reflexivity|].
  simpl. destruct (pre ++ lit) eqn:E; [|exact IH].
  destruct pre, lit; simpl in E; congruence.
Qed.

(** X1: [find_skill_in_text] answers True exactly when the lowercased skill
    occurs in the text with a word boundary on both sides; a match implies
    that the lowercased skill is a substring of the text, and the case of
    the skill argument does not matter. *)
Theorem find_skill_whole_word (skill text : string) :
  (find_skill_in_text skill text = true
   <-> occurs_as_word (lower skill) text)
  /\ (find_skill_in_text skill text = true
      -> contains (lower skill) text = true)
  /\ find_skill_in_text (lower skill) text = find_skill_in_text skill text.
Proof.
  split; [apply find_skill_in_text_spec|]. split.
  - intros H. apply find_skill_in_text_spec in H as (pre & post & -> & _).
    apply contains_occurs. now exists pre, post.
  - unfold find_skill_in_text. now rewrite lower_idempotent.
Qed.

(** X2: a skill whose last character is not a word character, such as
    "C++" or "C#", is found only at an occurrence that a word character
    follows directly; where the text ends or a space or punctuation mark
    follows, the occurrence does not count. *)
Theorem find_skill_nonword_end (skill text : string) (c : ascii) :
  last_char (lower skill) = Some c ->
  is_word c = false ->
  find_skill_in_text skill text = true ->
  exists pre d post,
    text = pre ++ lower skill ++ String d post /\ is_word d = true.
Proof.
  intros Hlast Hc H.
  apply find_skill_in_text_spec in H as (pre & post & -> & _ & Hb).
  assert (Hne : lower skill <> EmptyString)
    by (intros E; rewrite E in Hlast; discriminate).
  rewrite (last_char_app _ _ Hne), Hlast in Hb.
  unfold word_boundary in Hb. simpl in Hb. rewrite Hc in Hb.
  destruct post as [|d post]; simpl in Hb; [discriminate|].
  exists pre, d, post. split; trivial.
Qed.

Lemma find_skill_nonword_end_witness :
  (exists pre d post,
      "c++11 and c++" = pre ++ lower "C++" ++ String d post
      /\ is_word d = true)
  /\ find_skill_in_text "C++" "expert in c++" = false.
Proof.
  split; [|reflexivity].
  apply (find_skill_nonword_end "C++" "c++11 and c++" "+"); reflexivity.
Defined.

(** ** Text preprocessing for the classifier *)

Lemma blank_out_lower_char c0 :
  let c := lower_char c0 in
  let d := if keep_for_model c then c else " "%char in
  (is_space d || is_model_char d)%bool = true.
Proof.
  destruct c0 as [[] [] [] [] [] [] [] []]; vm_compute; reflexivity.
Qed.

Lemma model_char_fixed c :
  (is_model_char c || Ascii.eqb c " ")%bool = true ->
  lower_char c = c /\ keep_for_model c = true.
Proof.
  destruct c as [[] [] [] [] [] [] [] []]; vm_compute; intros H;
    (discriminate || (split; reflexivity)).
Qed.

Lemma model_char_not_space c : is_model_char c = true -> is_space c = false.
Proof.
  destruct c as [[] [] [] [] [] [] [] []]; vm_compute; intros H;
    (discriminate || reflexivity).
Qed.

Lemma all_chars_app p a b :
  all_chars p (a ++ b) = (all_chars p a && all_chars p b)%bool.
Proof.
  induction a as [|c a IH]; simpl; [reflexivity|].
  now rewrite IH, andb_assoc.
Qed.

Lemma words_from_words q cur s :
  all_chars q cur = true ->
  all_chars (fun c => (is_space c || q c)%bool) s = true ->
  Forall (fun w => w <> EmptyString /\ all_chars q w = true)
         (words_from cur s).
Proof.
  revert cur. induction s as [|c s IH]; intros cur Hcur Hs; simpl.
  - destruct cur; [constructor|]. repeat constructor; [discriminate | exact Hcur].
  - simpl in Hs. apply andb_true_iff in Hs as [Hc Hs].
    destruct (is_space c) eqn:E.
    + destruct cur.
      * now apply IH.
      * constructor; [split; [discriminate | exact Hcur]|]. now apply IH.
    + apply IH; trivial. rewrite all_chars_app, Hcur. simpl in *.
      now rewrite Hc.
Qed.

Lemma words_from_word cur w s :
  all_chars (fun c => negb (is_space c)) w = true ->
  words_from cur (w ++ s) = words_from (cur ++ w) s.
Proof.
  revert cur. induction w as [|c w IH]; intros cur H; simpl.
  - f_equal. induction cur as [|d cur IHc]; simpl; congruence.
  - simpl in H. apply andb_true_iff in H as [Hc H].
    apply negb_true_iff in Hc. rewrite Hc, IH by exact H.
    now rewrite append_assoc.
Qed.

Lemma words_join ws :
  Forall (fun w => w <> EmptyString /\ all_chars is_model_char w = true) ws ->
  words (join " " ws) = ws.
Proof.
  assert (Hns : forall w, all_chars is_model_char w = true ->
                          all_chars (fun c => negb (is_space c)) w = true).
  { induction w as [|c w IH]; simpl; [reflexivity|]. intros H.
    apply andb_true_iff in H as [Hc H].
    now rewrite (model_char_not_space _ Hc), IH. }
  unfold words. induction 1 as [|w ws [Hne Hw] Hws IH]; [reflexivity|].
  destruct ws as [|w' ws'].
  - cbn [join]. replace w with (w ++ EmptyString) at 1
      by (clear; induction w; simpl; congruence).
    rewrite words_from_word by auto. simpl. now destruct w.
  - change (join " " (w :: w' :: ws')) with (w ++ " " ++ join " " (w' :: ws')).
    rewrite words_from_word by auto.
    remember (join " " (w' :: ws')) as rest eqn:Erest.
    destruct w as [|c w]; [congruence|]. cbn. now rewrite IH.
Qed.

Lemma join_model_chars ws :
  Forall (fun w => w <> EmptyString /\ all_chars is_model_char w = true) ws ->
  all_chars (fun c => (is_model_char c || Ascii.eqb c " ")%bool)
            (join " " ws) = true.
Proof.
  assert (Hw : forall w, all_chars is_model_char w = true ->
     all_chars (fun c => (is_model_char c || Ascii.eqb c " ")%bool) w = true).
  { induction w as [|c w IH]; simpl; [reflexivity|]. intros H.
    apply andb_true_iff in H as [Hc H]. now rewrite Hc, IH. }
  induction 1 as [|w ws [Hne H] Hws IH]; [reflexivity|].
  destruct ws as [|w' ws'].
  - now apply Hw.
  - change (join " " (w :: w' :: ws')) with (w ++ " " ++ join " " (w' :: ws')).
    rewrite all_chars_app, (Hw _ H). simpl. exact IH.
Qed.

Lemma preprocess_text_words text :
  Forall (fun w => w <> EmptyString /\ all_chars is_model_char w = true)
         (words (blank_out (lower text))).
Proof.
  apply words_from_words; [reflexivity|].
  induction text as [|c t IH]; simpl; [reflexivity|].
  rewrite IH, andb_true_r. apply blank_out_lower_char.
Qed.

Lemma preprocess_text_idempotent text :
  preprocess_text (preprocess_text text) = preprocess_text text.
Proof.
  pose proof (preprocess_text_words text) as Hws.
  unfold preprocess_text at 1.
  set (out := preprocess_text text).
  assert (Hout : all_chars (fun c => (is_model_char c || Ascii.eqb c " ")%bool)
                           out = true) by now apply join_model_chars.
  assert (E : blank_out (lower out) = out).
  { clearbody out. induction out as [|c s IH]; simpl; [reflexivity|].
    simpl in Hout. apply andb_true_iff in Hout as [Hc Hs].
    destruct (model_char_fixed _ Hc) as [-> ->]. now rewrite IH. }
  rewrite E. unfold out, preprocess_text. now rewrite words_join.
Qed.

(** X3: [preprocess_text] returns words of the characters a-z, 0-9, + and
    # only, each non-empty, separated by exactly one space, with no space
    at either end; preprocessing its own output changes nothing. *)
Theorem preprocess_text_normal_form (text : string) :
  (exists ws,
      preprocess_text text = join " " ws
      /\ Forall (fun w => w <> EmptyString /\ all_chars is_model_char w = true)
                ws)
  /\ preprocess_text (preprocess_text text) = preprocess_text text.
Proof.
  split; [|apply preprocess_text_idempotent].
  exists (words (blank_out (lower text))).
  split; [reflexivity | apply preprocess_text_words].
Qed.

(** ** The model-based generator *)

(** X4: every candidate of the model-based generator names a class of the
    classifier, is labelled ml_predicted and carries a probability strictly
    above one half; there are never more candidates than classes; and the
    generator sees the text only through [preprocess_text], so a text, its
    lowercased form and its preprocessed form give the same candidates. *)
Theorem extract_ml_based_threshold (m : classifier) (text : string) :
  Forall (fun s =>
            In (name s) (classes_ m)
            /\ type s = Some "ml_predicted"
            /\ exists p, confidence s = Some (Float p)
                         /\ PrimFloat.ltb 0.5%float p = true)
         (extract_ml_based m text)
  /\ (List.length (extract_ml_based m text) <= List.length (classes_ m))%nat
  /\ extract_ml_based m (lower text) = extract_ml_based m text
  /\ extract_ml_based m (preprocess_text text) = extract_ml_based m text.
Proof.
  unfold extract_ml_based.
  set (f := fun cp : string * float =>
              if PrimFloat.ltb 0.5%float (snd cp)
              then [mkSkill (fst cp) None (Some "ml_predicted") None None None
                            (Some (Float (snd cp))) None]
              else []).
  split; [|split; [|split]].
  - apply Forall_forall. intros s Hs.
    apply in_flat_map in Hs as [[c p] [Hin Hs]]. unfold f in Hs. simpl in Hs.
    destruct (PrimFloat.ltb 0.5%float p) eqn:E; [|destruct Hs].
    destruct Hs as [<- | []]. simpl. repeat split.
    + eapply in_combine_l; eassumption.
    + now exists p.
  - generalize (predict_proba m (preprocess_text text)) as ps.
    generalize (classes_ m) as cs.
    induction cs as [|c cs IH]; intros [|p ps]; simpl; try lia.
    rewrite length_app. specialize (IH ps).
    unfold f at 1. simpl. destruct (PrimFloat.ltb 0.5%float p); simpl; lia.
  - unfold preprocess_text. now rewrite lower_idempotent.
  - now rewrite preprocess_text_idempotent.
Qed.

(** ** More on the merge step *)

Lemma dict_set_absent {V : Type} k (v : V) d :
  ~ In k (map fst d) -> dict_set k v d = (d ++ [(k, v)])%list.
Proof.
  induction d as [|[k' v'] d IH]; simpl; intros H; [reflexivity|].
  destruct (String.eqb_spec k k') as [-> | Hk]; [tauto|].
  rewrite IH; tauto.
Qed.

Lemma dict_set_present {V : Type} k (v : V) d :
  In k (map fst d) -> map fst (dict_set k v d) = map fst d.
Proof.
  induction d as [|[k' v'] d IH]; simpl; intros H; [tauto|].
  destruct (String.eqb_spec k k') as [-> | Hk]; [reflexivity|].
  simpl. rewrite IH; [reflexivity|]. destruct H; congruence.
Qed.

Section MergeMore.
Variable ratio : string -> string -> Z.

(** The keys after one candidate: unchanged, or extended by the
    candidate's own key, which was absent. *)
Lemma combine_step_keys acc s :
  map fst (combine_step ratio acc s) = map fst acc
  \/ map fst (combine_step ratio acc s)
     = (map fst acc ++ [lower (name s)])%list
     /\ ~ In (lower (name s)) (map fst acc).
Proof.
  unfold combine_step.
  destruct (merge_into ratio (lower (name s)) (source_of s) acc) as [c'|] eqn:E.
  - left. apply merge_into_Some in E as (pre & k & v & post & -> & _ & _ & ->).
    now rewrite !map_app.
  - destruct (in_dec string_dec (lower (name s)) (map fst acc)) as [Hin | Hout].
    + left. now apply dict_set_present.
    + right. split; [|exact Hout].
      rewrite dict_set_absent by exact Hout. now rewrite map_app.
Qed.

Lemma combine_fold_keys cands acc :
  NoDup (map fst acc) ->
  NoDup (map fst (fold_left (combine_step ratio) cands acc))
  /\ (List.length (fold_left (combine_step ratio) cands acc)
      <= List.length acc + List.length cands)%nat
  /\ (forall k, In k (map fst acc) ->
                In k (map fst (fold_left (combine_step ratio) cands acc))).
Proof.
  revert acc. induction cands as [|s cands IH]; intros acc Hnd; simpl.
  - repeat split; trivial. lia.
  - assert (Hstep : NoDup (map fst (combine_step ratio acc s))
                    /\ (List.length (combine_step ratio acc s)
                        <= S (List.length acc))%nat
                    /\ forall k, In k (map fst acc) ->
                                 In k (map fst (combine_step ratio acc s))).
    { destruct (combine_step_keys acc s) as [E | [E Hout]].
      - rewrite E. repeat split; trivial.
        apply (f_equal (@List.length _)) in E. rewrite !length_map in E. lia.
      - rewrite E. repeat split.
        + apply NoDup_app; [exact Hnd | repeat constructor; intros [] |].
          intros k Hk [<- | []]. contradiction.
        + apply (f_equal (@List.length _)) in E.
          rewrite length_app, !length_map in E. simpl in E. lia.
        + intros k Hk. apply in_app_iff. now left. }
    destruct Hstep as (H1 & H2 & H3).
    destruct (IH _ H1) as (I1 & I2 & I3). repeat split; trivial; [lia | auto].
Qed.

Lemma combine_step_covers acc s :
  exists k, In k (map fst (combine_step ratio acc s))
            /\ (k = lower (name s) \/ 85 < ratio (lower (name s)) k).
Proof.
  unfold combine_step.
  destruct (merge_into ratio (lower (name s)) (source_of s) acc) as [c'|] eqn:E.
  - apply merge_into_Some in E as (pre & k & v & post & -> & _ & Hk & ->).
    exists k. split; [|now right]. rewrite map_app. apply in_app_iff.
    right. now left.
  - exists (lower (name s)). split; [|now left].
    destruct (in_dec string_dec (lower (name s)) (map fst acc)) as [Hin | Hout].
    + now rewrite dict_set_present.
    + rewrite dict_set_absent by exact Hout. rewrite map_app.
      apply in_app_iff. right. now left.
Qed.

Lemma combine_fold_covers cands acc c :
  NoDup (map fst acc) ->
  In c cands ->
  exists k, In k (map fst (fold_left (combine_step ratio) cands acc))
            /\ (k = lower (name c) \/ 85 < ratio (lower (name c)) k).
Proof.
  revert acc. induction cands as [|s cands IH]; intros acc Hnd Hin; [destruct Hin|].
  simpl.
  assert (Hnd' : NoDup (map fst (combine_step ratio acc s))).
  { apply (combine_fold_keys [s] acc Hnd). }
  destruct Hin as [-> | Hin]; [|now apply IH].
  destruct (combine_step_covers acc c) as (k & Hk & Hc).
  exists k. split; [|exact Hc].
  now apply (combine_fold_keys cands _ Hnd').
Qed.

Lemma output_keys skill_lists :
  map (fun s => lower (name s)) (combine_skills ratio skill_lists)
  = map fst (fold_left (combine_step ratio) (candidates skill_lists) []).
Proof.
  destruct (well_merged_combine ratio skill_lists) as [_ Hval].
  unfold combine_skills, candidates.
  induction Hval as [|[k v] acc [Hk _] Hval IH]; [reflexivity|].
  simpl in *. now rewrite IH, Hk.
Qed.

Lemma source_count_app l1 l2 :
  source_count (l1 ++ l2) = (source_count l1 + source_count l2)%nat.
Proof. unfold source_count. now rewrite map_app, list_sum_app. Qed.

Lemma combine_step_counts acc s :
  (forall a, 85 < ratio a a) ->
  source_count (map snd (combine_step ratio acc s))
  = S (source_count (map snd acc)).
Proof.
  intros Hrefl. unfold combine_step.
  destruct (merge_into ratio (lower (name s)) (source_of s) acc) as [c'|] eqn:E.
  - apply merge_into_Some in E as (pre & k & v & post & -> & _ & _ & ->).
    rewrite !map_app, !source_count_app. simpl.
    unfold source_count at 2 4. simpl. rewrite length_app. simpl. lia.
  - apply merge_into_None in E.
    rewrite dict_set_absent.
    + rewrite map_app, source_count_app. unfold source_count at 2. simpl. lia.
    + intros Hin. apply in_map_iff in Hin as [[k v] [Hk Hin]].
      rewrite Forall_forall in E. specialize (E _ Hin). simpl in *. subst k.
      specialize (Hrefl (lower (name s))). lia.
Qed.

Lemma combine_step_provenance (P : skill -> Prop) acc s :
  (forall l, P (set_sources s l)) ->
  (forall c l, P c -> P (set_sources c l)) ->
  Forall (fun kv => P (snd kv)) acc ->
  Forall (fun kv => P (snd kv)) (combine_step ratio acc s).
Proof.
  intros Hs Hset Hacc. unfold combine_step.
  destruct (merge_into ratio (lower (name s)) (source_of s) acc) as [c'|] eqn:E.
  - apply merge_into_Some in E as (pre & k & v & post & -> & _ & _ & ->).
    apply Forall_app in Hacc as [Hpre Hpost]. inversion Hpost; subst.
    apply Forall_app. split; trivial. constructor; trivial.
    simpl in *. unfold add_source. now apply Hset.
  - apply dict_set_values; trivial; intros; simpl; apply Hs.
Qed.
End MergeMore.

(** X5: whatever the similarity measure, the merge output holds no two
    skills with the same lowercased name and never more skills than there
    were candidates; it is empty exactly when there were no candidates. *)
Theorem combine_skills_distinct_names (ratio : string -> string -> Z)
    (skill_lists : list (list skill)) :
  NoDup (map (fun s => lower (name s)) (combine_skills ratio skill_lists))
  /\ (List.length (combine_skills ratio skill_lists)
      <= List.length (candidates skill_lists))%nat
  /\ (combine_skills ratio skill_lists = [] <-> candidates skill_lists = []).
Proof.
  rewrite output_keys.
  destruct (combine_fold_keys ratio (candidates skill_lists) [])
    as (H1 & H2 & _); [constructor|].
  split; [exact H1|]. split.
  - unfold combine_skills, candidates in *. rewrite length_map. simpl in H2. lia.
  - split.
    + intros E. destruct (candidates skill_lists) as [|c cands] eqn:Ec; trivial.
      destruct (combine_fold_covers ratio (c :: cands) [] c) as (k & Hk & _);
        [constructor | now left |].
      rewrite <- Ec, <- output_keys, E in Hk. destruct Hk.
    + unfold combine_skills, candidates. now intros ->.
Qed.

(** X6: no candidate is lost in the merge: for every candidate the output
    holds a skill whose lowercased name is the candidate's own or is more
    than 85-similar to it. *)
Theorem combine_skills_covers (ratio : string -> string -> Z)
    (skill_lists : list (list skill)) (c : skill) :
  In c (candidates skill_lists) ->
  exists s,
    In s (combine_skills ratio skill_lists)
    /\ (lower (name s) = lower (name c)
        \/ 85 < ratio (lower (name c)) (lower (name s))).
Proof.
  intros Hin.
  destruct (combine_fold_covers ratio (candidates skill_lists) [] c)
    as (k & Hk & Hc); [constructor | exact Hin |].
  rewrite <- output_keys in Hk. apply in_map_iff in Hk as [s [<- Hs]].
  exists s. split; trivial.
Qed.

Lemma combine_skills_covers_witness :
  exists s,
    In s (combine_skills equality_ratio
            [[python_skill; react_skill]; [leadership_skill; python_skill]])
    /\ (lower (name s) = lower (name leadership_skill)
        \/ 85 < equality_ratio (lower (name leadership_skill)) (lower (name s))).
Proof.
  apply (combine_skills_covers equality_ratio
           [[python_skill; react_skill]; [leadership_skill; python_skill]]).
  simpl. tauto.
Defined.

(** X7: when the similarity measure rates every string more than
    85-similar to itself, as fuzz.ratio does, each candidate adds exactly
    one entry to the sources lists: the entries of all sources lists of
    the output number as many as the candidates. *)
Theorem combine_skills_counts_candidates (ratio : string -> string -> Z)
    (skill_lists : list (list skill)) :
  (forall a, 85 < ratio a a) ->
  source_count (combine_skills ratio skill_lists)
  = List.length (candidates skill_lists).
Proof.
  intros Hrefl. unfold combine_skills. fold (candidates skill_lists).
  assert (H : forall cands acc,
             source_count (map snd (fold_left (combine_step ratio) cands acc))
             = (source_count (map snd acc) + List.length cands)%nat).
  { induction cands as [|s cands IH]; intros acc; simpl; [lia|].
    rewrite IH, combine_step_counts by exact Hrefl. lia. }
  now rewrite H.
Qed.

Lemma combine_skills_counts_candidates_witness :
  source_count
    (combine_skills equality_ratio
       [[python_skill; react_skill]; [leadership_skill; python_skill]])
  = 4%nat.
Proof.
  apply (combine_skills_counts_candidates equality_ratio
           [[python_skill; react_skill]; [leadership_skill; python_skill]]).
  intros a. unfold equality_ratio. rewrite String.eqb_refl. lia.
Defined.

(** X8: the merge step invents nothing: every skill of the output is one
    of the candidates with nothing but its sources list replaced, so name,
    category, type, matched text and context are those of a single
    candidate. *)
Theorem combine_skills_provenance (ratio : string -> string -> Z)
    (skill_lists : list (list skill)) :
  Forall (fun s => exists c l,
              In c (candidates skill_lists) /\ s = set_sources c l)
         (combine_skills ratio skill_lists).
Proof.
  unfold combine_skills. fold (candidates skill_lists).
  set (P := fun s => exists c l,
                 In c (candidates skill_lists) /\ s = set_sources c l).
  assert (H : forall cands acc,
             (forall c, In c cands -> In c (candidates skill_lists)) ->
             Forall (fun kv => P (snd kv)) acc ->
             Forall (fun kv => P (snd kv))
                    (fold_left (combine_step ratio) cands acc)).
  { induction cands as [|s cands IH]; intros acc Hsub Hacc; simpl; trivial.
    apply IH; [intros c Hc; apply Hsub; now right|].
    apply combine_step_provenance; trivial.
    - intros l. exists s, l. split; [apply Hsub; now left | reflexivity].
    - intros c l (c0 & l0 & Hc0 & ->). now exists c0, l. }
  apply Forall_map. apply H; [auto | constructor].
Qed.

(** ** More on the scorer and the pipeline *)

Lemma count_from_absent sub s :
  contains sub s = false -> forall skip, count_from skip sub s = 0%nat.
Proof.
  induction s as [|c s IH]; intros H skip.
  - simpl in *. destruct sub; [discriminate|]. now destruct skip.
  - cbn [contains] in H. apply orb_false_iff in H as [H1 H2].
    cbn [count_from]. destruct skip as [|k]; [|now apply IH].
    rewrite H1. now apply IH.
Qed.

Lemma count_present sub s :
  contains sub s = true -> (1 <= count sub s)%nat.
Proof.
  unfold count. induction s as [|c s IH]; intros H.
  - simpl in *. destruct sub; [lia | discriminate].
  - cbn [contains] in H. cbn [count_from].
    destruct (startswith sub (String c s)); [lia|]. simpl in H. auto.
Qed.

Lemma occurs_inside a b c s : occurs (a ++ b ++ c) s -> occurs b s.
Proof.
  intros (pre & post & ->). exists (pre ++ a), (c ++ post).
  now rewrite !append_assoc.
Qed.

(** X9: a skill whose lowercased name does not occur in the lowercased
    text earns no frequency, proficiency or section bonus: its confidence
    is 60 plus 10 per entry of its sources list, capped at 95. *)
Theorem confidence_without_occurrence (s : skill) (text_lower : string) :
  ~ occurs (lower (name s)) text_lower ->
  confidence_of s text_lower
  = Z.min (60 + 10 * Z.of_nat (List.length (or_default (sources s) []))) 95.
Proof.
  intros Hno. unfold confidence_of.
  assert (Hc : contains (lower (name s)) text_lower = false).
  { destruct (contains _ _) eqn:E; trivial. now apply contains_occurs in E. }
  rewrite (count_from_absent _ _ Hc 0%nat : count _ _ = 0%nat).
  assert (Hp : has_proficiency (lower (name s)) text_lower = false).
  { destruct (has_proficiency _ _) eqn:E; trivial.
    apply has_proficiency_occurs in E as (term & _ & [H | H]).
    - exfalso. apply Hno. apply (occurs_inside (term ++ " ") _ EmptyString).
      rewrite append_assoc.
      replace (lower (name s) ++ EmptyString) with (lower (name s)); trivial.
      clear. induction (lower (name s)); simpl; congruence.
    - exfalso. apply Hno. now apply (occurs_inside EmptyString _ (" " ++ term)). }
  assert (Hs : search_after_skills (lower (name s)) text_lower = false).
  { destruct (search_after_skills _ _) eqn:E; trivial.
    apply search_after_skills_occurs in E as (pre & mid & post & ->).
    exfalso. apply Hno. exists (pre ++ "skills" ++ mid), post.
    now rewrite !append_assoc. }
  rewrite Hp, Hs. change (Z.of_nat 0) with 0.
  destruct (sources s); cbn [or_default List.length]; lia.
Qed.

Lemma confidence_without_occurrence_witness :
  confidence_of kubernetes_skill (lower "Seasoned Python developer") = 70.
Proof.
  apply (confidence_without_occurrence kubernetes_skill).
  intros H. apply contains_occurs in H. vm_compute in H. discriminate.
Defined.

(** X10: a skill whose canonical name is found in the lowercased text as a
    whole word and whose sources list is not empty scores at least 75:
    the base, one occurrence and one source. *)
Theorem confidence_of_canonical_match (s : skill) (text_lower : string)
    (l : list string) :
  find_skill_in_text (name s) text_lower = true ->
  sources s = Some l ->
  l <> [] ->
  75 <= confidence_of s text_lower <= 95.
Proof.
  intros Hfind Hl Hne. split; [|apply confidence_of_bounds].
  apply find_skill_in_text_spec in Hfind as (pre & post & Htext & _).
  assert (Hc : contains (lower (name s)) text_lower = true).
  { apply contains_occurs. now exists pre, post. }
  apply count_present in Hc. unfold confidence_of. rewrite Hl.
  assert (1 <= Z.of_nat (List.length l)) by (destruct l; [congruence | simpl; lia]).
  destruct (has_proficiency _ _), (search_after_skills _ _); lia.
Qed.

Lemma confidence_of_canonical_match_witness :
  75 <= confidence_of python_merged (lower example_text) <= 95.
Proof.
  apply (confidence_of_canonical_match python_merged (lower example_text)
           ["technical"]);
    [reflexivity | reflexivity | discriminate].
Defined.

Lemma combine_skills_nonempty ratio skill_lists c :
  In c (candidates skill_lists) ->
  exists s, In s (combine_skills ratio skill_lists).
Proof.
  intros Hin.
  destruct (combine_fold_covers ratio (candidates skill_lists) [] c)
    as (k & Hk & _); [constructor | exact Hin |].
  rewrite <- output_keys in Hk. apply in_map_iff in Hk as [s [_ Hs]].
  now exists s.
Qed.

Lemma rule_candidates_found label text_lower n info m :
  In m (n :: or_default (aliases info) []) ->
  find_skill_in_text m text_lower = true ->
  rule_candidates label text_lower (n, info) <> [].
Proof.
  intros Hin Hm. unfold rule_candidates.
  destruct (find_skill_in_text n text_lower) eqn:E; [discriminate|].
  destruct Hin as [<- | Hin]; [congruence|].
  destruct (find _ _) eqn:F; [discriminate|].
  pose proof (find_none _ _ F _ Hin) as H. simpl in H. congruence.
Qed.

Lemma flat_map_nonempty {A B : Type} (f : A -> list B) l x :
  In x l -> f x <> [] -> flat_map f l <> [].
Proof.
  intros Hin Hx E. destruct (f x) as [|y ys] eqn:Ef; [congruence|].
  assert (In y (flat_map f l)).
  { apply in_flat_map. exists x. split; trivial. rewrite Ef. now left. }
  rewrite E in H. destruct H.
Qed.

Lemma dict_get_In {V : Type} (d : dict V) k v :
  dict_get d k = Some v -> In (k, v) d.
Proof.
  induction d as [|[k' v'] d IH]; simpl; [discriminate|].
  destruct (String.eqb_spec k k') as [-> | Hk].
  - intros H. injection H as ->. now left.
  - intros H. right. now apply IH.
Qed.

Lemma float_of_int_small c : 0 <= c <= 95 -> float_of_int c <> None.
Proof.
  intros Hc.
  assert (Hin : In c (map Z.of_nat (seq 0 96))).
  { apply in_map_iff. exists (Z.to_nat c). split; [lia|].
    apply in_seq. lia. }
  assert (Hall :
    forallb (fun c => match float_of_int c with
                      | Some _ => true
                      | None => false
                      end)
            (map Z.of_nat (seq 0 96)) = true) by (vm_compute; reflexivity).
  rewrite forallb_forall in Hall. specialize (Hall _ Hin).
  now destruct (float_of_int c).
Qed.

Lemma importance_of_scored db s c :
  weights_fit_float db ->
  confidence s = Some (Int c) -> 0 <= c <= 95 ->
  importance_of db s <> None.
Proof.
  intros Hdb Hc Hr. unfold importance_of. rewrite Hc. cbn [or_default].
  assert (Hadd : forall v,
             match dict_get (technical_skills db) (name s) with
             | Some info =>
                 add_int v (or_default (db_importance info) 5 * 5)
             | None => Some v
             end <> None).
  { intros v.
    destruct (dict_get (technical_skills db) (name s)) as [info|] eqn:E;
      [|discriminate].
    apply dict_get_In in E. unfold weights_fit_float in Hdb.
    rewrite Forall_forall in Hdb. specialize (Hdb _ E). cbn [snd] in Hdb.
    destruct v as [a|f]; cbn [add_int]; [discriminate|].
    now destruct (float_of_int (or_default (db_importance info) 5 * 5)). }
  destruct (is_technical s); [|apply Hadd].
  cbn [mul_float]. pose proof (float_of_int_small c Hr) as Hf.
  destruct (float_of_int c) as [g|]; [|congruence]. apply Hadd.
Qed.

Lemma Forall2_In_right {A B : Type} (R : A -> B -> Prop) l l' y :
  Forall2 R l l' -> In y l' -> exists x, In x l /\ R x y.
Proof.
  induction 1 as [|x y' l l' Hxy _ IH]; intros Hin; [destruct Hin|].
  destruct Hin as [-> | Hin].
  - exists x. split; [now left | exact Hxy].
  - destruct (IH Hin) as (x' & Hx' & Hr). exists x'. split; [now right | exact Hr].
Qed.

Lemma score_skills_Some db skills :
  Forall (fun s => importance_of db s <> None) skills ->
  exists scored, score_skills db skills = Some scored.
Proof.
  induction 1 as [|s skills Hs _ [scored IH]]; [now exists []|].
  cbn [score_skills]. destruct (importance_of db s) as [v|]; [|congruence].
  rewrite IH. now eexists.
Qed.

(** X11: the pipeline degrades gracefully: for a taxonomy whose weights
    fit a float, as those of the built-in one do, when the canonical name
    or an alias of an entry of the technical or the soft table occurs in
    the text as a whole word, [extract] returns at least one skill, with
    or without a trained model and whatever the similarity measure; and
    every skill it returns carries a non-empty sources list, a confidence
    between 70 and 95 and an importance score. *)
Theorem extract_degrades_gracefully (ratio : string -> string -> Z)
    (db : skill_db) (model : option classifier) (text : string)
    (n : string) (info : skill_info) (m : string) :
  weights_fit_float db ->
  In (n, info) (technical_skills db ++ soft_skills db)%list ->
  In m (n :: or_default (aliases info) []) ->
  occurs_as_word (lower m) (lower text) ->
  exists skills,
    extract ratio db model text = Some skills
    /\ skills <> []
    /\ Forall (fun s => exists l c i,
                  sources s = Some l /\ l <> []
                  /\ confidence s = Some (Int c) /\ 70 <= c <= 95
                  /\ importance_score s = Some i)
              skills.
Proof.
  intros Hdb Hentry Hm Hocc. apply find_skill_in_text_spec in Hocc.
  unfold extract.
  set (ml := match model with Some m0 => extract_ml_based m0 text | None => [] end).
  set (lists := [extract_rule_based db text; ml; extract_pattern_based text]).
  assert (Hrule : extract_rule_based db text <> []).
  { unfold extract_rule_based, rule_tables. simpl. rewrite app_nil_r.
    apply in_app_iff in Hentry as [H | H].
    - intros E. apply app_eq_nil in E as [E _]. revert E.
      eapply flat_map_nonempty; [exact H|].
      eapply rule_candidates_found; eassumption.
    - intros E. apply app_eq_nil in E as [_ E]. revert E.
      eapply flat_map_nonempty; [exact H|].
      eapply rule_candidates_found; eassumption. }
  set (scored_in := calculate_confidence (combine_skills ratio lists) text).
  assert (Hin : Forall (fun s => exists l c,
                          sources s = Some l /\ l <> []
                          /\ confidence s = Some (Int c) /\ 70 <= c <= 95)
                       scored_in).
  { apply Forall_forall. intros s Hs. unfold scored_in in Hs.
    unfold calculate_confidence in Hs. apply in_map_iff in Hs as [s0 [<- Hs]].
    destruct (well_merged_combine ratio lists) as [_ Hval].
    unfold combine_skills in Hs. apply in_map_iff in Hs as [[k v] [<- Hin]].
    rewrite Forall_forall in Hval. destruct (Hval _ Hin) as [_ [l [Hl Hne]]].
    simpl in *. exists l, (confidence_of v (lower text)).
    repeat split; trivial; try apply confidence_of_bounds.
    unfold confidence_of. rewrite Hl.
    assert (1 <= Z.of_nat (List.length l))
      by (destruct l; [congruence | simpl; lia]).
    destruct (has_proficiency _ _), (search_after_skills _ _); lia. }
  destruct (score_skills_Some db scored_in) as [scored Hscored].
  { eapply Forall_impl; [|exact Hin].
    intros s (l & c & _ & _ & Hc & Hr).
    apply (importance_of_scored db s c Hdb Hc). lia. }
  pose proof (score_skills_spec _ _ _ Hscored) as Hspec.
  exists (sort_desc sort_key scored). split; [|split].
  - unfold rank_skills. now rewrite Hscored.
  - intros E.
    pose proof (Permutation_length (sort_desc_perm sort_key scored)) as Hlen.
    rewrite E in Hlen. apply Forall2_length in Hspec. simpl in Hlen.
    assert (Hc : exists c, In c (candidates lists)).
    { unfold candidates, lists. simpl.
      destruct (extract_rule_based db text) as [|c cs]; [congruence|].
      exists c. now left. }
    destruct Hc as [c Hc].
    destruct (combine_skills_nonempty ratio lists c Hc) as [s Hs].
    unfold scored_in, calculate_confidence in Hspec. rewrite length_map in Hspec.
    destruct (combine_skills ratio lists); [destruct Hs | simpl in Hspec; lia].
  - apply Forall_forall. intros s' Hs'.
    apply (Permutation_in _ (Permutation_sym (sort_desc_perm sort_key scored)))
      in Hs'.
    destruct (Forall2_In_right _ _ _ _ Hspec Hs') as (s & Hs & v & _ & ->).
    rewrite Forall_forall in Hin.
    destruct (Hin s Hs) as (l & c & Hl & Hne & Hc & Hr).
    exists l, c, v. now repeat split.
Qed.

Lemma extract_degrades_gracefully_witness :
  exists skills,
    extract equality_ratio load_skill_database None example_text = Some skills
    /\ skills <> [].
Proof.
  destruct (extract_degrades_gracefully equality_ratio load_skill_database None
              example_text "Python"
              (mkInfo (Some ["python3"; "py"]) (Some "programming") (Some 10))
              "Python") as (skills & E & Hne & _).
  - repeat constructor; vm_compute; discriminate.
  - simpl. tauto.
  - simpl. tauto.
  - apply find_skill_in_text_spec. vm_compute. reflexivity.
  - now exists skills.
Defined.

Lemma technical_margin c wa wb :
  60 <= c <= 95 ->
  In wa [10; 9; 8] ->
  In wb [None; Some 10; Some 9; Some 8; Some 7] ->
  exists lower_score higher_score,
    match wb with
    | Some w => add_int (Int c) (w * 5)
    | None => Some (Int c)
    end = Some lower_score
    /\ match mul_float (Int c) technical_boost with
       | Some boosted => add_int boosted (wa * 5)
       | None => None
       end = Some higher_score
    /\ lt lower_score higher_score = true.
Proof.
  intros Hc Ha Hb.
  assert (Hin : In c (map Z.of_nat (seq 60 36))).
  { apply in_map_iff. exists (Z.to_nat c). split; [lia|].
    apply in_seq. lia. }
  assert (Hall :
    forallb (fun c =>
      forallb (fun wa =>
        forallb (fun wb =>
          match match wb with
                | Some w => add_int (Int c) (w * 5)
                | None => Some (Int c)
                end,
                match mul_float (Int c) technical_boost with
                | Some boosted => add_int boosted (wa * 5)
                | None => None
                end with
          | Some x, Some y => lt x y
          | _, _ => false
          end)
          [None; Some 10; Some 9; Some 8; Some 7])
        [10; 9; 8])
      (map Z.of_nat (seq 60 36)) = true) by (vm_compute; reflexivity).
  rewrite forallb_forall in Hall. specialize (Hall _ Hin).
  rewrite forallb_forall in Hall. specialize (Hall _ Ha).
  rewrite forallb_forall in Hall. specialize (Hall _ Hb).
  destruct (match wb with
            | Some w => add_int (Int c) (w * 5)
            | None => Some (Int c)
            end) as [x|]; [|discriminate].
  destruct (match mul_float (Int c) technical_boost with
            | Some boosted => add_int boosted (wa * 5)
            | None => None
            end) as [y|]; [|discriminate].
  now exists x, y.
Qed.

(** X12: with the built-in taxonomy, a scored skill that carries the
    technical category of its entry in the technical table gets a strictly
    greater importance score than any skill of the same confidence whose
    category is not technical. *)
Theorem technical_outranks_equal_confidence (a b : skill) (c : Z)
    (info : skill_info) :
  60 <= c <= 95 ->
  confidence a = Some (Int c) ->
  confidence b = Some (Int c) ->
  dict_get (technical_skills load_skill_database) (name a) = Some info ->
  category a = info_category info ->
  is_technical a = true ->
  is_technical b = false ->
  exists score_b score_a,
    importance_of load_skill_database b = Some score_b
    /\ importance_of load_skill_database a = Some score_a
    /\ lt score_b score_a = true.
Proof.
  intros Hc Ha Hb Hinfo Hcat Hta Htb.
  unfold importance_of. rewrite Ha, Hb, Hta, Htb, Hinfo. cbn [or_default].
  assert (Hwa : In (or_default (db_importance info) 5) [10; 9; 8]).
  { apply dict_get_In in Hinfo. unfold is_technical in Hta. rewrite Hcat in Hta.
    simpl in Hinfo.
    destruct Hinfo as [H | [H | [H | [H | [H | []]]]]];
      injection H as _ <-; simpl in *; try tauto; discriminate. }
  destruct (dict_get (technical_skills load_skill_database) (name b))
    as [info_b|] eqn:Eb.
  - assert (Hwb : In (Some (or_default (db_importance info_b) 5))
                     [None; Some 10; Some 9; Some 8; Some 7]).
    { apply dict_get_In in Eb. simpl in Eb.
      destruct Eb as [H | [H | [H | [H | [H | []]]]]];
        injection H as _ <-; simpl; tauto. }
    exact (technical_margin c _ _ Hc Hwa Hwb).
  - apply (technical_margin c _ None Hc Hwa). simpl. tauto.
Qed.

Lemma technical_outranks_equal_confidence_witness :
  exists score_b score_a,
    importance_of load_skill_database docker_skill = Some score_b
    /\ importance_of load_skill_database react_skill = Some score_a
    /\ lt score_b score_a = true.
Proof.
  apply (technical_outranks_equal_confidence react_skill docker_skill 75
           (mkInfo (Some ["react.js"; "reactjs"]) (Some "web") (Some 8)));
    (reflexivity || lia).
Defined.

(** * Further properties of the document parser *)

Import ParserTerms.

(** ** Dispatch on the file name *)

Lemma lower_char_dot c : Ascii.eqb "." (lower_char c) = Ascii.eqb "." c.
Proof.
  destruct c as [[] [] [] [] [] [] [] []]; vm_compute; reflexivity.
Qed.

Lemma split_on_dot_lower s :
  split_on (Ascii.eqb ".") (lower s) = map lower (split_on (Ascii.eqb ".") s).
Proof.
  induction s as [|c s IH]; [reflexivity|].
  cbn [lower split_on]. rewrite lower_char_dot, IH.
  destruct (Ascii.eqb "." c); [reflexivity|].
  destruct (split_on_cons (Ascii.eqb ".") s) as (w & ws & ->). reflexivity.
Qed.

Lemma last_map_lower l :
  last (map lower l) EmptyString = lower (last l EmptyString).
Proof.
  induction l as [|x l IH]; [reflexivity|].
  destruct l as [|y l]; [reflexivity|]. exact IH.
Qed.

Lemma file_extension_lower filename :
  file_extension (lower filename) = file_extension filename.
Proof.
  unfold file_extension.
  now rewrite split_on_dot_lower, last_map_lower, lower_idempotent.
Qed.

Lemma split_on_plain delim s :
  any_char delim s = false -> split_on delim s = [s].
Proof.
  induction s as [|c s IH]; intros H; simpl; [reflexivity|].
  simpl in H. apply orb_false_iff in H as [Hc Hs].
  now rewrite Hc, IH.
Qed.

Lemma file_extension_suffix stem ext :
  any_char (Ascii.eqb ".") ext = false ->
  file_extension (stem ++ String "." ext) = lower ext.
Proof.
  intros H. unfold file_extension.
  rewrite split_on_app by reflexivity.
  rewrite (split_on_plain _ _ H). now rewrite last_app_cons.
Qed.

(** X13: [parse] chooses the parser by the lowercased text behind the last
    dot of the file name alone: the rest of the name and the case of the
    letters change nothing, so "CV.final.PDF" is parsed as a PDF. *)
Theorem parse_by_extension (libs : libraries) (content stem ext : string) :
  any_char (Ascii.eqb ".") ext = false ->
  file_extension (stem ++ String "." ext) = lower ext
  /\ parse libs content (stem ++ String "." ext)
     = parse libs content (String "." (lower ext))
  /\ (forall filename,
        parse libs content (lower filename) = parse libs content filename).
Proof.
  intros H. split; [now apply file_extension_suffix|]. split.
  - unfold parse.
    rewrite (file_extension_suffix stem ext H).
    change (String "." (lower ext)) with (EmptyString ++ String "." (lower ext)).
    rewrite (file_extension_suffix EmptyString (lower ext)).
    + now rewrite lower_idempotent.
    + clear stem. induction ext as [|c ext IH]; [reflexivity|].
      cbn [lower any_char] in *. apply orb_false_iff in H as [Hc He].
      now rewrite lower_char_dot, Hc, IH.
  - intros filename. unfold parse. now rewrite file_extension_lower.
Qed.

Lemma parse_by_extension_witness :
  file_extension "CV.final.PDF" = "pdf".
Proof.
  apply (parse_by_extension failing_libs EmptyString "CV.final" "PDF").
  reflexivity.
Defined.

(** X14: [parse] raises in two situations only: with the unsupported
    format error, naming the extension, when the extension is none of pdf,
    doc, docx and txt; and with the error of docx2txt when the extension
    is doc or docx and that library raises.  A pdf or txt file never makes
    it raise. *)
Theorem parse_raises_only (libs : libraries) (content filename : string)
    (e : exn) :
  parse libs content filename = Raise e ->
  e = UnsupportedFormat (file_extension filename)
  /\ ~ In (file_extension filename) supported_extensions
  \/ (exists detail, e = LibraryError detail)
     /\ In (file_extension filename) ["doc"; "docx"]
     /\ docx2txt_process libs content = None.
Proof.
  unfold parse, parse_docx, parse_text, supported_extensions.
  cbn [existsb In].
  destruct (String.eqb_spec (file_extension filename) "pdf") as [E1|E1];
    [discriminate|].
  destruct (String.eqb_spec (file_extension filename) "doc") as [E2|E2].
  { cbn [orb]. destruct (docx2txt_process libs content); [discriminate|].
    intros H. injection H as <-. right. rewrite E2. simpl.
    split; [now eexists | tauto]. }
  destruct (String.eqb_spec (file_extension filename) "docx") as [E3|E3].
  { cbn [orb]. destruct (docx2txt_process libs content); [discriminate|].
    intros H. injection H as <-. right. rewrite E3. simpl.
    split; [now eexists | tauto]. }
  destruct (String.eqb_spec (file_extension filename) "txt") as [E4|E4];
    [discriminate|].
  cbn [orb]. intros H. injection H as <-. left. split; [reflexivity|].
  intros [H|[H|[H|[H|[]]]]]; congruence.
Qed.

Lemma parse_raises_only_witness :
  (exists detail, LibraryError "docx2txt" = LibraryError detail)
  /\ In (file_extension "letter.DOCX") ["doc"; "docx"]
  /\ docx2txt_process failing_libs "bytes" = None.
Proof.
  destruct (parse_raises_only failing_libs "bytes" "letter.DOCX"
              (LibraryError "docx2txt") eq_refl) as [[H _] | H].
  - discriminate H.
  - exact H.
Defined.

(** ** PDF extraction *)

Lemma append_nil_r (s : string) : s ++ EmptyString = s.
Proof. induction s; simpl; congruence. Qed.

Lemma ocr_images_extends text images :
  exists suffix, text_of (ocr_images text images) = text ++ suffix.
Proof.
  revert text. induction images as [|img images IH]; intros text; simpl.
  - exists EmptyString. now rewrite append_nil_r.
  - destruct (colour_channels img) as [n|];
      [|exists EmptyString; now rewrite append_nil_r].
    destruct (n <? 4); [|apply IH].
    destruct (ocr_text img) as [t|];
      [|exists EmptyString; now rewrite append_nil_r].
    destruct (IH (text ++ t ++ nl)) as [suffix ->].
    exists (t ++ nl ++ suffix). now rewrite !append_assoc.
Qed.

Lemma read_mupdf_extends text pages :
  exists suffix, text_of (read_mupdf text pages) = text ++ suffix.
Proof.
  revert text. induction pages as [|page pages IH]; intros text; simpl.
  - exists EmptyString. now rewrite append_nil_r.
  - destruct (page_text page) as [t|];
      [|exists EmptyString; now rewrite append_nil_r].
    assert (Hnext : forall text',
               (exists s, text' = (text ++ t ++ nl) ++ s) ->
               exists suffix,
                 text_of (read_mupdf text' pages) = text ++ suffix).
    { intros text' [s ->]. destruct (IH ((text ++ t ++ nl) ++ s)) as [u ->].
      exists (t ++ nl ++ s ++ u). now rewrite !append_assoc. }
    destruct (image_list page) as [[|img images]|].
    + apply Hnext. exists EmptyString. now rewrite append_nil_r.
    + destruct (is_empty _).
      * destruct (ocr_images_extends (text ++ t ++ nl) (img :: images))
          as [s Hs].
        destruct (ocr_images _ _) as [text'|text']; simpl in Hs; subst text'.
        -- apply Hnext. now exists s.
        -- exists (t ++ nl ++ s). simpl. now rewrite !append_assoc.
      * apply Hnext. exists EmptyString. now rewrite append_nil_r.
    + exists (t ++ nl). reflexivity.
Qed.

(** X15: [parse_pdf] never loses what PyPDF2 extracted: the parsed text
    starts with the text of the PyPDF2 pass, whatever PyMuPDF and the OCR
    do afterwards; and a PDF that neither library can open gives the empty
    document, without an exception. *)
Theorem parse_pdf_keeps_pypdf_text (libs : libraries) (content : string) :
  (exists suffix,
      text (parse_pdf libs content)
      = fst (fst (pypdf_pass libs content)) ++ suffix)
  /\ (PdfReader libs content = None ->
      fitz_open libs content = None ->
      parse_pdf libs content = empty_document).
Proof.
  split.
  - unfold parse_pdf, mupdf_pass.
    destruct (pypdf_pass libs content) as [[text0 meta] npages]. simpl.
    destruct (fitz_open libs content) as [pages|].
    + apply read_mupdf_extends.
    + exists EmptyString. now rewrite append_nil_r.
  - intros H1 H2. unfold parse_pdf, pypdf_pass, mupdf_pass.
    now rewrite H1, H2.
Qed.

Lemma strip_blank s : is_empty (strip s) = all_space s.
Proof.
  unfold strip. induction s as [|c s IH]; [reflexivity|].
  cbn [lstrip all_space]. destruct (is_space c) eqn:E; [exact IH|].
  cbn [rstrip all_space]. now rewrite E.
Qed.

Lemma all_space_app a b :
  all_space (a ++ b) = (all_space a && all_space b)%bool.
Proof.
  induction a as [|c a IH]; simpl; [reflexivity|].
  now rewrite IH, andb_assoc.
Qed.

(** X16: the OCR fallback is consulted only while the text gathered so far
    is blank: once it holds a character that is not white space, the
    PyMuPDF pass gives the same result as for the pages without their
    images, so no OCR result or OCR failure can change it. *)
Theorem ocr_only_for_blank_text (text : string) (pages : list mupdf_page) :
  all_space text = false ->
  read_mupdf text pages = read_mupdf text (map without_images pages).
Proof.
  revert text. induction pages as [|page pages IH]; intros text H; simpl.
  - reflexivity.
  - destruct (page_text page) as [t|]; [|reflexivity].
    assert (H' : all_space (text ++ t ++ nl) = false)
      by (rewrite all_space_app, H; reflexivity).
    destruct (image_list page) as [[|img images]|]; simpl.
    + now apply IH.
    + rewrite strip_blank, H'. now apply IH.
    + reflexivity.
Qed.

Lemma ocr_only_for_blank_text_witness :
  read_mupdf "Jane Doe" [scanned_page; scanned_page]
  = read_mupdf "Jane Doe" (map without_images [scanned_page; scanned_page]).
Proof.
  apply (ocr_only_for_blank_text "Jane Doe" [scanned_page; scanned_page]).
  reflexivity.
Defined.

Lemma read_pages_all text ts :
  read_pages text (map Some ts) = Finished (text ++ page_block ts).
Proof.
  revert text. induction ts as [|t ts IH]; intros text; simpl.
  - now rewrite append_nil_r.
  - rewrite IH. now rewrite !append_assoc.
Qed.

Lemma words_from_app_space cur a c b :
  is_space c = true ->
  words_from cur (a ++ String c b)
  = (words_from cur (a ++ String c EmptyString) ++ words b)%list.
Proof.
  intros Hc. revert cur. induction a as [|d a IH]; intros cur.
  - cbn [append words_from]. rewrite Hc. unfold words. now destruct cur.
  - cbn [append words_from].
    destruct (is_space d); [destruct cur|]; cbn [app]; now rewrite IH.
Qed.

Lemma page_block_end ts :
  page_block ts = EmptyString \/ exists a, page_block ts = a ++ nl.
Proof.
  induction ts as [|t ts IH]; [now left|]. right. simpl.
  destruct IH as [-> | [a ->]].
  - exists t. reflexivity.
  - exists (t ++ nl ++ a). now rewrite !append_assoc.
Qed.

Lemma words_after_block ts b :
  words (page_block ts ++ b) = (words (page_block ts) ++ words b)%list.
Proof.
  destruct (page_block_end ts) as [-> | [a ->]]; [reflexivity|].
  unfold words, nl. rewrite append_assoc. cbn [append].
  now rewrite words_from_app_space by reflexivity.
Qed.

Lemma length_append (a b : string) :
  String.length (a ++ b) = (String.length a + String.length b)%nat.
Proof. induction a as [|c a IH]; simpl; [reflexivity | now rewrite IH]. Qed.

Lemma read_mupdf_texts text pages ts :
  map page_text pages = map Some ts ->
  Forall (fun page =>
            exists images,
              image_list page = Some images
              /\ (images = [] \/ all_space text = false))
         pages ->
  read_mupdf text pages = Finished (text ++ page_block ts).
Proof.
  revert text ts. induction pages as [|page pages IH]; intros text ts Ht Hp.
  - destruct ts; [|discriminate]. simpl. now rewrite append_nil_r.
  - destruct ts as [|t ts]; [discriminate|]. cbn [map] in Ht.
    injection Ht as Ht Hts. inversion Hp as [|? ? (images & Hi & Hor) Hrest]; subst.
    cbn [read_mupdf page_block]. rewrite Ht, Hi.
    assert (Hnext : read_mupdf (text ++ t ++ nl) pages
                    = Finished (text ++ t ++ nl ++ page_block ts)).
    { rewrite (IH (text ++ t ++ nl) ts Hts); [now rewrite !append_assoc|].
      eapply Forall_impl; [|exact Hrest].
      intros p (imgs & Hp' & Hor'). exists imgs. split; [exact Hp'|].
      destruct Hor' as [Hnil | Hb]; [now left | right].
      rewrite all_space_app, Hb. reflexivity. }
    destruct images as [|img images]; [exact Hnext|].
    destruct Hor as [Hnil | Hb]; [discriminate|].
    rewrite strip_blank, all_space_app, Hb. exact Hnext.
Qed.

(** X17: when PyPDF2 and PyMuPDF both read every page of a PDF and no OCR
    takes place, because no page carries an image or because the text of
    PyPDF2 already holds a character that is not white space, the parsed
    text holds the document twice, the pages as PyPDF2 gives them followed
    by the pages as PyMuPDF gives them, and the length and the word count
    are the sums of the two. *)
Theorem parse_pdf_reads_twice (libs : libraries) (content : string)
    (ts1 ts2 : list string) (info : option (dict string))
    (document : list mupdf_page) :
  PdfReader libs content = Some (mkPypdf (map Some ts1) info) ->
  fitz_open libs content = Some document ->
  map page_text document = map Some ts2 ->
  Forall (fun page =>
            exists images,
              image_list page = Some images
              /\ (images = [] \/ all_space (page_block ts1) = false))
         document ->
  text (parse_pdf libs content) = page_block ts1 ++ page_block ts2
  /\ CVParser.length (parse_pdf libs content)
     = Z.of_nat (String.length (page_block ts1))
       + Z.of_nat (String.length (page_block ts2))
  /\ word_count (parse_pdf libs content)
     = Z.of_nat (List.length (words (page_block ts1)))
       + Z.of_nat (List.length (words (page_block ts2))).
Proof.
  intros H1 H2 Ht Hp. unfold parse_pdf, pypdf_pass, mupdf_pass.
  rewrite H1, H2. cbn [reader_pages]. rewrite read_pages_all.
  cbn [append]. cbn [parsed_of text CVParser.length word_count].
  rewrite (read_mupdf_texts _ _ ts2 Ht Hp). cbn [text_of].
  rewrite words_after_block, length_app, length_append. repeat split; lia.
Qed.

Lemma parse_pdf_reads_twice_witness :
  text (parse_pdf illustrated_libs "bytes")
  = "Jane Doe" ++ nl ++ "Skills: Go" ++ nl ++ "Jane  Doe" ++ nl
    ++ "Skills: Go" ++ nl
  /\ word_count (parse_pdf illustrated_libs "bytes") = 4 + 4.
Proof.
  destruct (parse_pdf_reads_twice illustrated_libs "bytes"
              ["Jane Doe"; "Skills: Go"] ["Jane  Doe"; "Skills: Go"] None
              [mkPage (Some "Jane  Doe") (Some [java_image]);
               text_page "Skills: Go"]) as (Ht & _ & Hw);
    try reflexivity.
  - repeat constructor; eexists; (split; [reflexivity|]);
      [now right | now left].
  - split; [exact Ht | exact Hw].
Defined.

Lemma parse_pdf_metadata libs content ts info :
  PdfReader libs content = Some (mkPypdf (map Some ts) (Some info)) ->
  info <> [] ->
  metadata (parse_pdf libs content)
  = [ ("title", or_default (dict_get info "/Title") EmptyString);
      ("author", or_default (dict_get info "/Author") EmptyString);
      ("subject", or_default (dict_get info "/Subject") EmptyString) ].
Proof.
  intros H Hne. unfold parse_pdf, pypdf_pass. rewrite H.
  cbn [reader_pages reader_metadata]. rewrite read_pages_all.
  destruct info as [|entry info]; [congruence | reflexivity].
Qed.

(** ** More on the section segmenter *)

Lemma dict_set_nodup {V : Type} k (v : V) d :
  NoDup (map fst d) -> NoDup (map fst (dict_set k v d)).
Proof.
  intros H.
  destruct (in_dec string_dec k (map fst d)) as [Hin | Hout].
  - rewrite dict_set_present by exact Hin. exact H.
  - rewrite dict_set_absent by exact Hout. rewrite map_app.
    apply NoDup_app; [exact H | repeat constructor; intros [] |].
    intros k' Hk' [<- | []]. contradiction.
Qed.

Lemma fold_store_nodup segs d :
  NoDup (map fst d) -> NoDup (map fst (fold_left store segs d)).
Proof.
  revert d. induction segs as [|[k b] segs IH]; intros d H; [exact H|].
  simpl. apply IH. unfold store. simpl. destruct b; [exact H|].
  now apply dict_set_nodup.
Qed.

Lemma fold_store_values (P : string * string -> Prop) segs d :
  Forall (fun seg => snd seg <> [] -> P (fst seg, join nl (snd seg))) segs ->
  Forall P d -> Forall P (fold_left store segs d).
Proof.
  revert d. induction segs as [|[k b] segs IH]; intros d Hs Hd; [exact Hd|].
  inversion Hs as [|? ? Hseg Hrest]; subst. simpl. apply IH; [exact Hrest|].
  unfold store. simpl in *. destruct b as [|x b]; [exact Hd|].
  apply dict_set_values; trivial.
  - apply Hseg. discriminate.
  - intros k' Hk. apply String.eqb_eq in Hk as <-. apply Hseg. discriminate.
Qed.

Lemma segments_sound all_lines cur body lines :
  In cur section_keys ->
  Forall (fun line => In line all_lines /\ classify line = Body) body ->
  (forall line, In line lines -> In line all_lines) ->
  Forall (fun seg =>
            In (fst seg) section_keys
            /\ Forall (fun line => In line all_lines /\ classify line = Body)
                      (snd seg))
         (segments cur body lines).
Proof.
  revert cur body. induction lines as [|line lines IH]; intros cur body Hc Hb Hl.
  - cbn [segments]. constructor; [now split | constructor].
  - cbn [segments]. destruct (classify line) as [key| |] eqn:E.
    + constructor; [now split|]. apply IH; [|constructor|].
      * unfold classify in E.
        destruct (find_header (lower (strip line))) as [h|] eqn:F.
        -- injection E as <-. right. apply in_map.
           apply find_some in F. tauto.
        -- destruct (is_empty _); discriminate.
      * intros l Hin. apply Hl. now right.
    + apply IH; trivial.
      * apply Forall_app. split; trivial. repeat constructor; trivial.
        apply Hl. now left.
      * intros l Hin. apply Hl. now right.
    + apply IH; trivial. intros l Hin. apply Hl. now right.
Qed.

Lemma split_join body :
  body <> [] ->
  Forall (fun line => any_char (Ascii.eqb newline) line = false) body ->
  split_on (Ascii.eqb newline) (join nl body) = body.
Proof.
  intros Hne H. induction H as [|x body Hx Hb IH]; [congruence|].
  destruct body as [|y body].
  - simpl. now apply split_on_plain.
  - change (join nl (x :: y :: body))
      with (x ++ String newline (join nl (y :: body))).
    rewrite split_on_app by apply Ascii.eqb_refl.
    rewrite (split_on_plain _ _ Hx), IH by discriminate. reflexivity.
Qed.

Lemma body_line_not_empty line : classify line = Body -> line <> EmptyString.
Proof. intros H ->. vm_compute in H. discriminate. Qed.

(** X18: in the dict of [extract_sections] every key occurs once and is
    'header' or a label of the vocabulary with its spaces turned into
    underscores; every value is non-empty, and its lines are lines of the
    text that are neither blank nor header lines. *)
Theorem extract_sections_entries (text : string) :
  NoDup (map fst (extract_sections text))
  /\ Forall (fun kv =>
               In (fst kv) section_keys
               /\ snd kv <> EmptyString
               /\ Forall (fun line =>
                            In line (split_on (Ascii.eqb newline) text)
                            /\ classify line = Body)
                         (split_on (Ascii.eqb newline) (snd kv)))
            (extract_sections text).
Proof.
  unfold extract_sections. rewrite fold_seg_step.
  cbn [current_section section_content sections].
  set (lines := split_on (Ascii.eqb newline) text).
  split; [apply fold_store_nodup; constructor|].
  apply fold_store_values; [|constructor].
  pose proof (segments_sound lines "header" [] lines) as Hs.
  eapply Forall_impl; [|apply Hs; [now left | constructor | auto]].
  intros [k b] [Hk Hb] Hne. cbn [fst snd] in *.
  assert (Hnl : Forall (fun line => any_char (Ascii.eqb newline) line = false) b).
  { eapply Forall_impl; [|exact Hb]. intros line [Hin _].
    pose proof (split_on_items (Ascii.eqb newline) text) as Hi.
    rewrite Forall_forall in Hi. now apply Hi. }
  split; [exact Hk|]. split.
  - destruct b as [|x b]; [congruence|].
    inversion Hb as [|? ? [_ Hx] _]; subst.
    apply body_line_not_empty in Hx.
    destruct b; simpl; [exact Hx|]. destruct x; [congruence | discriminate].
  - now rewrite split_join.
Qed.

Lemma segments_headers_only cur lines :
  Forall (fun line => classify line <> Body) lines ->
  Forall (fun seg => snd seg = []) (segments cur [] lines).
Proof.
  revert cur. induction lines as [|line lines IH]; intros cur H.
  - now repeat constructor.
  - inversion H; subst. simpl. destruct (classify line); try congruence.
    + constructor; [reflexivity | now apply IH].
    + now apply IH.
Qed.

(** X19: a line that counts as a header is never part of a section body,
    so what stands on the header line itself is dropped: a text whose
    non-blank lines are all header lines, such as the one line "Skills:
    Python, Java", gives an empty dict. *)
Theorem sections_of_headers_only (text : string) :
  Forall (fun line => classify line <> Body)
         (split_on (Ascii.eqb newline) text) ->
  extract_sections text = [].
Proof.
  intros H. unfold extract_sections. rewrite fold_seg_step.
  cbn [current_section section_content sections].
  apply (segments_headers_only "header") in H.
  induction H as [|[k b] segs Hb _ IH]; [reflexivity|].
  simpl in *. subst b. exact IH.
Qed.

Lemma sections_of_headers_only_witness :
  extract_sections (join nl ["Skills: Python, Java"; ""; "Experienced in Go"])
  = [].
Proof.
  apply sections_of_headers_only.
  repeat constructor; vm_compute; discriminate.
Defined.

Lemma segments_no_header cur body lines :
  Forall (fun line => find_header (lower (strip line)) = None) lines ->
  segments cur body lines
  = [(cur, (body ++ filter (fun line => negb (is_empty (strip line))) lines)%list)].
Proof.
  revert body. induction lines as [|line lines IH]; intros body H.
  - simpl. now rewrite app_nil_r.
  - inversion H as [|? ? Hl Hr]; subst. simpl. unfold classify. rewrite Hl.
    destruct (is_empty (strip line)); simpl.
    + now apply IH.
    + rewrite IH by exact Hr. now rewrite <- app_assoc.
Qed.

(** X20: a text without any header line keeps all its non-blank lines, in
    order and joined by newlines, under the single key 'header'; when all
    its lines are blank, and so for the empty text, the dict is empty. *)
Theorem sections_without_headers (text : string) :
  Forall (fun line => find_header (lower (strip line)) = None)
         (split_on (Ascii.eqb newline) text) ->
  extract_sections text
  = match filter (fun line => negb (is_empty (strip line)))
                 (split_on (Ascii.eqb newline) text) with
    | [] => []
    | body => [("header", join nl body)]
    end.
Proof.
  intros H. unfold extract_sections. rewrite fold_seg_step.
  cbn [current_section section_content sections].
  rewrite (segments_no_header "header" [] _ H). cbn [app fold_left].
  unfold store. cbn [fst snd]. now destruct (filter _ _).
Qed.

Lemma sections_without_headers_witness :
  extract_sections (join nl ["Jane Doe"; "  "; "jane@example.org"])
  = [("header", join nl ["Jane Doe"; "jane@example.org"])].
Proof.
  apply (sections_without_headers
           (join nl ["Jane Doe"; "  "; "jane@example.org"])).
  repeat constructor.
Defined.

(** * Properties of the NLP service *)

Import NLPService.

(** ** Tone *)

Lemma below_negative_not_above_positive p n q mn en mq eq :
  Prim2SF n = S754_finite true mn en ->
  Prim2SF q = S754_finite false mq eq ->
  PrimFloat.ltb p n = true -> PrimFloat.ltb q p = false.
Proof.
  rewrite !FloatAxioms.ltb_spec. intros -> ->. unfold SFltb.
  destruct (Prim2SF p) as [[]|[]| |[] m e]; simpl; congruence.
Qed.

Lemma above_half_above_tenth p :
  PrimFloat.ltb half p = true -> PrimFloat.ltb tenth p = true.
Proof.
  rewrite !FloatAxioms.ltb_spec.
  replace (Prim2SF half) with (S754_finite false 4503599627370496 (-53))
    by (vm_compute; reflexivity).
  replace (Prim2SF tenth) with (S754_finite false 7205759403792794 (-56))
    by (vm_compute; reflexivity).
  destruct (Prim2SF p) as [[]|[]| |[] m e]; cbn [SFltb SFcompare];
    try congruence.
  destruct (Z.compare_spec (-53) e) as [<- | H | H]; try discriminate;
    intros _.
  - reflexivity.
  - destruct (Z.compare_spec (-56) e) as [E | E | E]; try lia; reflexivity.
Qed.

Lemma below_half_below_tenth p :
  PrimFloat.ltb p (PrimFloat.opp half) = true ->
  PrimFloat.ltb p (PrimFloat.opp tenth) = true.
Proof.
  rewrite !FloatAxioms.ltb_spec.
  replace (Prim2SF (PrimFloat.opp half))
    with (S754_finite true 4503599627370496 (-53)) by (vm_compute; reflexivity).
  replace (Prim2SF (PrimFloat.opp tenth))
    with (S754_finite true 7205759403792794 (-56)) by (vm_compute; reflexivity).
  destruct (Prim2SF p) as [[]|[]| |[] m e]; cbn [SFltb SFcompare];
    try congruence.
  destruct (Z.compare_spec e (-53)) as [-> | H | H]; try discriminate;
    intros _.
  - reflexivity.
  - destruct (Z.compare_spec e (-56)) as [E | E | E]; try lia; reflexivity.
Qed.

(** X21: [determine_tone] cuts the polarity scale at 0.5, 0.1, -0.1 and
    -0.5, each bound exclusive: very_positive exactly above 0.5, positive
    exactly above 0.1 and not above 0.5, very_negative exactly below -0.5,
    negative exactly below -0.1 and not below -0.5, and neutral exactly
    when the polarity is neither above 0.1 nor below -0.1, which includes
    a polarity that is not a number. *)
Theorem determine_tone_intervals (p : float) :
  (determine_tone p = "very_positive" <-> PrimFloat.ltb half p = true)
  /\ (determine_tone p = "positive"
      <-> PrimFloat.ltb tenth p = true /\ PrimFloat.ltb half p = false)
  /\ (determine_tone p = "very_negative"
      <-> PrimFloat.ltb p (PrimFloat.opp half) = true)
  /\ (determine_tone p = "negative"
      <-> PrimFloat.ltb p (PrimFloat.opp tenth) = true
          /\ PrimFloat.ltb p (PrimFloat.opp half) = false)
  /\ (determine_tone p = "neutral"
      <-> PrimFloat.ltb tenth p = false
          /\ PrimFloat.ltb p (PrimFloat.opp tenth) = false)
  /\ determine_tone PrimFloat.nan = "neutral"
  /\ determine_tone half = "positive"
  /\ determine_tone tenth = "neutral".
Proof.
  assert (Hhh : PrimFloat.ltb p (PrimFloat.opp half) = true ->
                PrimFloat.ltb half p = false).
  { eapply below_negative_not_above_positive; vm_compute; reflexivity. }
  assert (Hht : PrimFloat.ltb p (PrimFloat.opp half) = true ->
                PrimFloat.ltb tenth p = false).
  { eapply below_negative_not_above_positive; vm_compute; reflexivity. }
  assert (Hth : PrimFloat.ltb p (PrimFloat.opp tenth) = true ->
                PrimFloat.ltb half p = false).
  { eapply below_negative_not_above_positive; vm_compute; reflexivity. }
  assert (Htt : PrimFloat.ltb p (PrimFloat.opp tenth) = true ->
                PrimFloat.ltb tenth p = false).
  { eapply below_negative_not_above_positive; vm_compute; reflexivity. }
  pose proof (above_half_above_tenth p) as Hup.
  pose proof (below_half_below_tenth p) as Hdown.
  unfold determine_tone.
  destruct (PrimFloat.ltb half p) eqn:B1;
    destruct (PrimFloat.ltb tenth p) eqn:B2;
    destruct (PrimFloat.ltb p (PrimFloat.opp half)) eqn:B3;
    destruct (PrimFloat.ltb p (PrimFloat.opp tenth)) eqn:B4;
    try (specialize (Hup eq_refl); discriminate);
    try (specialize (Hdown eq_refl); discriminate);
    try (specialize (Hhh eq_refl); discriminate);
    try (specialize (Hht eq_refl); discriminate);
    try (specialize (Hth eq_refl); discriminate);
    try (specialize (Htt eq_refl); discriminate);
    repeat split; intros; try reflexivity; try discriminate;
    try (match goal with H : _ /\ _ |- _ => destruct H end; discriminate).
Qed.

(** ** Fallback summary *)

Lemma take_all n s : (String.length s <= n)%nat -> take n s = s.
Proof.
  revert n. induction s as [|c s IH]; intros [|n] H; simpl in *; trivial;
    try lia. now rewrite IH by lia.
Qed.

Lemma length_take n s : (String.length (take n s) <= n)%nat.
Proof.
  revert s. induction n as [|n IH]; intros [|c s]; simpl; try lia.
  specialize (IH s). lia.
Qed.

Lemma join_split delim s :
  join (String delim EmptyString) (split_on (Ascii.eqb delim) s) = s.
Proof.
  induction s as [|c s IH]; [reflexivity|].
  cbn [split_on].
  destruct (split_on_cons (Ascii.eqb delim) s) as (w & ws & E).
  rewrite E in *.
  destruct (Ascii.eqb_spec delim c) as [<- | Hc].
  - change (join (String delim EmptyString) (EmptyString :: w :: ws))
      with (String delim (join (String delim EmptyString) (w :: ws))).
    now rewrite IH.
  - destruct ws as [|w' ws].
    + simpl in *. now rewrite IH.
    + change (join (String delim EmptyString) (String c w :: w' :: ws))
        with (String c (join (String delim EmptyString) (w :: w' :: ws))).
      now rewrite IH.
Qed.

Lemma length_join sep l :
  String.length (join sep l)
  = (list_sum (map String.length l)
     + String.length sep * (List.length l - 1))%nat.
Proof.
  induction l as [|x l IH]; [simpl; lia|].
  destruct l as [|y l].
  - simpl. lia.
  - change (join sep (x :: y :: l)) with (x ++ sep ++ join sep (y :: l)).
    rewrite !length_append, IH. simpl. lia.
Qed.

Lemma list_sum_firstn n (l : list nat) :
  (list_sum (firstn n l) <= list_sum l)%nat.
Proof.
  revert n. induction l as [|x l IH]; intros [|n]; simpl; try lia.
  specialize (IH n). lia.
Qed.

Lemma In_firstn_incl {A : Type} n (l : list A) x :
  In x (firstn n l) -> In x l.
Proof.
  revert n. induction l as [|y l IH]; intros [|n]; simpl; try tauto.
  intros [-> | H]; [now left | right; eauto].
Qed.

Lemma count_dot_cons c s :
  count "." (String c s)
  = ((if Ascii.eqb "." c then 1 else 0) + count "." s)%nat.
Proof.
  unfold count. cbn [count_from startswith]. rewrite andb_true_r.
  now destruct (Ascii.eqb "." c).
Qed.

Lemma count_dot_app a b :
  count "." (a ++ b) = (count "." a + count "." b)%nat.
Proof.
  induction a as [|c a IH]; [reflexivity|].
  cbn [append]. rewrite !count_dot_cons, IH. lia.
Qed.

Lemma count_dot_plain s :
  any_char (Ascii.eqb ".") s = false -> count "." s = 0%nat.
Proof.
  induction s as [|c s IH]; intros H; [reflexivity|].
  cbn [any_char] in H. apply orb_false_iff in H as [Hc Hs].
  now rewrite count_dot_cons, Hc, IH.
Qed.

Lemma count_dot_join l :
  Forall (fun w => any_char (Ascii.eqb ".") w = false) l ->
  count "." (join ". " l) = (List.length l - 1)%nat.
Proof.
  induction 1 as [|x l Hx Hl IH]; [reflexivity|].
  destruct l as [|y l].
  - simpl. now apply count_dot_plain.
  - change (join ". " (x :: y :: l)) with (x ++ ". " ++ join ". " (y :: l)).
    rewrite !count_dot_app, IH, (count_dot_plain _ Hx). simpl. lia.
Qed.

(** X22: [generate_summary] looks at the first 1024 characters of the text
    only; when the summarizer raises, it answers with the first three
    pieces between periods of these characters, joined by a period and a
    space, a string of at most 1026 characters with at most two
    periods. *)
Theorem generate_summary_fallback (summarizer : string -> option string)
    (text : string) :
  summarizer (take 1024 text) = None ->
  generate_summary summarizer text
  = join ". " (firstn 3 (split_on (Ascii.eqb ".") (take 1024 text)))
  /\ (String.length (generate_summary summarizer text) <= 1026)%nat
  /\ (count "." (generate_summary summarizer text) <= 2)%nat
  /\ generate_summary summarizer (take 1024 text)
     = generate_summary summarizer text.
Proof.
  intros Hfail.
  assert (Hin : (if Nat.ltb 1024 (String.length text) then take 1024 text
                 else text) = take 1024 text).
  { destruct (Nat.ltb_spec 1024 (String.length text)); [reflexivity|].
    symmetry. now apply take_all. }
  assert (E : generate_summary summarizer text
              = join ". " (firstn 3 (split_on (Ascii.eqb ".") (take 1024 text)))).
  { unfold generate_summary. cbv zeta. rewrite Hin, Hfail. reflexivity. }
  split; [exact E|]. rewrite E.
  set (input := take 1024 text) in *.
  set (pieces := split_on (Ascii.eqb ".") input).
  split; [|split].
  - pose proof (length_take 1024 text) as Hlen. fold input in Hlen.
    rewrite <- (join_split "." input) in Hlen. fold pieces in Hlen.
    rewrite length_join in *.
    pose proof (list_sum_firstn 3 (map String.length pieces)) as Hsum.
    rewrite firstn_map in Hsum.
    pose proof (length_firstn 3 pieces) as Hn.
    simpl String.length in *. lia.
  - rewrite count_dot_join.
    + rewrite length_firstn. lia.
    + pose proof (split_on_items (Ascii.eqb ".") input) as Hi.
      fold pieces in Hi. rewrite Forall_forall in *.
      intros w Hw. apply Hi. eapply In_firstn_incl. exact Hw.
  - unfold generate_summary. cbv zeta.
    pose proof (length_take 1024 text) as Hlen. fold input in Hlen.
    destruct (Nat.ltb_spec 1024 (String.length input)); [lia|].
    fold input in Hfail. now rewrite Hfail.
Qed.

Lemma generate_summary_fallback_witness :
  generate_summary (fun _ => None) "Ph.D. in physics. Ten years at CERN. More."
  = "Ph. D.  in physics".
Proof.
  apply (generate_summary_fallback (fun _ => None)
           "Ph.D. in physics. Ten years at CERN. More.").
  reflexivity.
Defined.

(** ** Grouping of named entities *)

Lemma dict_get_group_entity grouped e t :
  dict_get (group_entity grouped e) t
  = if String.eqb t (entity_group e)
    then Some (or_default (dict_get grouped (entity_group e)) [] ++ [word e])%list
    else dict_get grouped t.
Proof.
  unfold group_entity. rewrite dict_get_set.
  destruct (String.eqb_spec t (entity_group e)) as [-> | Hne].
  - f_equal. f_equal.
    destruct (dict_get grouped (entity_group e)) eqn:E.
    + now rewrite E.
    + now rewrite dict_get_set, String.eqb_refl.
  - destruct (dict_get grouped (entity_group e)); [reflexivity|].
    rewrite dict_get_set. now destruct (String.eqb_spec t (entity_group e)).
Qed.

Lemma dict_get_fold_group es grouped t :
  dict_get (fold_left group_entity es grouped) t
  = match dict_get grouped t,
          filter (fun e => String.eqb t (entity_group e)) es with
    | None, [] => None
    | o, found => Some (or_default o [] ++ map word found)%list
    end.
Proof.
  revert grouped. induction es as [|e es IH]; intros grouped.
  - simpl. destruct (dict_get grouped t); simpl; [now rewrite app_nil_r | reflexivity].
  - cbn [fold_left filter]. rewrite IH, dict_get_group_entity.
    destruct (String.eqb_spec t (entity_group e)) as [-> | Hne].
    + cbn [map or_default]. rewrite <- app_assoc. cbn [app].
      now destruct (dict_get grouped (entity_group e)).
    + reflexivity.
Qed.

Lemma group_entity_nodup grouped e :
  NoDup (map fst grouped) -> NoDup (map fst (group_entity grouped e)).
Proof.
  intros H. unfold group_entity. apply dict_set_nodup.
  destruct (dict_get grouped (entity_group e)); [exact H|].
  now apply dict_set_nodup.
Qed.

(** X23: [extract_entities] groups the words of the NER pipeline by entity
    type: under each type that occurs it stores the words of the entities
    of that type, all of them and in the order found; a type that does not
    occur has no key, and no key occurs twice. *)
Theorem extract_entities_groups (ner_pipeline : string -> list entity)
    (text t : string) :
  dict_get (extract_entities ner_pipeline text) t
  = match filter (fun e => String.eqb t (entity_group e)) (ner_pipeline text)
    with
    | [] => None
    | found => Some (map word found)
    end
  /\ NoDup (map fst (extract_entities ner_pipeline text)).
Proof.
  unfold extract_entities. split.
  - rewrite dict_get_fold_group. cbn [dict_get or_default app].
    now destruct (filter _ _).
  - generalize (ner_pipeline text) as es.
    assert (H : forall es grouped, NoDup (map fst grouped) ->
                NoDup (map fst (fold_left group_entity es grouped))).
    { induction es as [|e es IH]; intros grouped Hg; [exact Hg|].
      simpl. apply IH. now apply group_entity_nodup. }
    intros es. apply H. constructor.
Qed.
(** * Properties of the contact and timeline extraction *)

Import Re NLPRegex NLPTerms.

Lemma last_or_app prev a b :
  last_or prev (a ++ b) = last_or (last_or prev a) b.
Proof.
  revert prev. induction a as [|c a IH]; intros prev; [reflexivity|].
  cbn [append]. rewrite !last_or_cons. apply IH.
Qed.

Lemma last_or_None s : last_or None s = last_char s.
Proof. unfold last_or. now destruct (last_char s). Qed.

Lemma last_or_single prev c : last_or prev (String c EmptyString) = Some c.
Proof. reflexivity. Qed.

Lemma take_length_app w rest : take (String.length w) (w ++ rest) = w.
Proof. induction w as [|c w IH]; simpl; [now destruct rest | now rewrite IH]. Qed.

Lemma app_inv_length (a b c d : string) :
  a ++ b = c ++ d -> String.length a = String.length c -> a = c /\ b = d.
Proof.
  revert c. induction a as [|x a IH]; intros [|y c] H Hl; simpl in *;
    try discriminate; [now split|].
  injection H as -> H. injection Hl as Hl.
  destruct (IH c H Hl) as [-> ->]. now split.
Qed.

Lemma repeat_class_sound {A : Type} p lo hi (k : @cont A) s :
  forall count prev a,
    repeat_class p lo hi k count prev s = Some a ->
    exists w rest,
      s = w ++ rest /\ all_chars p w = true
      /\ (lo <= count + String.length w)%nat
      /\ match hi with
         | Some h => (count <= h -> count + String.length w <= h)%nat
         | None => True
         end
      /\ k (last_or prev w) rest = Some a.
Proof.
  assert (Hstop : forall s count prev a,
             (if Nat.leb lo count then k prev s else None) = Some a ->
             exists w rest,
               s = w ++ rest /\ all_chars p w = true
               /\ (lo <= count + String.length w)%nat
               /\ match hi with
                  | Some h => (count <= h -> count + String.length w <= h)%nat
                  | None => True
                  end
               /\ k (last_or prev w) rest = Some a).
  { intros s0 count prev a H.
    destruct (Nat.leb_spec lo count); [|discriminate].
    exists EmptyString, s0. repeat split; simpl; try lia; [|exact H].
    destruct hi; [lia | exact I]. }
  induction s as [|c s IH]; intros count prev a H; cbn [repeat_class] in H.
  - now apply Hstop.
  - destruct (may_repeat hi count && p c)%bool eqn:E; [|now apply Hstop].
    destruct (repeat_class p lo hi k (S count) (Some c) s) as [a'|] eqn:E';
      [|now apply Hstop].
    injection H as ->. apply andb_true_iff in E as [Eh Ep].
    apply IH in E' as (w & rest & -> & Hw & Hlo & Hhi & Hk).
    exists (String c w), rest. cbn [append all_chars String.length].
    rewrite Ep, Hw, last_or_cons. repeat split; try lia; [|exact Hk].
    destruct hi as [h|]; [|exact I]. unfold may_repeat in Eh.
    apply Nat.ltb_lt in Eh. lia.
Qed.

Lemma repeat_class_complete {A : Type} p lo hi (k : @cont A) w :
  forall rest count prev a,
    all_chars p w = true ->
    (lo <= count + String.length w)%nat ->
    match hi with
    | Some h => (count + String.length w <= h)%nat
    | None => True
    end ->
    k (last_or prev w) rest = Some a ->
    exists a', repeat_class p lo hi k count prev (w ++ rest) = Some a'.
Proof.
  induction w as [|c w IH]; intros rest count prev a Hw Hlo Hhi Hk.
  - cbn [append]. simpl in Hlo. change (last_or prev EmptyString) with prev in Hk.
    assert (Hle : Nat.leb lo count = true) by (apply Nat.leb_le; lia).
    destruct rest as [|c rest]; cbn [repeat_class]; rewrite Hle.
    + now exists a.
    + destruct (may_repeat hi count && p c)%bool; [|now exists a].
      destruct (repeat_class p lo hi k (S count) (Some c) rest) as [a'|];
        [now exists a' | now exists a].
  - cbn [append repeat_class]. cbn [all_chars] in Hw.
    apply andb_true_iff in Hw as [Hc Hw]. cbn [String.length] in Hlo, Hhi.
    assert (Hm : may_repeat hi count = true).
    { destruct hi as [h|]; [|reflexivity]. apply Nat.ltb_lt. lia. }
    rewrite Hm, Hc. cbn [andb]. rewrite last_or_cons in Hk.
    destruct (IH rest (S count) (Some c) a Hw) as [a' Ha']; try lia; trivial.
    { destruct hi; [lia | exact I]. }
    rewrite Ha'. now exists a'.
Qed.

Lemma run_sound {A : Type} r :
  forall prev s (k : @cont A) a,
    run r prev s k = Some a ->
    exists w rest,
      s = w ++ rest /\ matches r prev w rest
      /\ k (last_or prev w) rest = Some a.
Proof.
  induction r as [p| |r1 IH1 r2 IH2|r1 IH1 r2 IH2|p lo hi|];
    intros prev s k a H; cbn [run] in H.
  - destruct s as [|c s]; [discriminate|].
    destruct (p c) eqn:E; [|discriminate].
    exists (String c EmptyString), s. repeat split; trivial.
    now exists c.
  - exists EmptyString, s. now repeat split.
  - apply IH1 in H as (w1 & rest1 & -> & H1 & H).
    apply IH2 in H as (w2 & rest & -> & H2 & H).
    exists (w1 ++ w2), rest. rewrite append_assoc, last_or_app.
    repeat split; trivial. now exists w1, w2.
  - destruct (run r1 prev s k) as [a'|] eqn:E.
    + injection H as ->. apply IH1 in E as (w & rest & -> & H1 & H).
      exists w, rest. repeat split; trivial. now left.
    + apply IH2 in H as (w & rest & -> & H2 & H).
      exists w, rest. repeat split; trivial. now right.
  - apply repeat_class_sound in H as (w & rest & -> & Hw & Hlo & Hhi & H).
    exists w, rest. split; [reflexivity|]. split; [|exact H].
    cbn [matches]. split; [exact Hw|]. split; [lia|].
    destruct hi as [h|]; [|exact I]. simpl in Hhi. lia.
  - destruct (word_boundary prev (head_char s)) eqn:E; [|discriminate].
    exists EmptyString, s. now repeat split.
Qed.

Lemma run_complete {A : Type} r :
  forall prev w rest (k : @cont A) a,
    matches r prev w rest ->
    k (last_or prev w) rest = Some a ->
    exists a', run r prev (w ++ rest) k = Some a'.
Proof.
  induction r as [p| |r1 IH1 r2 IH2|r1 IH1 r2 IH2|p lo hi|];
    intros prev w rest k a Hm Hk; cbn [run matches] in *.
  - destruct Hm as (c & -> & Hc). cbn [append]. rewrite Hc. now exists a.
  - subst w. now exists a.
  - destruct Hm as (w1 & w2 & -> & H1 & H2). rewrite last_or_app in Hk.
    destruct (IH2 _ _ _ _ _ H2 Hk) as [a2 Ha2].
    rewrite append_assoc.
    apply (IH1 prev w1 (w2 ++ rest) (fun prev' s' => run r2 prev' s' k) a2 H1).
    exact Ha2.
  - destruct (run r1 prev (w ++ rest) k) as [a'|] eqn:E; [now exists a'|].
    destruct Hm as [Hm | Hm].
    + destruct (IH1 _ _ _ _ _ Hm Hk) as [a' Ha']. congruence.
    + now apply (IH2 _ _ _ _ _ Hm Hk).
  - destruct Hm as (Hw & Hlo & Hhi).
    apply (repeat_class_complete p lo hi k w rest 0%nat prev a); trivial.
  - destruct Hm as [-> Hb]. cbn [append]. rewrite Hb. now exists a.
Qed.

Lemma match_at_sound r prev s w :
  match_at r prev s = Some w ->
  exists rest, s = w ++ rest /\ matches r prev w rest.
Proof.
  unfold match_at. intros H.
  destruct (run r prev s (fun _ rest => Some rest)) as [rest0|] eqn:E;
    [|discriminate].
  apply run_sound in E as (w' & rest & -> & Hm & Hk).
  injection Hk as ->. cbn [option_map] in H. injection H as <-.
  rewrite length_append, Nat.add_sub, take_length_app. now exists rest0.
Qed.

Lemma match_at_complete r prev w rest :
  matches r prev w rest -> match_at r prev (w ++ rest) <> None.
Proof.
  intros Hm. unfold match_at.
  destruct (run_complete r prev w rest (fun _ rest => Some rest) rest Hm
              eq_refl) as [a' Ha'].
  now rewrite Ha'.
Qed.

Lemma finditer_from_nil r pos skip prev :
  finditer_from r pos skip prev EmptyString
  = match skip with
    | S _ => []
    | O => match match_at r prev EmptyString with
           | Some w => [(pos, w)]
           | None => []
           end
    end.
Proof. reflexivity. Qed.

Lemma finditer_from_cons r pos skip prev c s :
  finditer_from r pos skip prev (String c s)
  = match skip with
    | S k => finditer_from r (S pos) k (Some c) s
    | O => match match_at r prev (String c s) with
           | Some w =>
               (pos, w)
               :: finditer_from r (S pos) (String.length w - 1) (Some c) s
           | None => finditer_from r (S pos) 0 (Some c) s
           end
    end.
Proof. reflexivity. Qed.

(** Every match reported is the one found at its offset of the subject. *)
Lemma finditer_from_sound r s :
  forall pos skip prev p w,
    In (p, w) (finditer_from r pos skip prev s) ->
    exists pre post,
      s = pre ++ w ++ post /\ p = (pos + String.length pre)%nat
      /\ match_at r (last_or prev pre) (w ++ post) = Some w.
Proof.
  assert (Hhere : forall s pos prev w,
             match_at r prev s = Some w ->
             exists pre post,
               s = pre ++ w ++ post /\ pos = (pos + String.length pre)%nat
               /\ match_at r (last_or prev pre) (w ++ post) = Some w).
  { intros s0 pos prev w H.
    destruct (match_at_sound _ _ _ _ H) as (rest & -> & Hm).
    exists EmptyString, rest. repeat split; simpl; trivial; lia. }
  induction s as [|c s IH]; intros pos skip prev p w H.
  - rewrite finditer_from_nil in H. destruct skip; [|destruct H].
    destruct (match_at r prev EmptyString) as [w0|] eqn:E; [|destruct H].
    destruct H as [H | []]. injection H as <- <-. now apply Hhere.
  - rewrite finditer_from_cons in H.
    assert (Hnext : forall skip',
               In (p, w) (finditer_from r (S pos) skip' (Some c) s) ->
               exists pre post,
                 String c s = pre ++ w ++ post
                 /\ p = (pos + String.length pre)%nat
                 /\ match_at r (last_or prev pre) (w ++ post) = Some w).
    { intros skip' H'. apply IH in H' as (pre & post & -> & -> & Hm).
      exists (String c pre), post. rewrite last_or_cons.
      repeat split; simpl; trivial; lia. }
    destruct skip as [|k]; [|now apply (Hnext k)].
    destruct (match_at r prev (String c s)) as [w0|] eqn:E;
      [|now apply (Hnext 0%nat)].
    destruct H as [H | H]; [|now apply (Hnext _ H)].
    injection H as <- <-. now apply Hhere.
Qed.

(** No match starts in front of the first one reported. *)
Lemma finditer_from_leftmost r s :
  forall pos skip prev p w l pre post,
    finditer_from r pos skip prev s = (p, w) :: l ->
    s = pre ++ post ->
    (skip <= String.length pre)%nat ->
    (pos + String.length pre < p)%nat ->
    match_at r (last_or prev pre) post = None.
Proof.
  induction s as [|c s IH]; intros pos skip prev p w l pre post H Hs Hk Hp.
  - destruct pre; [|discriminate]. simpl in Hs, Hk, Hp. subst post.
    rewrite finditer_from_nil in H. destruct skip; [|discriminate].
    destruct (match_at r prev EmptyString); [|discriminate].
    injection H as <- _ _. lia.
  - rewrite finditer_from_cons in H.
    destruct pre as [|c' pre].
    + simpl in Hs, Hk, Hp. subst post. destruct skip; [|lia].
      change (last_or prev EmptyString) with prev.
      destruct (match_at r prev (String c s)); [|reflexivity].
      injection H as <- _ _. lia.
    + cbn [append] in Hs. injection Hs as <- ->.
      cbn [String.length] in Hk, Hp. rewrite last_or_cons.
      destruct skip as [|k].
      * destruct (match_at r prev (String c (pre ++ post))).
        -- injection H as <- _ _. lia.
        -- apply (IH _ _ _ _ _ _ _ _ H eq_refl); lia.
      * apply (IH _ _ _ _ _ _ _ _ H eq_refl); lia.
Qed.

(** When nothing is reported, no match starts anywhere. *)
Lemma finditer_from_none r s :
  forall pos skip prev pre post,
    finditer_from r pos skip prev s = [] ->
    s = pre ++ post ->
    (skip <= String.length pre)%nat ->
    match_at r (last_or prev pre) post = None.
Proof.
  induction s as [|c s IH]; intros pos skip prev pre post H Hs Hk.
  - destruct pre; [|discriminate]. simpl in Hs, Hk. subst post.
    rewrite finditer_from_nil in H. destruct skip; [|lia].
    change (last_or prev EmptyString) with prev.
    now destruct (match_at r prev EmptyString).
  - rewrite finditer_from_cons in H.
    destruct pre as [|c' pre].
    + simpl in Hs, Hk. subst post. destruct skip; [|lia].
      change (last_or prev EmptyString) with prev.
      now destruct (match_at r prev (String c s)).
    + cbn [append] in Hs. injection Hs as <- ->.
      cbn [String.length] in Hk. rewrite last_or_cons.
      destruct skip as [|k].
      * destruct (match_at r prev (String c (pre ++ post))); [discriminate|].
        apply (IH _ _ _ _ _ H eq_refl); lia.
      * apply (IH _ _ _ _ _ H eq_refl); lia.
Qed.

(** The first result of [findall]: it is matched at an offset in front of
    which no match starts. *)
Lemma findall_head r text first others :
  findall r text = first :: others ->
  exists pre post,
    text = pre ++ first ++ post
    /\ match_at r (last_char pre) (first ++ post) = Some first
    /\ forall pre' w' post',
         text = pre' ++ w' ++ post' ->
         matches r (last_char pre') w' post' ->
         (String.length pre <= String.length pre')%nat.
Proof.
  unfold findall, finditer. intros H.
  destruct (finditer_from r 0 0 None text) as [|[p w] l] eqn:E;
    [discriminate|].
  cbn [map snd] in H. injection H as -> _.
  destruct (finditer_from_sound r text 0 0 None p first) as
    (pre & post & Ht & Hp & Hm); [rewrite E; now left|].
  rewrite last_or_None in Hm. exists pre, post. repeat split; trivial.
  intros pre' w' post' Ht' Hm'.
  destruct (Nat.le_gt_cases (String.length pre) (String.length pre'))
    as [Hle | Hgt]; [exact Hle|].
  exfalso. apply (match_at_complete _ _ _ _ Hm').
  rewrite <- last_or_None.
  apply (finditer_from_leftmost r text 0 0 None p first l pre' (w' ++ post') E
           Ht'); simpl; lia.
Qed.

(** [findall] finds nothing only if no match starts anywhere. *)
Lemma findall_nil r text pre w post :
  findall r text = [] ->
  text = pre ++ w ++ post ->
  ~ matches r (last_char pre) w post.
Proof.
  unfold findall, finditer. intros H Ht Hm.
  apply map_eq_nil in H. apply (match_at_complete _ _ _ _ Hm).
  rewrite <- last_or_None.
  apply (finditer_from_none r text 0 0 None pre (w ++ post) H Ht). simpl. lia.
Qed.

Lemma set_first_get key f found contact k :
  dict_get (set_first key f found contact) k
  = if String.eqb k key
    then match found with
         | first :: _ => Some (f first)
         | [] => dict_get contact k
         end
    else dict_get contact k.
Proof.
  unfold set_first. destruct found as [|first others].
  - now destruct (String.eqb k key).
  - apply dict_get_set.
Qed.

Lemma contact_email_get text :
  dict_get (extract_contact_info text) "email"
  = hd_error (findall email_pattern text).
Proof.
  unfold extract_contact_info. rewrite !set_first_get. cbn [String.eqb Ascii.eqb Bool.eqb dict_get].
  now destruct (findall email_pattern text).
Qed.

Lemma contact_phone_get text :
  dict_get (extract_contact_info text) "phone"
  = hd_error (findall phone_pattern text).
Proof.
  unfold extract_contact_info. rewrite !set_first_get. cbn [String.eqb Ascii.eqb Bool.eqb dict_get].
  now destruct (findall phone_pattern text).
Qed.

Lemma contact_linkedin_get text :
  dict_get (extract_contact_info text) "linkedin"
  = option_map https (hd_error (findall linkedin_pattern text)).
Proof.
  unfold extract_contact_info. rewrite !set_first_get. cbn [String.eqb Ascii.eqb Bool.eqb dict_get].
  now destruct (findall linkedin_pattern text).
Qed.

Lemma contact_github_get text :
  dict_get (extract_contact_info text) "github"
  = option_map https (hd_error (findall github_pattern text)).
Proof.
  unfold extract_contact_info. rewrite !set_first_get. cbn [String.eqb Ascii.eqb Bool.eqb dict_get].
  now destruct (findall github_pattern text).
Qed.

Lemma matches_chr c prev w rest :
  matches (chr c) prev w rest <-> w = String c EmptyString.
Proof.
  unfold chr. cbn [matches]. split.
  - intros (c' & -> & H). apply Ascii.eqb_eq in H. now subst.
  - intros ->. exists c. split; [reflexivity | apply Ascii.eqb_refl].
Qed.

Lemma matches_lit l : forall prev w rest, matches (lit l) prev w rest <-> w = l.
Proof.
  induction l as [|c l IH]; intros prev w rest.
  - cbn [lit matches]. tauto.
  - destruct l as [|c' l].
    + apply matches_chr.
    + change (lit (String c (String c' l)))
        with (Cat (chr c) (lit (String c' l))).
      cbn [matches]. split.
      * intros (w1 & w2 & -> & H1 & H2). apply matches_chr in H1.
        apply IH in H2. now subst.
      * intros ->. exists (String c EmptyString), (String c' l).
        repeat split; [now apply matches_chr | now apply IH].
Qed.

(** A repetition in front of the end of the pattern stops only where the
    class ends. *)
Lemma repeat_class_total p lo s :
  forall count prev,
    (lo <= count)%nat ->
    repeat_class p lo None (fun _ rest => Some rest) count prev s <> None.
Proof.
  induction s as [|c s IH]; intros count prev H; cbn [repeat_class];
    apply Nat.leb_le in H; rewrite H; [discriminate|].
  destruct (may_repeat None count && p c)%bool; [|discriminate].
  now destruct (repeat_class p lo None _ (S count) (Some c) s).
Qed.

Lemma repeat_class_greedy p lo s :
  forall count prev rest,
    repeat_class p lo None (fun _ rest => Some rest) count prev s = Some rest ->
    exists w,
      s = w ++ rest /\ all_chars p w = true
      /\ (lo <= count + String.length w)%nat
      /\ match rest with String c _ => p c = false | EmptyString => True end.
Proof.
  induction s as [|c s IH]; intros count prev rest H; cbn [repeat_class] in H.
  - destruct (Nat.leb_spec lo count); [|discriminate]. injection H as <-.
    exists EmptyString. repeat split; simpl; trivial; lia.
  - cbn [may_repeat andb] in H. destruct (p c) eqn:Ec.
    + destruct (repeat_class p lo None _ (S count) (Some c) s) as [a|] eqn:E.
      * injection H as ->. apply IH in E as (w & -> & Hw & Hlo & Hend).
        exists (String c w). cbn [append all_chars String.length].
        rewrite Ec, Hw. repeat split; trivial; lia.
      * destruct (Nat.leb_spec lo count) as [Hle|]; [|discriminate].
        exfalso. apply (repeat_class_total p lo s (S count) (Some c)); [lia|].
        exact E.
    + destruct (Nat.leb_spec lo count); [|discriminate]. injection H as <-.
      exists EmptyString. repeat split; simpl; trivial; lia.
Qed.

(** The match of a literal followed by a run of a class: the literal and
    the longest run behind it. *)
Lemma match_at_lit_plus l p prev s w :
  match_at (Cat (lit l) (plus p)) prev s = Some w ->
  exists run rest,
    s = l ++ run ++ rest /\ w = l ++ run
    /\ run <> EmptyString /\ all_chars p run = true
    /\ match rest with String c _ => p c = false | EmptyString => True end.
Proof.
  unfold match_at. intros H.
  destruct (run (Cat (lit l) (plus p)) prev s (fun _ rest => Some rest))
    as [rest0|] eqn:E; [|discriminate].
  cbn [option_map] in H. injection H as <-.
  cbn [run] in E. apply run_sound in E as (w1 & rest1 & -> & H1 & E).
  apply matches_lit in H1. subst w1. unfold plus in E. cbn [run] in E.
  apply repeat_class_greedy in E as (run & -> & Hrun & Hlo & Hend).
  exists run, rest0. rewrite <- append_assoc.
  rewrite length_append, Nat.add_sub, take_length_app.
  repeat split; trivial. intros ->. simpl in Hlo. lia.
Qed.

Lemma matches_lit_plus l p prev run rest :
  run <> EmptyString -> all_chars p run = true ->
  matches (Cat (lit l) (plus p)) prev (l ++ run) rest.
Proof.
  intros Hne Hrun. cbn [matches]. exists l, run. split; [reflexivity|].
  split; [now apply matches_lit|]. unfold plus. cbn [matches].
  repeat split; trivial. destruct run; [congruence | simpl; lia].
Qed.

Lemma run_unique p h1 :
  forall h2 post1 post2,
    all_chars p h1 = true -> all_chars p h2 = true ->
    match post1 with String c _ => p c = false | EmptyString => True end ->
    match post2 with String c _ => p c = false | EmptyString => True end ->
    h1 ++ post1 = h2 ++ post2 -> h1 = h2.
Proof.
  induction h1 as [|c h1 IH]; intros [|c2 h2] post1 post2 H1 H2 E1 E2 H;
    cbn [append all_chars] in *; trivial.
  - subst post1. apply andb_true_iff in H2 as [H2 _]. congruence.
  - subst post2. apply andb_true_iff in H1 as [H1 _]. congruence.
  - injection H as -> H. apply andb_true_iff in H1 as [_ H1].
    apply andb_true_iff in H2 as [_ H2]. f_equal. now apply (IH h2 post1 post2).
Qed.

Lemma app_inv_head (a b c : string) : a ++ b = a ++ c -> b = c.
Proof. induction a as [|x a IH]; simpl; intros H; [exact H|]. injection H. exact IH. Qed.

Lemma profile_link_unique site u1 u2 text :
  profile_link site u1 text -> profile_link site u2 text -> u1 = u2.
Proof.
  intros (pre1 & h1 & post1 & Ht1 & -> & Hn1 & Hh1 & He1 & Hl1)
         (pre2 & h2 & post2 & Ht2 & -> & Hn2 & Hh2 & He2 & Hl2).
  assert (Hlen : String.length pre1 = String.length pre2).
  { apply Nat.le_antisymm.
    - destruct h2 as [|c h2]; [congruence|]. cbn [all_chars] in Hh2.
      apply andb_true_iff in Hh2 as [Hc _].
      apply (Hl1 pre2 c (h2 ++ post2) Hc). exact Ht2.
    - destruct h1 as [|c h1]; [congruence|]. cbn [all_chars] in Hh1.
      apply andb_true_iff in Hh1 as [Hc _].
      apply (Hl2 pre1 c (h1 ++ post1) Hc). exact Ht1. }
  rewrite Ht1 in Ht2. apply app_inv_length in Ht2 as [_ H]; [|exact Hlen].
  apply app_inv_head in H. do 2 f_equal.
  now apply (run_unique handle_char h1 h2 post1 post2).
Qed.

Lemma findall_profile site text first others :
  findall (Cat (lit site) (plus handle_char)) text = first :: others ->
  profile_link site (https first) text.
Proof.
  intros H. apply findall_head in H as (pre & post & Ht & Hm & Hleft).
  apply match_at_lit_plus in Hm as (run & rest & Hs & -> & Hne & Hrun & Hend).
  rewrite append_assoc in Hs. apply app_inv_head, app_inv_head in Hs.
  subst rest. exists pre, run, post. rewrite append_assoc in Ht.
  repeat split; trivial.
  intros pre' c post' Hc Ht'.
  apply (Hleft pre' (site ++ String c EmptyString) post').
  - now rewrite append_assoc.
  - apply matches_lit_plus; [discriminate|]. cbn [all_chars]. now rewrite Hc.
Qed.

Lemma profile_link_found site url text :
  profile_link site url text ->
  hd_error (findall (Cat (lit site) (plus handle_char)) text) <> None.
Proof.
  intros (pre & h & post & Ht & _ & Hn & Hh & _ & _) H.
  destruct (findall _ text) eqn:E; [|discriminate].
  apply (findall_nil _ _ pre (site ++ h) post E).
  - now rewrite append_assoc.
  - now apply matches_lit_plus.
Qed.

Lemma profile_link_iff site text url :
  option_map https
    (hd_error (findall (Cat (lit site) (plus handle_char)) text)) = Some url
  <-> profile_link site url text.
Proof.
  split.
  - destruct (findall _ text) as [|first others] eqn:E; [discriminate|].
    cbn [hd_error option_map]. intros H. injection H as <-.
    now apply (findall_profile site text first others).
  - intros H. pose proof (profile_link_found _ _ _ H) as Hf.
    destruct (findall _ text) as [|first others] eqn:E; [now destruct Hf|].
    cbn [hd_error option_map]. f_equal.
    apply (profile_link_unique site _ _ text); [|exact H].
    now apply (findall_profile site text first others).
Qed.

(** X24: [extract_contact_info] stores under ['linkedin'] exactly the
    link [https://linkedin.com/in/<handle>] of the first place of the text
    where [linkedin.com/in/] is followed by a letter, digit, underscore or
    hyphen, the handle being the longest run of such characters there, and
    under ['github'] the like for [github.com/]; without such a place the
    key is missing. *)
Theorem contact_profile_links (text url : string) :
  (dict_get (extract_contact_info text) "linkedin" = Some url
   <-> profile_link "linkedin.com/in/" url text)
  /\ (dict_get (extract_contact_info text) "github" = Some url
      <-> profile_link "github.com/" url text).
Proof.
  rewrite contact_linkedin_get, contact_github_get.
  split; apply profile_link_iff.
Qed.

Lemma last_char_app_or pre w : last_char (pre ++ w) = last_or (last_char pre) w.
Proof. now rewrite <- !last_or_None, last_or_app. Qed.

Lemma matches_then_boundary r :
  forall prev w rest,
    matches (then_boundary r) prev w rest
    <-> matches r prev w rest
        /\ word_boundary (last_or prev w) (head_char rest) = true.
Proof.
  assert (Hleaf : forall r prev w rest,
             matches (Cat r WordBoundary) prev w rest
             <-> matches r prev w rest
                 /\ word_boundary (last_or prev w) (head_char rest) = true).
  { intros r0 prev w rest. cbn [matches]. split.
    - intros (w1 & w2 & -> & H1 & -> & Hb). rewrite append_nil_r. now split.
    - intros [H Hb]. exists w, EmptyString. rewrite append_nil_r.
      now repeat split. }
  induction r as [p| |r1 _ r2 IH2|r1 _ r2 _|p lo hi|]; intros prev w rest;
    try apply Hleaf.
  cbn [then_boundary matches]. split.
  - intros (w1 & w2 & -> & H1 & H2). apply IH2 in H2 as [H2 Hb].
    rewrite last_or_app. split; [|exact Hb]. now exists w1, w2.
  - intros [(w1 & w2 & -> & H1 & H2) Hb]. rewrite last_or_app in Hb.
    exists w1, w2. repeat split; trivial. apply IH2. now split.
Qed.

Lemma matches_whole_word r prev w rest :
  matches (whole_word r) prev w rest
  <-> word_boundary prev (head_char (w ++ rest)) = true
      /\ matches r prev w rest
      /\ word_boundary (last_or prev w) (head_char rest) = true.
Proof.
  unfold whole_word. cbn [matches]. split.
  - intros (w1 & w2 & -> & [-> Hb] & H). apply matches_then_boundary in H.
    cbn [append] in *. change (last_or prev EmptyString) with prev in H.
    tauto.
  - intros (Hb & H & Hb'). exists EmptyString, w. cbn [append].
    repeat split; trivial. apply matches_then_boundary.
    change (last_or prev EmptyString) with prev. now split.
Qed.

(** The matches of a whole-word pattern whose body has the shape [shape]
    are the words of that shape. *)
Lemma whole_word_at r (shape : string -> Prop) p w text :
  (forall prev w rest, matches r prev w rest <-> shape w) ->
  (exists pre post,
     text = pre ++ w ++ post /\ String.length pre = p
     /\ matches (whole_word r) (last_char pre) w post)
  <-> shape w /\ word_at p w text.
Proof.
  intros Hshape. unfold word_at. split.
  - intros (pre & post & Ht & Hp & Hm).
    apply matches_whole_word in Hm as (Hb & Hm & Hb').
    apply Hshape in Hm. split; [exact Hm|]. exists pre, post.
    rewrite last_char_app_or. now repeat split.
  - intros (Hs & pre & post & Ht & Hp & Hb & Hb'). exists pre, post.
    repeat split; trivial. apply matches_whole_word.
    rewrite last_char_app_or in Hb'. repeat split; trivial. now apply Hshape.
Qed.

Lemma matches_email_body prev w rest :
  matches (seq [ plus email_local; chr "@"; plus email_domain; chr ".";
                 at_least 2 email_suffix ]) prev w rest
  <-> email_shaped w.
Proof.
  unfold email_shaped, plus, at_least. cbn [seq matches]. split.
  - intros (l & w2 & -> & (Hl & Hl1 & _) & w3 & w4 & -> & Hat & d & w5 & ->
            & (Hd & Hd1 & _) & w6 & s & -> & Hdot & Hs & Hs2 & _).
    apply matches_chr in Hat, Hdot. subst w3 w6.
    exists l, d, s. repeat split; trivial.
    + intros ->. simpl in Hl1. lia.
    + intros ->. simpl in Hd1. lia.
  - intros (l & d & s & -> & Hl1 & Hl & Hd1 & Hd & Hs2 & Hs).
    exists l, ("@" ++ d ++ "." ++ s). repeat split; trivial.
    { destruct l; [congruence | simpl; lia]. }
    exists "@", (d ++ "." ++ s). repeat split; [now apply matches_chr|].
    exists d, ("." ++ s). repeat split; trivial.
    { destruct d; [congruence | simpl; lia]. }
    exists ".", s. repeat split; trivial. now apply matches_chr.
Qed.

Lemma email_pattern_whole_word :
  email_pattern
  = whole_word (seq [ plus email_local; chr "@"; plus email_domain; chr ".";
                      at_least 2 email_suffix ]).
Proof. reflexivity. Qed.

(** X25: the value [extract_contact_info] stores under ['email'] is an
    address of the shape local@domain.suffix (the suffix of two or more
    letters or bars) that stands in the text between two word boundaries,
    and no such address starts in front of it; the key is present whenever
    the text holds such an address. *)
Theorem contact_email_first_address (text : string) :
  (forall e,
     dict_get (extract_contact_info text) "email" = Some e ->
     email_shaped e
     /\ exists p,
          word_at p e text
          /\ forall q e',
               email_shaped e' -> word_at q e' text -> (p <= q)%nat)
  /\ ((exists q e', email_shaped e' /\ word_at q e' text) ->
      dict_get (extract_contact_info text) "email" <> None).
Proof.
  rewrite contact_email_get, email_pattern_whole_word.
  set (body := seq _).
  assert (Hat : forall p w,
             (exists pre post,
                text = pre ++ w ++ post /\ String.length pre = p
                /\ matches (whole_word body) (last_char pre) w post)
             <-> email_shaped w /\ word_at p w text).
  { intros p w. apply whole_word_at. apply matches_email_body. }
  split.
  - intros e He.
    destruct (findall (whole_word body) text) as [|first others] eqn:E;
      [discriminate|].
    cbn [hd_error] in He. injection He as ->.
    apply findall_head in E as (pre & post & Ht & Hm & Hleft).
    apply match_at_sound in Hm as (rest & Hr & Hm).
    apply app_inv_head in Hr. subst rest.
    destruct (proj1 (Hat (String.length pre) e)) as [Hs Hw];
      [now exists pre, post|].
    split; [exact Hs|]. exists (String.length pre). split; [exact Hw|].
    intros q e' Hs' Hw'.
    destruct (proj2 (Hat q e') (conj Hs' Hw')) as (pre' & post' & Ht' & <- & Hm').
    now apply (Hleft pre' e' post').
  - intros (q & e' & Hs' & Hw') H.
    destruct (proj2 (Hat q e') (conj Hs' Hw')) as (pre' & post' & Ht' & _ & Hm').
    destruct (findall (whole_word body) text) eqn:E; [|discriminate].
    now apply (findall_nil _ _ pre' e' post' E).
Qed.

Lemma count_if_app p a b :
  count_if p (a ++ b) = (count_if p a + count_if p b)%nat.
Proof. induction a as [|c a IH]; simpl; [reflexivity | rewrite IH; lia]. Qed.

Lemma count_if_le p s : (count_if p s <= String.length s)%nat.
Proof. induction s as [|c s IH]; simpl; [lia | destruct (p c); lia]. Qed.

Lemma count_if_all p s :
  all_chars p s = true -> count_if p s = String.length s.
Proof.
  induction s as [|c s IH]; simpl; [reflexivity|].
  intros H. apply andb_true_iff in H as [-> H]. now rewrite IH.
Qed.

Lemma count_if_none p q s :
  (forall c, q c = true -> p c = false) ->
  all_chars q s = true -> count_if p s = 0%nat.
Proof.
  intros Hq. induction s as [|c s IH]; simpl; [reflexivity|].
  intros H. apply andb_true_iff in H as [Hc H]. now rewrite (Hq c Hc), IH.
Qed.

Lemma all_chars_weaken p q s :
  (forall c, q c = true -> p c = true) ->
  all_chars q s = true -> all_chars p s = true.
Proof.
  intros Hq. induction s as [|c s IH]; simpl; [reflexivity|].
  intros H. apply andb_true_iff in H as [Hc H]. now rewrite (Hq c Hc), IH.
Qed.

Lemma phone_chars :
  (forall c, is_digit c = true -> phone_char c = true)
  /\ (forall c, phone_separator c = true -> phone_char c = true)
  /\ (forall c, phone_separator c = true -> is_digit c = false)
  /\ (forall x c, In x ["+"; "("; ")"]%char -> Ascii.eqb x c = true ->
                  phone_char c = true /\ is_digit c = false).
Proof.
  repeat split.
  - intros c H. unfold phone_char. now rewrite H.
  - intros c H. unfold phone_char. rewrite H. apply orb_true_r.
  - intros c. destruct c as [[] [] [] [] [] [] [] []]; vm_compute; congruence.
  - apply Ascii.eqb_eq in H0. subst c.
    destruct H as [<- | [<- | [<- | []]]]; reflexivity.
  - apply Ascii.eqb_eq in H0. subst c.
    destruct H as [<- | [<- | [<- | []]]]; reflexivity.
Qed.

Lemma phone_piece_app lo1 hi1 lo2 hi2 a b :
  phone_piece lo1 hi1 a -> phone_piece lo2 hi2 b ->
  phone_piece (lo1 + lo2) (hi1 + hi2) (a ++ b).
Proof.
  intros [Ha Ca] [Hb Cb]. unfold phone_piece.
  rewrite all_chars_app, count_if_app, Ha, Hb. split; [reflexivity | lia].
Qed.

Lemma phone_piece_digits lo hi prev w rest :
  matches (between lo hi is_digit) prev w rest -> phone_piece lo hi w.
Proof.
  unfold between. cbn [matches]. intros (Hw & Hlo & Hhi). split.
  - apply (all_chars_weaken _ is_digit); [apply phone_chars | exact Hw].
  - rewrite (count_if_all _ _ Hw). lia.
Qed.

Lemma phone_piece_separator prev w rest :
  matches (opt phone_separator) prev w rest -> phone_piece 0 0 w.
Proof.
  unfold opt. cbn [matches]. intros (Hw & _ & _). split.
  - apply (all_chars_weaken _ phone_separator); [apply phone_chars | exact Hw].
  - rewrite (count_if_none _ phone_separator); [lia | apply phone_chars | exact Hw].
Qed.

Lemma phone_piece_sign x prev w rest :
  In x ["+"; "("; ")"]%char ->
  matches (opt (Ascii.eqb x)) prev w rest -> phone_piece 0 0 w.
Proof.
  unfold opt. cbn [matches]. intros Hx (Hw & _ & _).
  destruct phone_chars as (_ & _ & _ & Hsign). split.
  - apply (all_chars_weaken _ (Ascii.eqb x)); [|exact Hw].
    intros c Hc. now apply (Hsign x c).
  - rewrite (count_if_none _ (Ascii.eqb x)); [lia | | exact Hw].
    intros c Hc. now apply (Hsign x c).
Qed.

Lemma matches_phone prev w rest :
  matches phone_pattern prev w rest -> phone_piece 4 20 w.
Proof.
  unfold phone_pattern. cbn [seq]. cbn [matches]. fold (opt phone_separator).
  intros (w1 & r1 & -> & H1 & w2 & r2 & -> & H2 & w3 & r3 & -> & H3
          & w4 & r4 & -> & H4 & w5 & r5 & -> & H5 & w6 & r6 & -> & H6
          & w7 & r7 & -> & H7 & w8 & r8 & -> & H8 & w9 & r9 & -> & H9
          & w10 & r10 & -> & H10 & w11 & w12 & -> & H11 & H12).
  assert (P1 : phone_piece 0 0 w1)
    by (apply (phone_piece_sign "+" prev w1 EmptyString); [simpl; auto | exact H1]).
  assert (P2 : phone_piece 0 0 w2)
    by (apply (phone_piece_sign "(" prev w2 EmptyString); [simpl; auto | exact H2]).
  assert (P3 : phone_piece 1 3 w3)
    by (apply (phone_piece_digits 1 3 prev w3 EmptyString); exact H3).
  assert (P4 : phone_piece 0 0 w4)
    by (apply (phone_piece_sign ")" prev w4 EmptyString); [simpl; auto | exact H4]).
  assert (P5 : phone_piece 0 0 w5)
    by (apply (phone_piece_separator prev w5 EmptyString); exact H5).
  assert (P6 : phone_piece 0 0 w6)
    by (apply (phone_piece_sign "(" prev w6 EmptyString); [simpl; auto | exact H6]).
  assert (P7 : phone_piece 1 4 w7)
    by (apply (phone_piece_digits 1 4 prev w7 EmptyString); exact H7).
  assert (P8 : phone_piece 0 0 w8)
    by (apply (phone_piece_sign ")" prev w8 EmptyString); [simpl; auto | exact H8]).
  assert (P9 : phone_piece 0 0 w9)
    by (apply (phone_piece_separator prev w9 EmptyString); exact H9).
  assert (P10 : phone_piece 1 4 w10)
    by (apply (phone_piece_digits 1 4 prev w10 EmptyString); exact H10).
  assert (P11 : phone_piece 0 0 w11)
    by (apply (phone_piece_separator prev w11 EmptyString); exact H11).
  assert (P12 : phone_piece 1 9 w12)
    by (apply (phone_piece_digits 1 9 prev w12 EmptyString); exact H12).
  pose proof (phone_piece_app _ _ _ _ _ _ P11 P12) as Q.
  pose proof (phone_piece_app _ _ _ _ _ _ P10 Q) as Q10.
  pose proof (phone_piece_app _ _ _ _ _ _ P9 Q10) as Q9.
  pose proof (phone_piece_app _ _ _ _ _ _ P8 Q9) as Q8.
  pose proof (phone_piece_app _ _ _ _ _ _ P7 Q8) as Q7.
  pose proof (phone_piece_app _ _ _ _ _ _ P6 Q7) as Q6.
  pose proof (phone_piece_app _ _ _ _ _ _ P5 Q6) as Q5.
  pose proof (phone_piece_app _ _ _ _ _ _ P4 Q5) as Q4.
  pose proof (phone_piece_app _ _ _ _ _ _ P3 Q4) as Q3.
  pose proof (phone_piece_app _ _ _ _ _ _ P2 Q3) as Q2.
  exact (phone_piece_app _ _ _ _ _ _ P1 Q2).
Qed.

Lemma matches_four_digits prev d rest :
  digits 4 4 d -> matches phone_pattern prev d rest.
Proof.
  intros [Hd Hl].
  destruct d as [|a [|b [|c [|e [|x d]]]]]; simpl in Hl; try lia.
  cbn [all_chars] in Hd.
  apply andb_true_iff in Hd as [Ha Hd]. apply andb_true_iff in Hd as [Hb Hd].
  apply andb_true_iff in Hd as [Hc Hd]. apply andb_true_iff in Hd as [He _].
  assert (Hnone : forall p hi prev rest,
             matches (Repeat p 0 (Some hi)) prev EmptyString rest).
  { intros. cbn [matches]. simpl. repeat split; lia. }
  assert (Hone : forall x hi prev rest,
             is_digit x = true ->
             matches (between 1 (S hi) is_digit) prev (String x EmptyString)
                     rest).
  { intros x hi prev0 rest0 Hx. unfold between. cbn [matches all_chars].
    rewrite Hx. simpl. repeat split; lia. }
  unfold phone_pattern, opt. cbn [seq].
  exists EmptyString, (String a (String b (String c (String e EmptyString)))).
  split; [reflexivity|]. split; [apply Hnone|].
  exists EmptyString, (String a (String b (String c (String e EmptyString)))).
  split; [reflexivity|]. split; [apply Hnone|].
  exists (String a EmptyString), (String b (String c (String e EmptyString))).
  split; [reflexivity|]. split; [now apply Hone|].
  exists EmptyString, (String b (String c (String e EmptyString))).
  split; [reflexivity|]. split; [apply Hnone|].
  exists EmptyString, (String b (String c (String e EmptyString))).
  split; [reflexivity|]. split; [apply Hnone|].
  exists EmptyString, (String b (String c (String e EmptyString))).
  split; [reflexivity|]. split; [apply Hnone|].
  exists (String b EmptyString), (String c (String e EmptyString)).
  split; [reflexivity|]. split; [now apply Hone|].
  exists EmptyString, (String c (String e EmptyString)).
  split; [reflexivity|]. split; [apply Hnone|].
  exists EmptyString, (String c (String e EmptyString)).
  split; [reflexivity|]. split; [apply Hnone|].
  exists (String c EmptyString), (String e EmptyString).
  split; [reflexivity|]. split; [now apply Hone|].
  exists EmptyString, (String e EmptyString).
  split; [reflexivity|]. split; [apply Hnone|].
  now apply Hone.
Qed.

(** X26: the value [extract_contact_info] stores under ['phone'] occurs in
    the text, is made of digits, the signs plus, parentheses, hyphen and
    dot and white space only, and holds 4 to 20 digits; the key is present
    whenever the text holds four digits in a row, a year for one. *)
Theorem contact_phone_digits (text : string) :
  (forall p,
     dict_get (extract_contact_info text) "phone" = Some p ->
     occurs p text /\ phone_piece 4 20 p)
  /\ (forall d,
        digits 4 4 d -> occurs d text ->
        dict_get (extract_contact_info text) "phone" <> None).
Proof.
  rewrite contact_phone_get. split.
  - intros p Hp.
    destruct (findall phone_pattern text) as [|first others] eqn:E;
      [discriminate|].
    cbn [hd_error] in Hp. injection Hp as ->.
    apply findall_head in E as (pre & post & Ht & Hm & _).
    apply match_at_sound in Hm as (rest & _ & Hm).
    split; [now exists pre, post | now apply matches_phone in Hm].
  - intros d Hd (pre & post & Ht) H.
    destruct (findall phone_pattern text) eqn:E; [|discriminate].
    apply (findall_nil _ _ pre d post E Ht). now apply matches_four_digits.
Qed.

Section SortAscendingFacts.
Context {A : Type} (key : A -> Z).

Lemma insert_asc_perm x l : Permutation (x :: l) (insert_asc key x l).
Proof.
  induction l as [|y l IH]; simpl; [reflexivity|].
  destruct (key y <? key x); [|reflexivity].
  etransitivity; [apply perm_swap | now apply perm_skip].
Qed.

Lemma sort_asc_perm l : Permutation l (sort_asc key l).
Proof.
  induction l as [|x l IH]; simpl; [constructor|].
  etransitivity; [apply perm_skip, IH | apply insert_asc_perm].
Qed.

Lemma insert_asc_sorted x l :
  StronglySorted (fun a b => key a <= key b) l ->
  StronglySorted (fun a b => key a <= key b) (insert_asc key x l).
Proof.
  induction l as [|y l IH]; intros H; simpl.
  - constructor; constructor.
  - inversion H as [|? ? Hl Hy]; subst.
    destruct (Z.ltb_spec (key y) (key x)) as [Hlt | Hge].
    + constructor; [now apply IH|].
      apply (Permutation_Forall (insert_asc_perm x l)).
      constructor; [lia | exact Hy].
    + constructor; [exact H|]. constructor; [exact Hge|].
      apply (Forall_impl _ (P := fun b => key y <= key b)); [|exact Hy].
      intros b Hb. lia.
Qed.

Lemma sort_asc_sorted l :
  StronglySorted (fun a b => key a <= key b) (sort_asc key l).
Proof.
  induction l as [|x l IH]; simpl; [constructor | now apply insert_asc_sorted].
Qed.

End SortAscendingFacts.

Lemma length_drop n s : String.length (drop n s) = (String.length s - n)%nat.
Proof.
  revert s. induction n as [|n IH]; intros [|c s]; simpl; trivial; lia.
Qed.

Lemma drop_app n a b :
  (n <= String.length a)%nat -> drop n (a ++ b) = drop n a ++ b.
Proof.
  revert a. induction n as [|n IH]; intros [|c a] H; simpl in *; trivial;
    [lia | apply IH; lia].
Qed.

Lemma take_app n a b :
  take (String.length a + n) (a ++ b) = a ++ take n b.
Proof. induction a as [|c a IH]; simpl; [reflexivity | now rewrite IH]. Qed.

Lemma take_min n s : take (Nat.min (String.length s) n) s = take n s.
Proof.
  revert n. induction s as [|c s IH]; intros [|n]; simpl; trivial.
  now rewrite IH.
Qed.

(** The window of the context: up to 50 characters on each side. *)
Lemma slice_window pre w post :
  slice (Z.max 0 (Z.of_nat (String.length pre) - 50))
        (Z.min (Z.of_nat (String.length (pre ++ w ++ post)))
               (Z.of_nat (String.length pre) + Z.of_nat (String.length w) + 50))
        (pre ++ w ++ post)
  = drop (String.length pre - 50) pre ++ w ++ take 50 post.
Proof.
  unfold slice, slice_bound. rewrite !length_append.
  set (n := String.length pre). set (m := String.length w).
  set (q := String.length post).
  destruct (Z.ltb_spec (Z.max 0 (Z.of_nat n - 50)) 0) as [|_]; [lia|].
  destruct (Z.ltb_spec (Z.min (Z.of_nat (n + (m + q)))
                              (Z.of_nat n + Z.of_nat m + 50)) 0) as [|_]; [lia|].
  replace (Z.to_nat (Z.min (Z.max 0 (Z.of_nat n - 50)) (Z.of_nat (n + (m + q)))))
    with (n - 50)%nat by lia.
  replace (Z.to_nat _)
    with ((n - (n - 50)) + (m + Nat.min q 50))%nat by lia.
  rewrite drop_app by (unfold n; lia).
  replace (n - (n - 50))%nat with (String.length (drop (n - 50) pre))
    by (rewrite length_drop; reflexivity).
  rewrite take_app. f_equal.
  unfold m. rewrite take_app. f_equal. unfold q. apply take_min.
Qed.

Lemma timeline_origin text e :
  In e (extract_timeline text) ->
  exists r p w,
    In r date_patterns /\ In (p, w) (finditer r text)
    /\ e = event_of text (p, w).
Proof.
  unfold extract_timeline. intros H.
  apply (Permutation_in _ (Permutation_sym (sort_asc_perm position _))) in H.
  apply in_flat_map in H as (r & Hr & H).
  apply in_map_iff in H as ([p w] & <- & H). now exists r, p, w.
Qed.

Lemma finditer_sound r text p w :
  In (p, w) (finditer r text) ->
  exists pre post,
    text = pre ++ w ++ post /\ String.length pre = p
    /\ matches r (last_char pre) w post.
Proof.
  unfold finditer. intros H.
  apply finditer_from_sound in H as (pre & post & Ht & -> & Hm).
  rewrite last_or_None in Hm.
  apply match_at_sound in Hm as (rest & Hr & Hm).
  apply app_inv_head in Hr. subst rest. now exists pre, post.
Qed.

(** X27: every entry of the timeline of [extract_timeline] gives the text
    of a date, the offset at which that text stands in the document, and
    as context the date with up to 50 characters of the document on each
    side of it. *)
Theorem timeline_entry_context (text : string) (e : event) :
  In e (extract_timeline text) ->
  exists pre post,
    text = pre ++ date e ++ post
    /\ position e = Z.of_nat (String.length pre)
    /\ context e
       = drop (String.length pre - 50) pre ++ date e ++ take 50 post.
Proof.
  intros H. apply timeline_origin in H as (r & p & w & _ & H & ->).
  apply finditer_sound in H as (pre & post & Ht & <- & _).
  exists pre, post. unfold event_of. cbn [date position context fst snd].
  repeat split; trivial. subst text. apply slice_window.
Qed.

Lemma timeline_entry_context_witness :
  In (mkEvent "2020" 14 "Joined in May 2020")
     (extract_timeline "Joined in May 2020")
  /\ exists pre post,
       "Joined in May 2020" = pre ++ "2020" ++ post
       /\ 14 = Z.of_nat (String.length pre)
       /\ "Joined in May 2020"
          = drop (String.length pre - 50) pre ++ "2020" ++ take 50 post.
Proof.
  assert (H : In (mkEvent "2020" 14 "Joined in May 2020")
                 (extract_timeline "Joined in May 2020")).
  { vm_compute. right. left. reflexivity. }
  split; [exact H|].
  exact (timeline_entry_context "Joined in May 2020"
           (mkEvent "2020" 14 "Joined in May 2020") H).
Defined.

Lemma matches_alt_lit l :
  forall prev w rest, matches (alt (map lit l)) prev w rest <-> In w l.
Proof.
  induction l as [|x l IH]; intros prev w rest.
  - cbn [map alt matches In]. split; [|tauto].
    intros (c & _ & H). discriminate.
  - destruct l as [|x' l].
    + cbn [map alt In]. rewrite matches_lit. intuition congruence.
    + change (alt (map lit (x :: x' :: l)))
        with (Or (lit x) (alt (map lit (x' :: l)))).
      cbn [matches]. rewrite matches_lit, IH. cbn [In]. intuition congruence.
Qed.

Lemma matches_digits lo hi prev w rest :
  matches (between lo hi is_digit) prev w rest <-> digits lo hi w.
Proof. unfold between, digits. cbn [matches]. tauto. Qed.

Lemma matches_year_body prev w rest :
  matches (seq [ Or (lit "19") (lit "20"); between 2 2 is_digit ]) prev w rest
  <-> year_shaped w.
Proof.
  unfold year_shaped. cbn [seq]. cbn [matches]. split.
  - intros (w1 & w2 & -> & H1 & H2).
    exists w1, w2. rewrite !matches_lit in H1.
    split; [reflexivity|]. split; [exact H1|]. now apply (matches_digits 2 2 prev w2 rest).
  - intros (w1 & w2 & -> & H1 & H2). exists w1, w2. rewrite !matches_lit.
    split; [reflexivity|]. split; [exact H1|].
    now apply (matches_digits 2 2 prev w2 rest).
Qed.

Lemma matches_month_year_body prev w rest :
  matches (seq [ alt (map lit months); star is_lower; chr " ";
                 between 4 4 is_digit ]) prev w rest
  <-> month_year_shaped w.
Proof.
  unfold month_year_shaped. cbn [seq]. split.
  - intros (m & w2 & -> & Hm & t & w3 & -> & Ht & sp & y & -> & Hsp & Hy).
    apply matches_alt_lit in Hm. apply matches_chr in Hsp. subst sp.
    rewrite matches_digits in Hy. unfold star in Ht. cbn [matches] in Ht.
    exists m, t, y. split; [reflexivity|]. split; [exact Hm|].
    split; [apply Ht | exact Hy].
  - intros (m & t & y & -> & Hm & Ht & Hy).
    exists m, (t ++ " " ++ y). split; [reflexivity|].
    split; [now apply matches_alt_lit|].
    exists t, (" " ++ y). split; [reflexivity|]. split.
    { unfold star. cbn [matches]. repeat split; trivial. lia. }
    exists " ", y. split; [reflexivity|]. split; [now apply matches_chr|].
    now apply matches_digits.
Qed.

Lemma matches_numeric_date_body prev w rest :
  matches (seq [ between 1 2 is_digit; chr "/"; between 1 2 is_digit;
                 chr "/"; between 2 4 is_digit ]) prev w rest
  <-> numeric_date_shaped w.
Proof.
  unfold numeric_date_shaped. cbn [seq]. split.
  - intros (a & w2 & -> & Ha & s1 & w3 & -> & Hs1 & b & w4 & -> & Hb
            & s2 & c & -> & Hs2 & Hc).
    apply matches_chr in Hs1, Hs2. subst s1 s2.
    rewrite matches_digits in Ha, Hb, Hc. now exists a, b, c.
  - intros (a & b & c & -> & Ha & Hb & Hc).
    exists a, ("/" ++ b ++ "/" ++ c). split; [reflexivity|].
    split; [now apply matches_digits|].
    exists "/", (b ++ "/" ++ c). split; [reflexivity|].
    split; [now apply matches_chr|].
    exists b, ("/" ++ c). split; [reflexivity|].
    split; [now apply matches_digits|].
    exists "/", c. split; [reflexivity|]. split; [now apply matches_chr|].
    now apply matches_digits.
Qed.

Lemma year_pattern_whole_word :
  year_pattern
  = whole_word (seq [ Or (lit "19") (lit "20"); between 2 2 is_digit ]).
Proof. reflexivity. Qed.

Lemma month_year_pattern_whole_word :
  month_year_pattern
  = whole_word (seq [ alt (map lit months); star is_lower; chr " ";
                      between 4 4 is_digit ]).
Proof. reflexivity. Qed.

Lemma numeric_date_pattern_whole_word :
  numeric_date_pattern
  = whole_word (seq [ between 1 2 is_digit; chr "/"; between 1 2 is_digit;
                      chr "/"; between 2 4 is_digit ]).
Proof. reflexivity. Qed.

(** The matches of the three date patterns. *)
Lemma year_match p w text :
  (exists pre post,
     text = pre ++ w ++ post /\ String.length pre = p
     /\ matches year_pattern (last_char pre) w post)
  <-> year_shaped w /\ word_at p w text.
Proof.
  rewrite year_pattern_whole_word. apply whole_word_at.
  apply matches_year_body.
Qed.

Lemma month_year_match p w text :
  (exists pre post,
     text = pre ++ w ++ post /\ String.length pre = p
     /\ matches month_year_pattern (last_char pre) w post)
  <-> month_year_shaped w /\ word_at p w text.
Proof.
  rewrite month_year_pattern_whole_word. apply whole_word_at.
  apply matches_month_year_body.
Qed.

Lemma numeric_date_match p w text :
  (exists pre post,
     text = pre ++ w ++ post /\ String.length pre = p
     /\ matches numeric_date_pattern (last_char pre) w post)
  <-> numeric_date_shaped w /\ word_at p w text.
Proof.
  rewrite numeric_date_pattern_whole_word. apply whole_word_at.
  apply matches_numeric_date_body.
Qed.

(** X28: every date of the timeline stands in the document between two
    word boundaries at the offset recorded for it, and is a year 19xx or
    20xx, or one of the twelve three-letter month names with lower-case
    letters behind it, a space and four digits, or three runs of 1 to 2, 1
    to 2 and 2 to 4 digits joined by slashes. *)
Theorem timeline_dates_shaped (text : string) (e : event) :
  In e (extract_timeline text) ->
  (year_shaped (date e) \/ month_year_shaped (date e)
   \/ numeric_date_shaped (date e))
  /\ word_at (Z.to_nat (position e)) (date e) text.
Proof.
  intros H. apply timeline_origin in H as (r & p & w & Hr & H & ->).
  apply finditer_sound in H. unfold event_of.
  cbn [date position fst snd]. rewrite Nat2Z.id.
  destruct Hr as [<- | [<- | [<- | []]]].
  - apply year_match in H. tauto.
  - apply month_year_match in H. tauto.
  - apply numeric_date_match in H. tauto.
Qed.

Lemma timeline_dates_shaped_witness :
  In (mkEvent "May 2020" 10 "Joined in May 2020")
     (extract_timeline "Joined in May 2020")
  /\ (year_shaped "May 2020" \/ month_year_shaped "May 2020"
      \/ numeric_date_shaped "May 2020")
  /\ word_at 10 "May 2020" "Joined in May 2020".
Proof.
  assert (H : In (mkEvent "May 2020" 10 "Joined in May 2020")
                 (extract_timeline "Joined in May 2020")).
  { vm_compute. left. reflexivity. }
  split; [exact H|].
  exact (timeline_dates_shaped "Joined in May 2020"
           (mkEvent "May 2020" 10 "Joined in May 2020") H).
Defined.

(** A match that starts behind the part still to be passed is reported,
    unless a match reported reaches over its start. *)
Lemma finditer_from_complete r s :
  forall pos skip prev pre post w,
    s = pre ++ post ->
    (skip <= String.length pre)%nat ->
    match_at r (last_or prev pre) post = Some w ->
    In ((pos + String.length pre)%nat, w) (finditer_from r pos skip prev s)
    \/ exists p' w',
         In (p', w') (finditer_from r pos skip prev s)
         /\ (p' < pos + String.length pre < p' + String.length w')%nat.
Proof.
  induction s as [|c s IH]; intros pos skip prev pre post w Hs Hk Hm.
  - destruct pre; [|discriminate]. simpl in Hs, Hk. subst post.
    change (last_or prev EmptyString) with prev in Hm.
    rewrite finditer_from_nil. destruct skip; [|lia]. rewrite Hm.
    left. left. f_equal. simpl. lia.
  - rewrite finditer_from_cons. destruct pre as [|c' pre].
    + simpl in Hs, Hk. subst post.
      change (last_or prev EmptyString) with prev in Hm.
      destruct skip; [|lia]. rewrite Hm. left. left. f_equal. simpl. lia.
    + cbn [append] in Hs. injection Hs as <- ->.
      cbn [String.length] in *. rewrite last_or_cons in Hm.
      assert (Hnext : forall skip',
                 (skip' <= String.length pre)%nat ->
                 In ((pos + S (String.length pre))%nat, w)
                    (finditer_from r (S pos) skip' (Some c) (pre ++ post))
                 \/ exists p' w',
                      In (p', w')
                         (finditer_from r (S pos) skip' (Some c) (pre ++ post))
                      /\ (p' < pos + S (String.length pre)
                          < p' + String.length w')%nat).
      { intros skip' Hk'.
        destruct (IH (S pos) skip' (Some c) pre post w eq_refl Hk' Hm)
          as [H | (p' & w' & H & Hp)].
        - left. now replace (pos + S (String.length pre))%nat
                  with (S pos + String.length pre)%nat by lia.
        - right. exists p', w'. split; [exact H | lia]. }
      destruct skip as [|k]; [|apply Hnext; lia].
      destruct (match_at r prev (String c (pre ++ post))) as [w0|] eqn:E;
        [|apply Hnext; lia].
      destruct (Nat.le_gt_cases (String.length w0 - 1) (String.length pre))
        as [Hle | Hgt].
      * destruct (Hnext _ Hle) as [H | (p' & w' & H & Hp)].
        -- left. now right.
        -- right. exists p', w'. split; [now right | exact Hp].
      * right. exists pos, w0. split; [now left | lia].
Qed.

Lemma app_split (a b c d : string) :
  a ++ b = c ++ d -> (String.length a <= String.length c)%nat ->
  exists m, c = a ++ m /\ b = m ++ d.
Proof.
  revert c. induction a as [|x a IH]; intros c H Hl.
  - exists c. now split.
  - destruct c as [|y c]; [simpl in Hl; lia|].
    cbn [append] in H. injection H as -> H. simpl in Hl.
    destruct (IH c H) as (m & -> & ->); [lia|]. now exists m.
Qed.

Lemma all_chars_last p s :
  all_chars p s = true -> s <> EmptyString ->
  exists c, last_char s = Some c /\ p c = true.
Proof.
  induction s as [|c s IH]; intros H Hne; [congruence|].
  cbn [all_chars] in H. apply andb_true_iff in H as [Hc H].
  destruct s as [|c' s]; [now exists c|].
  destruct (IH H) as (d & Hd & Hp); [discriminate|]. now exists d.
Qed.

Lemma all_chars_head p s :
  all_chars p s = true -> s <> EmptyString ->
  exists c, head_char s = Some c /\ p c = true.
Proof.
  destruct s as [|c s]; intros H Hne; [congruence|].
  cbn [all_chars] in H. apply andb_true_iff in H as [Hc _]. now exists c.
Qed.

Lemma head_char_app a b : a <> EmptyString -> head_char (a ++ b) = head_char a.
Proof. now destruct a. Qed.

(** No word boundary lies inside a run of word characters. *)
Lemma no_boundary_inside pre' w' post' pre rest :
  pre' ++ w' ++ post' = pre ++ rest ->
  (String.length pre' < String.length pre
   < String.length pre' + String.length w')%nat ->
  all_chars is_word w' = true ->
  word_boundary (last_char pre) (head_char rest) = false.
Proof.
  intros H Hl Hw.
  destruct (app_split _ _ _ _ H) as (m & -> & H'); [lia|].
  rewrite length_append in Hl.
  symmetry in H'. destruct (app_split _ _ _ _ H') as (m2 & -> & ->); [lia|].
  rewrite length_append in Hl. rewrite all_chars_app in Hw.
  apply andb_true_iff in Hw as [Hm Hm2].
  assert (Hne : m <> EmptyString) by (intros ->; simpl in Hl; lia).
  assert (Hne2 : m2 <> EmptyString) by (intros ->; simpl in Hl; lia).
  rewrite (last_char_app _ _ Hne), (head_char_app _ _ Hne2).
  destruct (all_chars_last _ _ Hm Hne) as (c & -> & Hc).
  destruct (all_chars_head _ _ Hm2 Hne2) as (d & -> & Hd).
  unfold word_boundary. cbn [opt_is_word]. now rewrite Hc, Hd.
Qed.

Lemma digit_is_word c : is_digit c = true -> is_word c = true.
Proof. unfold is_digit, is_word. now intros ->. Qed.

Lemma year_shaped_digits w :
  year_shaped w -> all_chars is_digit w = true /\ String.length w = 4%nat.
Proof.
  intros (century & rest & -> & Hc & Hr & Hl).
  rewrite all_chars_app, length_append, Hr.
  destruct Hc as [-> | ->]; simpl; split; trivial; lia.
Qed.

Lemma event_in_timeline text r p w :
  In r date_patterns -> In (p, w) (finditer r text) ->
  In (event_of text (p, w)) (extract_timeline text).
Proof.
  intros Hr H. unfold extract_timeline.
  apply (Permutation_in _ (sort_asc_perm position _)).
  apply in_flat_map. exists r. split; [exact Hr|].
  apply in_map_iff. now exists (p, w).
Qed.

(** X30: every year 19xx or 20xx that stands in the document between two
    word boundaries has an entry in the timeline of [extract_timeline], at
    its offset. *)
Theorem timeline_lists_every_year (text y : string) (p : nat) :
  year_shaped y -> word_at p y text ->
  exists e,
    In e (extract_timeline text) /\ date e = y /\ position e = Z.of_nat p.
Proof.
  intros Hy Hw.
  destruct (proj2 (year_match p y text) (conj Hy Hw))
    as (pre & post & Ht & Hp & Hm).
  destruct (match_at year_pattern (last_char pre) (y ++ post)) as [w|] eqn:E;
    [|now apply match_at_complete in Hm].
  assert (Hwy : w = y).
  { destruct (match_at_sound _ _ _ _ E) as (rest & Hr & Hm').
    assert (Hs : year_shaped w).
    { apply (year_match p w text). exists pre, rest.
      rewrite <- Hr. now repeat split. }
    apply year_shaped_digits in Hs as [_ Hl], Hy as [_ Hl'].
    symmetry in Hr. apply app_inv_length in Hr as [Hr _]; [exact Hr | lia]. }
  subst w. exists (event_of text (p, y)). split; [|now split].
  apply (event_in_timeline text year_pattern); [now left|].
  rewrite <- last_or_None in E.
  destruct (finditer_from_complete year_pattern text 0 0 None pre (y ++ post) y
              Ht (Nat.le_0_l _) E) as [H | (p' & w' & H & Hl)].
  - simpl in H. now rewrite Hp in H.
  - exfalso. apply finditer_sound in H.
    apply year_match in H as [Hs (pre' & post' & Ht' & Hp' & _)].
    apply year_shaped_digits in Hs as [Hd _].
    destruct Hw as (pre0 & post0 & Ht0 & Hp0 & Hb & _).
    assert (Hf : word_boundary (last_char pre0) (head_char (y ++ post0))
                 = false).
    { apply (no_boundary_inside pre' w' post').
      - now rewrite <- Ht', <- Ht0.
      - simpl in Hl. lia.
      - apply (all_chars_weaken _ is_digit); [apply digit_is_word | exact Hd]. }
    congruence.
Qed.

Lemma timeline_lists_every_year_witness :
  year_shaped "2020" /\ word_at 14 "2020" "Joined in May 2020"
  /\ exists e,
       In e (extract_timeline "Joined in May 2020")
       /\ date e = "2020" /\ position e = Z.of_nat 14.
Proof.
  assert (Hy : year_shaped "2020").
  { exists "20", "20". repeat split; simpl; auto. }
  assert (Hw : word_at 14 "2020" "Joined in May 2020").
  { exists "Joined in May ", EmptyString. repeat split. }
  split; [exact Hy|]. split; [exact Hw|].
  exact (timeline_lists_every_year "Joined in May 2020" "2020" 14 Hy Hw).
Defined.

(** The offsets reported by [finditer] increase. *)
Lemma finditer_from_positions r s :
  forall pos skip prev,
    StronglySorted Nat.lt (map fst (finditer_from r pos skip prev s))
    /\ Forall (fun p => (pos + skip <= p)%nat)
              (map fst (finditer_from r pos skip prev s)).
Proof.
  induction s as [|c s IH]; intros pos skip prev.
  - rewrite finditer_from_nil. destruct skip as [|k].
    + destruct (match_at r prev EmptyString); cbn [map fst];
        split; repeat constructor. lia.
    + split; constructor.
  - rewrite finditer_from_cons.
    assert (Hnext : forall skip',
               StronglySorted Nat.lt
                 (map fst (finditer_from r (S pos) skip' (Some c) s))
               /\ Forall (fun p => (pos + S skip' <= p)%nat)
                         (map fst (finditer_from r (S pos) skip' (Some c) s))).
    { intros skip'. destruct (IH (S pos) skip' (Some c)) as [H1 H2].
      split; [exact H1|]. apply (Forall_impl _ (P := fun p => (S pos + skip' <= p)%nat));
        [intros; lia | exact H2]. }
    destruct skip as [|k]; [|apply Hnext].
    destruct (match_at r prev (String c s)) as [w0|].
    + destruct (Hnext (String.length w0 - 1)%nat) as [H1 H2]. cbn [map fst].
      split.
      * constructor; [exact H1|].
        apply (Forall_impl _ (P := fun p => (pos + S (String.length w0 - 1) <= p)%nat));
          [intros; lia | exact H2].
      * constructor; [lia|].
        apply (Forall_impl _ (P := fun p => (pos + S (String.length w0 - 1) <= p)%nat));
          [intros; lia | exact H2].
    + destruct (Hnext 0%nat) as [H1 H2]. split; [exact H1|].
      apply (Forall_impl _ (P := fun p => (pos + 1 <= p)%nat));
        [intros; lia | exact H2].
Qed.

Lemma sorted_nodup (l : list nat) : StronglySorted Nat.lt l -> NoDup l.
Proof.
  induction 1 as [|x l Hs IH Hx]; constructor; [|exact IH].
  intros Hin. rewrite Forall_forall in Hx. specialize (Hx x Hin). lia.
Qed.

Lemma strictly_sorted {A : Type} (key : A -> Z) l :
  StronglySorted (fun a b => key a <= key b) l -> NoDup (map key l) ->
  StronglySorted (fun a b => key a < key b) l.
Proof.
  induction 1 as [|x l Hs IH Hx]; intros Hn; constructor.
  - apply IH. now inversion Hn.
  - inversion Hn as [|? ? Hnot _]; subst. rewrite Forall_forall in *.
    intros b Hb. specialize (Hx b Hb).
    assert (key b <> key x).
    { intros E. apply Hnot. rewrite <- E. now apply in_map. }
    lia.
Qed.

Lemma all_chars_take p n s : all_chars p s = true -> all_chars p (take n s) = true.
Proof.
  revert s. induction n as [|n IH]; intros [|c s] H; simpl in *; trivial.
  apply andb_true_iff in H as [-> H]. now apply IH.
Qed.

Lemma take_app_short n a b :
  (n <= String.length a)%nat -> take n (a ++ b) = take n a.
Proof.
  revert a. induction n as [|n IH]; intros a H.
  - now destruct (a ++ b), a.
  - destruct a as [|c a]; simpl in H; [lia|].
    cbn [append take]. rewrite IH; [reflexivity | lia].
Qed.

(** The first characters of the three kinds of date tell them apart. *)
Lemma year_head w post :
  year_shaped w -> all_chars is_digit (take 3 (w ++ post)) = true.
Proof.
  intros H. apply year_shaped_digits in H as [Hd Hl].
  rewrite take_app_short by lia. now apply all_chars_take.
Qed.

Lemma numeric_date_head w post :
  numeric_date_shaped w ->
  any_char (Ascii.eqb "/") (take 3 (w ++ post)) = true
  /\ exists c, head_char (w ++ post) = Some c /\ is_digit c = true.
Proof.
  intros (a & b & c & -> & [Ha Hla] & _ & _).
  destruct a as [|x [|y [|z a]]]; simpl in Hla; try lia;
    cbn [all_chars] in Ha; apply andb_true_iff in Ha as [Hx _].
  - split; [|now exists x]. cbn. apply orb_true_r.
  - split; [|now exists x]. cbn. rewrite !orb_true_r. reflexivity.
Qed.

Lemma month_year_head w post :
  month_year_shaped w ->
  exists c, head_char (w ++ post) = Some c /\ is_upper c = true.
Proof.
  intros (m & t & y & -> & Hm & _ & _). unfold months in Hm.
  repeat (destruct Hm as [<- | Hm]; [eexists; split; reflexivity|]).
  destruct Hm.
Qed.

Lemma digits_without_slash t :
  all_chars is_digit t = true -> any_char (Ascii.eqb "/") t = false.
Proof.
  induction t as [|c t IH]; cbn [all_chars any_char]; [reflexivity|].
  intros H. apply andb_true_iff in H as [Hc H]. rewrite (IH H), orb_false_r.
  destruct (Ascii.eqb "/" c) eqn:E; [|reflexivity].
  apply Ascii.eqb_eq in E. subst c. discriminate.
Qed.

Lemma upper_not_digit c : is_upper c = true -> is_digit c = false.
Proof. destruct c as [[] [] [] [] [] [] [] []]; vm_compute; congruence. Qed.

Lemma same_offset p w w' text :
  word_at p w text -> word_at p w' text ->
  exists post post', w ++ post = w' ++ post'.
Proof.
  intros (pre & post & Ht & Hp & _) (pre' & post' & Ht' & Hp' & _).
  rewrite Ht in Ht'. apply app_inv_length in Ht' as [_ H]; [|lia].
  now exists post, post'.
Qed.

Lemma year_head_digit w post :
  year_shaped w -> exists c, head_char (w ++ post) = Some c /\ is_digit c = true.
Proof.
  intros H. apply year_shaped_digits in H as [Hd Hl].
  destruct w as [|c w]; [discriminate|]. cbn [all_chars] in Hd.
  apply andb_true_iff in Hd as [Hc _]. now exists c.
Qed.

(** No two date patterns match at the same offset. *)
Lemma date_patterns_apart text p w w' :
  (year_shaped w /\ word_at p w text ->
   month_year_shaped w' /\ word_at p w' text -> False)
  /\ (year_shaped w /\ word_at p w text ->
      numeric_date_shaped w' /\ word_at p w' text -> False)
  /\ (month_year_shaped w /\ word_at p w text ->
      numeric_date_shaped w' /\ word_at p w' text -> False).
Proof.
  repeat split; intros [Hs Hw] [Hs' Hw'];
    destruct (same_offset _ _ _ _ Hw Hw') as (post & post' & E).
  - destruct (year_head_digit w post Hs) as (c & Hc & Hd).
    destruct (month_year_head w' post' Hs') as (c' & Hc' & Hu).
    rewrite E, Hc' in Hc. injection Hc as ->.
    apply upper_not_digit in Hu. congruence.
  - pose proof (year_head w post Hs) as Hd.
    destruct (numeric_date_head w' post' Hs') as [Hn _].
    rewrite E in Hd. apply digits_without_slash in Hd. congruence.
  - destruct (month_year_head w post Hs) as (c & Hc & Hu).
    destruct (numeric_date_head w' post' Hs') as [_ (c' & Hc' & Hd)].
    rewrite E, Hc' in Hc. injection Hc as ->.
    apply upper_not_digit in Hu. congruence.
Qed.

Lemma positions_of_matches text r z :
  In z (map position (map (event_of text) (finditer r text))) ->
  exists p w, z = Z.of_nat p /\ In (p, w) (finditer r text).
Proof.
  rewrite map_map. intros H. apply in_map_iff in H as ([p w] & <- & H).
  now exists p, w.
Qed.

Lemma positions_nodup text r :
  NoDup (map position (map (event_of text) (finditer r text))).
Proof.
  rewrite map_map.
  change (fun x => position (event_of text x))
    with (fun x : nat * string => Z.of_nat (fst x)).
  rewrite <- (map_map fst Z.of_nat).
  assert (H : NoDup (map fst (finditer r text))).
  { apply sorted_nodup. apply finditer_from_positions. }
  induction H as [|x l Hx _ IH]; cbn [map]; constructor; [|exact IH].
  intros Hin. apply in_map_iff in Hin as (y & Hy & Hin).
  apply Nat2Z.inj in Hy. now subst y.
Qed.

Lemma nodup_app {A : Type} (l1 l2 : list A) :
  NoDup l1 -> NoDup l2 -> (forall x, In x l1 -> In x l2 -> False) ->
  NoDup (l1 ++ l2).
Proof.
  intros H1 H2 Hd. induction H1 as [|x l Hx _ IH]; [exact H2|].
  cbn [app]. constructor.
  - intros Hin. apply in_app_or in Hin as [Hin | Hin]; [now apply Hx|].
    apply (Hd x); [now left | exact Hin].
  - apply IH. intros y Hy. apply Hd. now right.
Qed.

(** X29: the timeline of [extract_timeline] is in document order, and no
    two of its entries stand at the same offset: the offsets increase
    strictly along it. *)
Theorem timeline_in_document_order (text : string) :
  StronglySorted (fun a b => position a < position b) (extract_timeline text).
Proof.
  unfold extract_timeline. apply strictly_sorted; [apply sort_asc_sorted|].
  eapply Permutation_NoDup;
    [apply Permutation_map, sort_asc_perm|].
  unfold date_patterns. cbn [flat_map]. rewrite app_nil_r, !map_app.
  assert (Hy : forall z,
             In z (map position (map (event_of text)
                                     (finditer year_pattern text))) ->
             exists p w, z = Z.of_nat p /\ year_shaped w /\ word_at p w text).
  { intros z H. apply positions_of_matches in H as (p & w & -> & H).
    apply finditer_sound, year_match in H. now exists p, w. }
  assert (Hm : forall z,
             In z (map position (map (event_of text)
                                     (finditer month_year_pattern text))) ->
             exists p w,
               z = Z.of_nat p /\ month_year_shaped w /\ word_at p w text).
  { intros z H. apply positions_of_matches in H as (p & w & -> & H).
    apply finditer_sound, month_year_match in H. now exists p, w. }
  assert (Hn : forall z,
             In z (map position (map (event_of text)
                                     (finditer numeric_date_pattern text))) ->
             exists p w,
               z = Z.of_nat p /\ numeric_date_shaped w /\ word_at p w text).
  { intros z H. apply positions_of_matches in H as (p & w & -> & H).
    apply finditer_sound, numeric_date_match in H. now exists p, w. }
  apply nodup_app; [apply positions_nodup | apply nodup_app |];
    try apply positions_nodup.
  - intros z H1 H2. apply Hm in H1 as (p & w & -> & H1).
    apply Hn in H2 as (p' & w' & E & H2). apply Nat2Z.inj in E. subst p'.
    destruct (date_patterns_apart text p w w') as (_ & _ & A). exact (A H1 H2).
  - intros z H1 H2. apply Hy in H1 as (p & w & -> & H1).
    apply in_app_or in H2 as [H2 | H2].
    + apply Hm in H2 as (p' & w' & E & H2). apply Nat2Z.inj in E. subst p'.
      destruct (date_patterns_apart text p w w') as (A & _ & _).
      exact (A H1 H2).
    + apply Hn in H2 as (p' & w' & E & H2). apply Nat2Z.inj in E. subst p'.
      destruct (date_patterns_apart text p w w') as (_ & A & _).
      exact (A H1 H2).
Qed.
